(** * IcebergTableSink: a shallow embedding of be/src/runtime/iceberg_table_sink.cpp

    The sink receives columnar batches, derives a partition key per row,
    splits the batch per key, appends every part to a per-key file writer
    (rolling the file when it reached the byte budget) and, on close,
    finishes the writers and reports the produced files to the master.

    Collaborators that live outside the file (file builder, broker file
    system, clock, thrift client, memory allocator) are driven by an
    environment [Env] of outcomes indexed by the number of external calls
    made so far, so that every behaviour of the collaborators is covered by
    quantifying over the environment. *)

From Stdlib Require Import ZArith Lia Ascii.
From stdpp Require Import gmap strings list fin_maps pretty.

Local Open Scope Z_scope.

(** ** Status *)

Inductive StatusCode :=
  | InternalError
  | NotSupported
  | NotFound
  | IOError
  | AlreadyExist
  | ThriftRpcError.

Inductive Status :=
  | OK
  | Error (code : StatusCode) (msg : string).

Definition ok (s : Status) : bool :=
  match s with OK => true | Error _ _ => false end.

Global Instance StatusCode_eq_dec : EqDecision StatusCode.
Proof. solve_decision. Defined.
Global Instance Status_eq_dec : EqDecision Status.
Proof. solve_decision. Defined.

(** ** Columns and chunks *)

(** A [Datum] is a variant; the sink only ever reads timestamps out of it
    ([get_timestamp().to_unix_second()]), the other payloads are opaque. *)
Inductive Datum :=
  | DNull
  | DTimestamp (unix_second : Z)
  | DOther (payload : Z).

Global Instance Datum_eq_dec : EqDecision Datum.
Proof. solve_decision. Defined.

Definition Column := list Datum.

(** [vectorized::Chunk]: the columns and the slot-id to column-index map. *)
Record Chunk := mkChunk {
  columns : list Column;
  slot_id_to_index : gmap Z nat;
}.

Definition num_rows (c : Chunk) : nat :=
  match columns c with
  | [] => 0%nat
  | col :: _ => length col
  end.

Definition reset_slot_id_to_index (c : Chunk) : Chunk :=
  mkChunk (columns c) ∅.

Definition set_slot_id_to_index (slot : Z) (idx : nat) (c : Chunk) : Chunk :=
  mkChunk (columns c) (<[slot := idx]> (slot_id_to_index c)).

Definition append_column (col : Column) (slot : Z) (c : Chunk) : Chunk :=
  mkChunk (columns c ++ [col])
          (<[slot := length (columns c)]> (slot_id_to_index c)).

(** ** Static configuration *)

Record TIcebergTablePartitionColumn := mkPartitionColumn {
  columnName : string;
  transform : string;
  partitionName : string;
}.

Record SlotDescriptor := mkSlot {
  col_name : string;
  slot_id : Z;
}.

Record TNetworkAddress := mkAddress {
  hostname : string;
  port : Z;
}.

(** What an output expression evaluates to on a chunk: a failure (with a
    status that is not OK), a column that is only null, a constant column or
    a full column. *)
Inductive EvalResult :=
  | EvalFails (s : Status)
  | EvalOnlyNull
  | EvalConst (d : Datum)
  | EvalColumn (col : Column).

(** [TIcebergTableSink] together with the members of the sink fixed by
    [init] and [prepare]. *)
Record Config := mkConfig {
  db_id : Z;
  table_id : Z;
  location : string;
  file_format : string;
  file_name_prefix : option string;
  broker_addresses : list TNetworkAddress;
  bytes_per_file : Z;
  partitionColumns : list TIcebergTablePartitionColumn;
  slots : list SlotDescriptor;
  _output_expr_ctxs : list (Chunk → EvalResult);
  iceberg_add_files_rpc_timeout_ms : Z;
}.

(** ** File builders *)

(** Modelled from the spec: the columnar encoder/file builder (ORCBuilder,
    declared in exec/orc_builder.h) exposes append, finish and the
    accumulated byte size; a builder is bound to the one file it writes. *)
Record FileBuilder := mkFileBuilder {
  fb_path : string;
  fb_size : Z;
  fb_chunks : list Chunk;
  fb_finished : bool;
}.

Definition new_builder (path : string) : FileBuilder :=
  mkFileBuilder path 0 [] false.

(** ** The commit request and the outcomes of the remote call *)

Record TAddIcebergFilesRequest := mkRequest {
  req_files : list string;
  req_db_id : Z;
  req_table_id : Z;
  req_timeout_ms : Z;
}.

Inductive RpcOutcome :=
  | RpcReturns (response_status : Status)
  | RpcTransportException (what : string)
  | RpcOtherException (what : string).

(** ** External calls *)

Inductive Event :=
  | EvUnixMillis (now : Z)
  | EvNewWritableFile (path : string) (r : Status)
  | EvAddChunk (path : string) (size_before : Z) (chunk : Chunk) (r : Status)
  | EvFinish (path : string) (r : Status)
  | EvConnect (r : Status)
  | EvAddIcebergFiles (req : TAddIcebergFilesRequest) (o : RpcOutcome)
  | EvReopen (r : Status).

(** A live heap block: base address and size in bytes. *)
Record Block := mkBlock {
  blk_base : Z;
  blk_size : Z;
}.

(** The environment: what each external call answers when it is the
    [n]-th external call of the run; the identity of the node and the
    address of the master; the offset of the default time zone; the
    allocator (called with the number of allocations made so far, the live
    blocks and the requested size); the layout of [std::string]: size of
    the object, offset and capacity of its inline buffer; and the order of
    the writer map: among the keys an iteration has not visited yet, the
    position of the one it visits next. *)
Record Env := mkEnv {
  UnixMillis : nat → Z;
  new_writable_file : nat → Status;
  add_chunk_status : nat → Status;
  add_chunk_bytes : nat → N;
  finish_status : nat → Status;
  connect_status : nat → Status;
  addIcebergFiles : nat → RpcOutcome;
  reopen_status : nat → Status;
  backend_id : Z;
  master_address : TNetworkAddress;
  utc_offset : Z;
  malloc : nat → list Block → Z → Z;
  string_size : Z;
  inline_offset : Z;
  inline_capacity : nat;
  visit_next : list string → nat;
}.

(** ** The state of the sink

    [_partition_writer_map] and the output files of the runtime state are
    the state of the code; [erased_writers] keeps the builders that were
    erased from the map and [trace] the external calls made so far, for the
    statements about them. *)

Record Sink := mkSink {
  _partition_writer_map : gmap string FileBuilder;
  export_output_files : list string;
  erased_writers : list FileBuilder;
  trace : list Event;
}.

Definition initial_sink : Sink := mkSink ∅ [] [] [].

Definition tick (st : Sink) : nat := length (trace st).

Definition log (e : Event) (st : Sink) : Sink :=
  mkSink (_partition_writer_map st) (export_output_files st)
         (erased_writers st) (trace st ++ [e]).

Definition set_writer (key : string) (w : FileBuilder) (st : Sink) : Sink :=
  mkSink (<[key := w]> (_partition_writer_map st)) (export_output_files st)
         (erased_writers st) (trace st).

(** [_partition_writer_map.erase(iter)]: the builder is destroyed; it is
    remembered in [erased_writers]. *)
Definition erase_writer (key : string) (w : FileBuilder) (st : Sink) : Sink :=
  mkSink (delete key (_partition_writer_map st)) (export_output_files st)
         (erased_writers st ++ [w]) (trace st).

(** [_partition_writer_map.insert({key, builder})] keeps an existing entry. *)
Definition insert_writer (key : string) (w : FileBuilder) (st : Sink) : Sink :=
  match _partition_writer_map st !! key with
  | Some _ => st
  | None => set_writer key w st
  end.

Definition add_export_output_file (path : string) (st : Sink) : Sink :=
  mkSink (_partition_writer_map st) (export_output_files st ++ [path])
         (erased_writers st) (trace st).

(** ** gen_file_name *)

Definition file_name (env : Env) (prefix : string) (now : Z) : string :=
  prefix +:+ "_" +:+ pretty (backend_id env) +:+ "_" +:+ pretty now +:+ ".orc".

Definition file_path (cfg : Config) (env : Env) (partition_key prefix : string)
    (now : Z) : string :=
  location cfg +:+ "/data/" +:+ partition_key +:+ file_name env prefix now.

(** Returns the status and the generated name (meaningful when OK). *)
Definition gen_file_name (cfg : Config) (env : Env) (st : Sink)
    : Status * string * Sink :=
  match file_name_prefix cfg with
  | None => (Error InternalError "file name prefix is not set", "", st)
  | Some prefix =>
      let now := UnixMillis env (tick st) in
      let st1 := log (EvUnixMillis now) st in
      if String.eqb (file_format cfg) "orc"
      then (OK, file_name env prefix now, st1)
      else (Error NotSupported ("unsupported file format " +:+ file_format cfg),
            "", st1)
  end.

(** ** prepare_partition_writer *)

(** [file_size()] is a [std::size_t] and [bytes_per_file] a thrift i64: the
    comparison converts the budget to unsigned 64 bits. *)
Definition size_t_of_int64 (z : Z) : Z := z mod 2 ^ 64.

Definition budget_reached (cfg : Config) (w : FileBuilder) : bool :=
  size_t_of_int64 (bytes_per_file cfg) <=? fb_size w.

Definition mark_finished (w : FileBuilder) : FileBuilder :=
  mkFileBuilder (fb_path w) (fb_size w) (fb_chunks w) true.

(** [FileBuilder::finish] on the writer [w] stored under [key]; returns the
    status, the writer after the call and the sink. *)
Definition finish_writer (env : Env) (key : string) (w : FileBuilder)
    (st : Sink) : Status * FileBuilder * Sink :=
  let r := finish_status env (tick st) in
  let w' := if ok r then mark_finished w else w in
  (r, w', log (EvFinish (fb_path w) r) (set_writer key w' st)).

(** The files the broker file system created, in the order of creation. *)
Fixpoint created_files (es : list Event) : list string :=
  match es with
  | [] => []
  | EvNewWritableFile path OK :: es' => path :: created_files es'
  | _ :: es' => created_files es'
  end.

(** Modelled from the spec: the remote file system creates a file with the
    options "create-new, fail if exists" ([FileSystem::MUST_CREATE], declared
    in fs/fs.h).  It holds at least the files it created for this sink, which
    the sink never removes: creating one of them again is refused with
    [Status::AlreadyExist]; for any other path the environment answers. *)
Definition fs_broker_new_writable_file (env : Env) (path : string) (st : Sink)
    : Status :=
  if bool_decide (path ∈ created_files (trace st))
  then Error AlreadyExist path
  else new_writable_file env (tick st).

(** The part of [prepare_partition_writer] after the lookup: a new file and a
    new builder for [partition_key]. *)
Definition open_partition_writer (cfg : Config) (env : Env)
    (partition_key : string) (st : Sink) : Status * Sink :=
  let '(s, name, st1) := gen_file_name cfg env st in
  if ok s then
    let path := location cfg +:+ "/data/" +:+ partition_key +:+ name in
    match broker_addresses cfg with
    | [] => (Error NotFound "no broker found ", st1)
    | _ :: _ =>
        let r := fs_broker_new_writable_file env path st1 in
        let st2 := log (EvNewWritableFile path r) st1 in
        if ok r then
          if String.eqb (file_format cfg) "orc"
          then (OK, add_export_output_file path
                      (insert_writer partition_key (new_builder path) st2))
          else (Error NotSupported
                  ("unsupported file format " +:+ file_format cfg), st2)
        else (r, st2)
    end
  else (s, st1).

Definition prepare_partition_writer (cfg : Config) (env : Env)
    (partition_key : string) (st : Sink) : Status * Sink :=
  match _partition_writer_map st !! partition_key with
  | Some w =>
      if budget_reached cfg w then
        let '(r, w', st1) := finish_writer env partition_key w st in
        if ok r
        then open_partition_writer cfg env partition_key
               (erase_writer partition_key w' st1)
        else (r, st1)
      else (OK, st)
  | None => open_partition_writer cfg env partition_key st
  end.

(** ** Outcomes with undefined behaviour *)

Inductive Fault :=
  | NullColumn
  | OutOfRange
  | BadDatum
  | UnknownSlot.

Inductive Outcome (A : Type) :=
  | Done (a : A)
  | Crash (f : Fault).
Arguments Done {A} a.
Arguments Crash {A} f.

(** ** write_to_partition *)

Definition add_chunk (env : Env) (key : string) (w : FileBuilder)
    (chunk : Chunk) (st : Sink) : Status * Sink :=
  let r := add_chunk_status env (tick st) in
  let w' := if ok r
            then mkFileBuilder (fb_path w)
                   (fb_size w + Z.of_N (add_chunk_bytes env (tick st)))
                   (fb_chunks w ++ [chunk]) (fb_finished w)
            else w in
  (r, log (EvAddChunk (fb_path w) (fb_size w) chunk r) (set_writer key w' st)).

Definition write_to_partition (cfg : Config) (env : Env) (chunk : Chunk)
    (partitionKey : string) (st : Sink) : Outcome (Status * Sink) :=
  let '(status, st1) := prepare_partition_writer cfg env partitionKey st in
  if ok status then
    match _partition_writer_map st1 !! partitionKey with
    | Some w => Done (add_chunk env partitionKey w chunk st1)
    | None => Crash OutOfRange
    end
  else Done (status, st1).

(** ** close *)

(** [for (auto& it : _partition_writer_map)] visits every entry once, in the
    order of the container, which this file does not fix: starting from all
    entries, the environment picks the position of the entry visited next
    among those that are left.  Every order of the entries is the order of
    some environment. *)
Fixpoint visit (next : list string → nat) (n : nat)
    (entries : list (string * FileBuilder)) : list (string * FileBuilder) :=
  match n with
  | O => []
  | S n' =>
      match entries !! (next entries.*1 `mod` length entries)%nat with
      | Some kw =>
          kw :: visit next n'
                  (delete (next entries.*1 `mod` length entries)%nat entries)
      | None => []
      end
  end.

Definition iteration (env : Env) (m : gmap string FileBuilder)
    : list (string * FileBuilder) :=
  visit (visit_next env) (length (map_to_list m)) (map_to_list m).

(** The environment with another order of the writer map. *)
Definition with_visit_next (env : Env) (next : list string → nat) : Env :=
  mkEnv (UnixMillis env) (new_writable_file env) (add_chunk_status env)
        (add_chunk_bytes env) (finish_status env) (connect_status env)
        (addIcebergFiles env) (reopen_status env) (backend_id env)
        (master_address env) (utc_offset env) (malloc env) (string_size env)
        (inline_offset env) (inline_capacity env) next.

(** The choice that visits the keys in the order [order]: among the keys
    that are left, the position of the first key of [order] that has not
    been visited. *)
Definition position_of (order : list string) (keys : list string) : nat :=
  match order !! (length order - length keys)%nat with
  | Some key =>
      match list_find (λ k, k = key) keys with
      | Some (i, _) => i
      | None => 0%nat
      end
  | None => 0%nat
  end.

(** The loop over [_partition_writer_map] at the head of [close], on the
    entries in the order of the iteration. *)
Fixpoint finish_all (env : Env) (ws : list (string * FileBuilder)) (st : Sink)
    : Status * Sink :=
  match ws with
  | [] => (OK, st)
  | (key, w) :: rest =>
      let '(r, _, st1) := finish_writer env key w st in
      if ok r then finish_all env rest st1 else (r, st1)
  end.

Definition make_request (cfg : Config) (st : Sink) : TAddIcebergFilesRequest :=
  mkRequest (export_output_files st) (db_id cfg) (table_id cfg)
            (Z.quot (iceberg_add_files_rpc_timeout_ms cfg * 3) 4).

Definition rpc_failure_message (env : Env) (what : string) : string :=
  "Fail to add export files to iceberg table("
  +:+ hostname (master_address env) +:+ ":" +:+ pretty (port (master_address env))
  +:+ "). reason: " +:+ what.

(** The handler of [apache::thrift::TException]: reopen, whose result is
    dropped, and an internal error. *)
Definition rpc_failed (env : Env) (what : string) (st : Sink) : Status * Sink :=
  let r := reopen_status env (tick st) in
  (Error InternalError (rpc_failure_message env what), log (EvReopen r) st).

(** The nested try blocks around [client->addIcebergFiles]. *)
Definition send_request (env : Env) (request : TAddIcebergFilesRequest)
    (st : Sink) : Status * Sink :=
  let o1 := addIcebergFiles env (tick st) in
  let st1 := log (EvAddIcebergFiles request o1) st in
  match o1 with
  | RpcReturns response_status => (response_status, st1)
  | RpcTransportException _ =>
      let r := reopen_status env (tick st1) in
      let st2 := log (EvReopen r) st1 in
      if ok r then
        let o2 := addIcebergFiles env (tick st2) in
        let st3 := log (EvAddIcebergFiles request o2) st2 in
        match o2 with
        | RpcReturns response_status => (response_status, st3)
        | RpcTransportException what => rpc_failed env what st3
        | RpcOtherException what => rpc_failed env what st3
        end
      else (r, st2)
  | RpcOtherException what => rpc_failed env what st1
  end.

Definition close (cfg : Config) (env : Env) (exec_status : Status) (st : Sink)
    : Status * Sink :=
  let '(r, st1) :=
    finish_all env (iteration env (_partition_writer_map st)) st in
  if ok r then
    match export_output_files st1 with
    | [] => (OK, st1)
    | _ :: _ =>
        let request := make_request cfg st1 in
        let c := connect_status env (tick st1) in
        let st2 := log (EvConnect c) st1 in
        if ok c then send_request env request st2 else (c, st2)
    end
  else (r, st1).

(** ** Day truncation *)

(** Modelled from the spec: DateTimeValue::from_unixtime (in the UTC zone) and
    to_format_string with the pattern %Y-%m-%d are declared in
    runtime/datetime_value.h; the formatted value is the ISO YYYY-MM-DD date
    of the instant (years 0000 to 9999), computed here from the day number
    since 1970-01-01. *)
Definition civil_from_days (days : Z) : Z * Z * Z :=
  let z := days + 719468 in
  let era := z / 146097 in
  let doe := z - era * 146097 in
  let yoe := (doe - doe / 1460 + doe / 36524 - doe / 146096) / 365 in
  let doy := doe - (365 * yoe + yoe / 4 - yoe / 100) in
  let mp := (5 * doy + 2) / 153 in
  let d := doy - (153 * mp + 2) / 5 + 1 in
  let m := if mp <? 10 then mp + 3 else mp - 9 in
  let y := yoe + era * 400 + (if m <=? 2 then 1 else 0) in
  (y, m, d).

Fixpoint zeros (n : nat) : string :=
  match n with
  | O => ""
  | S n' => String "0"%char (zeros n')
  end.

(** [s] with zeros on its left up to [width] characters. *)
Definition zero_pad (width : nat) (s : string) : string :=
  zeros (width - String.length s) +:+ s.

Definition day_string (timestamp : Z) : string :=
  let '(y, m, d) := civil_from_days (timestamp / 86400) in
  zero_pad 4 (pretty y) +:+ "-" +:+ zero_pad 2 (pretty m) +:+ "-"
  +:+ zero_pad 2 (pretty d).

(** ** The head of send_chunk: the output chunk *)

(** The loop over [_output_expr_ctxs]; [i]-th expression, [i]-th slot.  For
    a column that is only null, [create_column] gives a new column of the
    type of the slot, to which nothing is appended here. *)
Fixpoint evaluate_exprs (exprs : list (Chunk → EvalResult))
    (ss : list SlotDescriptor) (rows : nat) (chunk out : Chunk)
    : Outcome (Status + Chunk) :=
  match exprs with
  | [] => Done (inr out)
  | e :: exprs' =>
      match e chunk with
      | EvalFails s => Done (inl s)
      | tmp =>
          match ss with
          | [] => Crash OutOfRange
          | slot :: ss' =>
              let output_column :=
                match tmp with
                | EvalConst d => replicate rows d
                | EvalColumn col => col
                | EvalOnlyNull | EvalFails _ => []
                end in
              evaluate_exprs exprs' ss' rows chunk
                (append_column output_column (slot_id slot) out)
          end
      end
  end.

(** The loop of the branch without expressions: slot [i] is column [i]. *)
Fixpoint bind_slot_ids (ss : list SlotDescriptor) (i : nat) (chunk : Chunk)
    : Chunk :=
  match ss with
  | [] => chunk
  | slot :: ss' =>
      bind_slot_ids ss' (S i) (set_slot_id_to_index (slot_id slot) i chunk)
  end.

Definition get_column_by_slot_id (chunk : Chunk) (slot : Z) : Outcome Column :=
  match slot_id_to_index chunk !! slot with
  | None => Crash UnknownSlot
  | Some idx =>
      match columns chunk !! idx with
      | None => Crash OutOfRange
      | Some col => Done col
      end
  end.

(** ** Resolving the partition columns *)

(** The inner loop over the slots for one partition column. *)
Fixpoint bind_column (name : string) (ss : list SlotDescriptor) (chunk : Chunk)
    (partition_columns : list (option Column)) (index : nat)
    : Outcome (list (option Column) * nat) :=
  match ss with
  | [] => Done (partition_columns, index)
  | slot :: ss' =>
      if String.eqb (col_name slot) name then
        match get_column_by_slot_id chunk (slot_id slot) with
        | Crash f => Crash f
        | Done col =>
            if (index <? length partition_columns)%nat
            then bind_column name ss' chunk
                   (<[index := Some col]> partition_columns) (S index)
            else Crash OutOfRange
        end
      else bind_column name ss' chunk partition_columns index
  end.

(** The outer loop over [partitionColumns]. *)
Fixpoint bind_columns (pcs : list TIcebergTablePartitionColumn)
    (ss : list SlotDescriptor) (chunk : Chunk)
    (partition_columns : list (option Column)) (index : nat)
    : Outcome (list (option Column)) :=
  match pcs with
  | [] => Done partition_columns
  | pc :: pcs' =>
      match bind_column (columnName pc) ss chunk partition_columns index with
      | Crash f => Crash f
      | Done (partition_columns', index') =>
          bind_columns pcs' ss chunk partition_columns' index'
      end
  end.

Definition resolve_partition_columns (cfg : Config) (chunk : Chunk)
    : Outcome (list (option Column)) :=
  bind_columns (partitionColumns cfg) (slots cfg) chunk
    (replicate (length (partitionColumns cfg)) None) 0%nat.

(** ** The partition key of one row *)

(** The loop over [partitionColumns] for row [i]; [columnIdx] is the
    distance of the iterator from the beginning. *)
Fixpoint derive_key (env : Env) (pcs : list TIcebergTablePartitionColumn)
    (partition_columns : list (option Column)) (columnIdx i : nat)
    (partitionKey : string) : Outcome (Status + string) :=
  match pcs with
  | [] => Done (inr partitionKey)
  | it :: pcs' =>
      if String.eqb (transform it) "day" then
        match partition_columns !! columnIdx with
        | None => Crash OutOfRange
        | Some None => Crash NullColumn
        | Some (Some col) =>
            match col !! i with
            | None => Crash OutOfRange
            | Some (DTimestamp unix_second) =>
                let timestamp := unix_second - utc_offset env in
                derive_key env pcs' partition_columns (S columnIdx) i
                  (partitionKey +:+ partitionName it +:+ "="
                   +:+ day_string timestamp +:+ "/")
            | Some _ => Crash BadDatum
            end
        end
      else Done (inl (Error NotSupported
                        ("unsupported transform " +:+ transform it)))
  end.

(** ** The vector of partition keys and the cached data pointers

    [partitionKeys] is a [std::vector<std::string>]; [partitionReferences]
    caches, per row, the [data()] pointer of the key found in the vector.
    A string of at most [inline_capacity] bytes keeps its characters inside
    the string object, which lives in the storage of the vector; a longer one
    keeps them in a heap buffer that follows the string when it is moved.
    The vector grows by reallocation: new storage is obtained, the new
    element is built in it, the old elements are moved and the old storage
    is released. *)

Record StdString := mkStdString {
  str_value : string;
  str_heap : Z;
}.

Record KeyVector := mkKeyVector {
  vec_base : Z;
  vec_capacity : nat;
  vec_elems : list StdString;
}.

Record Heap := mkHeap {
  live : list Block;
  allocations : nat;
}.

Definition allocate (env : Env) (size : Z) (h : Heap) : Z * Heap :=
  let base := malloc env (allocations h) (live h) size in
  (base, mkHeap (live h ++ [mkBlock base size]) (S (allocations h))).

Definition deallocate (base : Z) (h : Heap) : Heap :=
  mkHeap (filter (λ b, blk_base b ≠ base) (live h)) (allocations h).

Definition is_inline (env : Env) (s : string) : bool :=
  (String.length s <=? inline_capacity env)%nat.

(** Copy construction of a string holding [key]. *)
Definition copy_string (env : Env) (key : string) (h : Heap) : StdString * Heap :=
  if is_inline env key then (mkStdString key 0, h)
  else
    let '(p, h1) := allocate env (Z.of_nat (String.length key) + 1) h in
    (mkStdString key p, h1).

(** [data()] of the [j]-th element of a vector whose storage is at [base]. *)
Definition data (env : Env) (base : Z) (j : nat) (s : StdString) : Z :=
  if is_inline env (str_value s)
  then base + string_size env * Z.of_nat j + inline_offset env
  else str_heap s.

Definition emplace_back (env : Env) (key : string) (v : KeyVector) (h : Heap)
    : KeyVector * Heap :=
  let n := length (vec_elems v) in
  if (n <? vec_capacity v)%nat then
    let '(s, h1) := copy_string env key h in
    (mkKeyVector (vec_base v) (vec_capacity v) (vec_elems v ++ [s]), h1)
  else
    let capacity := (n + Nat.max n 1)%nat in
    let '(base, h1) := allocate env (string_size env * Z.of_nat capacity) h in
    let '(s, h2) := copy_string env key h1 in
    let h3 := if (0 <? vec_capacity v)%nat
              then deallocate (vec_base v) h2 else h2 in
    (mkKeyVector base capacity (vec_elems v ++ [s]), h3).

Definition find_key (key : string) (elems : list StdString)
    : option (nat * StdString) :=
  list_find (λ s, str_value s = key) elems.

(** The body of the loop over the rows, for row [i]. *)
Definition assign_row (env : Env) (pcs : list TIcebergTablePartitionColumn)
    (partition_columns : list (option Column)) (i : nat)
    (v : KeyVector) (h : Heap) (partitionReferences : list Z)
    : Outcome (Status + KeyVector * Heap * list Z) :=
  match derive_key env pcs partition_columns 0 i "" with
  | Crash f => Crash f
  | Done (inl s) => Done (inl s)
  | Done (inr partitionKey) =>
      let '(v1, h1) :=
        match find_key partitionKey (vec_elems v) with
        | None => emplace_back env partitionKey v h
        | Some _ => (v, h)
        end in
      match find_key partitionKey (vec_elems v1) with
      | None => Crash OutOfRange
      | Some (j, pKey) =>
          Done (inr (v1, h1,
                     <[i := data env (vec_base v1) j pKey]> partitionReferences))
      end
  end.

Fixpoint assign_rows (env : Env) (pcs : list TIcebergTablePartitionColumn)
    (partition_columns : list (option Column)) (rows : list nat)
    (v : KeyVector) (h : Heap) (partitionReferences : list Z)
    : Outcome (Status + KeyVector * list Z) :=
  match rows with
  | [] => Done (inr (v, partitionReferences))
  | i :: rows' =>
      match assign_row env pcs partition_columns i v h partitionReferences with
      | Crash f => Crash f
      | Done (inl s) => Done (inl s)
      | Done (inr (v1, h1, refs1)) =>
          assign_rows env pcs partition_columns rows' v1 h1 refs1
      end
  end.

(** ** Splitting and writing *)

(** The rows whose cached pointer equals [partition], from index [i] on. *)
Fixpoint select_idx (partitionReferences : list Z) (i : nat) (partition : Z)
    : list nat :=
  match partitionReferences with
  | [] => []
  | r :: refs =>
      if bool_decide (r = partition)
      then i :: select_idx refs (S i) partition
      else select_idx refs (S i) partition
  end.

Fixpoint gather (col : Column) (idxs : list nat) : Outcome Column :=
  match idxs with
  | [] => Done []
  | i :: idxs' =>
      match col !! i, gather col idxs' with
      | Some d, Done rest => Done (d :: rest)
      | None, _ => Crash OutOfRange
      | _, Crash f => Crash f
      end
  end.

Fixpoint gather_columns (cols : list Column) (idxs : list nat)
    : Outcome (list Column) :=
  match cols with
  | [] => Done []
  | col :: cols' =>
      match gather col idxs, gather_columns cols' idxs with
      | Done c, Done rest => Done (c :: rest)
      | Crash f, _ => Crash f
      | _, Crash f => Crash f
      end
  end.

(** [clone_empty_with_slot] followed by [append_selective]. *)
Definition clone_selective (chunk : Chunk) (idxs : list nat) : Outcome Chunk :=
  match gather_columns (columns chunk) idxs with
  | Done cols => Done (mkChunk cols (slot_id_to_index chunk))
  | Crash f => Crash f
  end.

(** The loop over [partitionKeys] of the branch with several keys; [j] is
    the position of the key in the vector. *)
Fixpoint write_partitions (cfg : Config) (env : Env) (chunk : Chunk)
    (base : Z) (partitionReferences : list Z) (keys : list StdString) (j : nat)
    (status : Status) (st : Sink) : Outcome (Status * Sink) :=
  match keys with
  | [] => Done (status, st)
  | partitionKey :: keys' =>
      let partition := data env base j partitionKey in
      match clone_selective chunk (select_idx partitionReferences 0 partition) with
      | Crash f => Crash f
      | Done _cur_chunk =>
          match write_to_partition cfg env _cur_chunk
                  (str_value partitionKey) st with
          | Crash f => Crash f
          | Done (status', st') =>
              if ok status'
              then write_partitions cfg env chunk base partitionReferences
                     keys' (S j) status' st'
              else Done (status', st')
          end
      end
  end.

(** Everything in [send_chunk] from "find partition reference for each row"
    on, applied to the chunk that is written (the DCHECK_EQ on the slot map
    is compiled out of release builds). *)
Definition partition_and_write (cfg : Config) (env : Env) (chunk : Chunk)
    (st : Sink) : Outcome (Status * Sink) :=
  let rows := num_rows chunk in
  match resolve_partition_columns cfg chunk with
  | Crash f => Crash f
  | Done partition_columns =>
      match assign_rows env (partitionColumns cfg) partition_columns
              (seq 0 rows) (mkKeyVector 0 0 []) (mkHeap [] 0)
              (replicate rows 0) with
      | Crash f => Crash f
      | Done (inl s) => Done (s, st)
      | Done (inr (partitionKeys, partitionReferences)) =>
          match vec_elems partitionKeys with
          | [key] => write_to_partition cfg env chunk (str_value key) st
          | keys =>
              write_partitions cfg env chunk (vec_base partitionKeys)
                partitionReferences keys 0 OK st
          end
      end
  end.

(** ** send_chunk *)

(** The chunk that is written, and the caller's chunk as the head of
    [send_chunk] leaves it. *)
Definition output_chunk (cfg : Config) (chunk : Chunk)
    : Outcome (Status + Chunk * Chunk) :=
  match _output_expr_ctxs cfg with
  | [] =>
      let chunk' := bind_slot_ids (slots cfg) 0 (reset_slot_id_to_index chunk) in
      Done (inr (chunk', chunk'))
  | exprs =>
      match evaluate_exprs exprs (slots cfg) (num_rows chunk) chunk
              (mkChunk [] ∅) with
      | Crash f => Crash f
      | Done (inl s) => Done (inl s)
      | Done (inr out) => Done (inr (out, chunk))
      end
  end.

(** Returns the status, the sink and the caller's chunk after the call. *)
Definition send_chunk (cfg : Config) (env : Env) (chunk : Chunk) (st : Sink)
    : Outcome (Status * Sink * Chunk) :=
  match output_chunk cfg chunk with
  | Crash f => Crash f
  | Done (inl s) => Done (s, st, chunk)
  | Done (inr (written, chunk')) =>
      match partition_and_write cfg env written st with
      | Crash f => Crash f
      | Done (s, st') => Done (s, st', chunk')
      end
  end.

(** ** Reading traces *)

(** The events a run appended to the trace of [st]. *)
Definition new_events (st st' : Sink) : list Event :=
  drop (length (trace st)) (trace st').

(** The requests of the remote calls, in order. *)
Fixpoint sends (es : list Event) : list TAddIcebergFilesRequest :=
  match es with
  | [] => []
  | EvAddIcebergFiles req _ :: es' => req :: sends es'
  | _ :: es' => sends es'
  end.

Fixpoint reopens (es : list Event) : nat :=
  match es with
  | [] => 0%nat
  | EvReopen _ :: es' => S (reopens es')
  | _ :: es' => reopens es'
  end.

Definition is_finish (e : Event) : bool :=
  match e with EvFinish _ _ => true | _ => false end.

(** The calls of the commit: connecting to the master, the remote call and
    reopening the connection. *)
Definition is_commit_call (e : Event) : bool :=
  match e with
  | EvConnect _ | EvAddIcebergFiles _ _ | EvReopen _ => true
  | _ => false
  end.

(** ** The sink's lifetime *)

(** The states the sink goes through between [open] and [close]. *)
Inductive reachable (cfg : Config) (env : Env) : Sink → Prop :=
  | reachable_initial : reachable cfg env initial_sink
  | reachable_send st chunk s st' chunk' :
      reachable cfg env st →
      send_chunk cfg env chunk st = Done (s, st', chunk') →
      reachable cfg env st'.

(** Every live writer's file is recorded. *)
Definition writers_recorded (st : Sink) : Prop :=
  ∀ key w, _partition_writer_map st !! key = Some w →
    fb_path w ∈ export_output_files st.

(** Every recorded file belongs to a live writer or to an erased one, and
    erased writers are finished. *)
Definition files_owned (st : Sink) : Prop :=
  (∀ path, path ∈ export_output_files st →
     (∃ key w, _partition_writer_map st !! key = Some w ∧ fb_path w = path)
     ∨ (∃ w, w ∈ erased_writers st ∧ fb_path w = path))
  ∧ (∀ w, w ∈ erased_writers st → fb_finished w = true).

(** No call of the commit is made before [close]. *)
Definition no_commit_call (st : Sink) : Prop :=
  ∀ e, e ∈ trace st → is_commit_call e = false.

(** ** The invariant of the sink between two calls *)

(** Every append recorded in the trace found its writer below the budget. *)
Definition appends_below_budget (cfg : Config) (st : Sink) : Prop :=
  ∀ path size chunk r,
    EvAddChunk path size chunk r ∈ trace st → size < bytes_per_file cfg.

Record sink_inv (cfg : Config) (st : Sink) : Prop := mkSinkInv {
  inv_recorded : writers_recorded st;
  inv_owned : files_owned st;
  inv_no_commit : no_commit_call st;
  inv_appends : 0 < bytes_per_file cfg < 2 ^ 63 → appends_below_budget cfg st;
}.

(** An event that is no call of the commit and, if it is an append, found
    its writer below the budget. *)
Definition quiet_event (cfg : Config) (e : Event) : Prop :=
  is_commit_call e = false
  ∧ ∀ path size chunk r, e = EvAddChunk path size chunk r →
      0 < bytes_per_file cfg < 2 ^ 63 → size < bytes_per_file cfg.

(** The error of [send_chunk] for a partition column that is not a day column. *)
Definition unsupported_transform (it : TIcebergTablePartitionColumn) : Status :=
  Error NotSupported ("unsupported transform " +:+ transform it).

(** ** Partition columns and output slots *)

(** The output slots named [name]. *)
Definition matching_slots (name : string) (ss : list SlotDescriptor)
    : list SlotDescriptor :=
  filter (λ s, col_name s = name) ss.

(** The chunk has a column for the slot. *)
Definition slot_bound (chunk : Chunk) (s : SlotDescriptor) : Prop :=
  ∃ col, get_column_by_slot_id chunk (slot_id s) = Done col.

Definition slot_column (chunk : Chunk) (s : SlotDescriptor) : Column :=
  match get_column_by_slot_id chunk (slot_id s) with
  | Done col => col
  | Crash _ => []
  end.

(** The columns of the slots matching the partition columns, in the order
    in which the two nested loops meet them. *)
Fixpoint bound_columns (ss : list SlotDescriptor) (chunk : Chunk)
    (pcs : list TIcebergTablePartitionColumn) : list Column :=
  match pcs with
  | [] => []
  | pc :: pcs' =>
      (slot_column chunk <$> matching_slots (columnName pc) ss)
      ++ bound_columns ss chunk pcs'
  end.

(** An array whose first entries are bound and whose [d] last are null. *)
Definition packed (cols : list Column) (d : nat) : list (option Column) :=
  (Some <$> cols) ++ replicate d None.

(** ** What was written, and what an allocator must respect *)

(** The columns of the chunks appended to the writer of [key]. *)
Definition chunks_written (st : Sink) (key : string)
    : option (list (list Column)) :=
  match _partition_writer_map st !! key with
  | Some w => Some (columns <$> fb_chunks w)
  | None => None
  end.

(** A new block never overlaps a live block. *)
Definition valid_malloc (env : Env) : Prop :=
  ∀ n blocks size b,
    0 < size → b ∈ blocks → 0 < blk_size b →
    malloc env n blocks size + size ≤ blk_base b
    ∨ blk_base b + blk_size b ≤ malloc env n blocks size.

(** The bases of the live blocks. *)
Definition bases (h : Heap) : list Z := blk_base <$> live h.

(** Live blocks have distinct bases and positive sizes. *)
Record heap_inv (h : Heap) : Prop := mkHeapInv {
  hi_bases : NoDup (bases h);
  hi_sizes : Forall (λ b, 0 < blk_size b) (live h);
}.

(** The vector of keys while all keys are too long to be stored inline: the
    keys own distinct live buffers, none of which is the storage of the
    vector, no key occurs twice and the vector holds no more than its
    capacity. *)
Record vector_inv (env : Env) (v : KeyVector) (h : Heap) : Prop := mkVectorInv {
  vi_heap : heap_inv h;
  vi_heaps : NoDup (str_heap <$> vec_elems v);
  vi_live : ∀ s, s ∈ vec_elems v → str_heap s ∈ bases h;
  vi_storage : (0 < vec_capacity v)%nat →
               vec_base v ∈ bases h ∧ vec_base v ∉ str_heap <$> vec_elems v;
  vi_values : NoDup (str_value <$> vec_elems v);
  vi_long : Forall (λ s, is_inline env (str_value s) = false) (vec_elems v);
  vi_capacity : (length (vec_elems v) ≤ vec_capacity v)%nat;
}.

(** ** prepare and open *)

(** What [prepare] and [open] read from the runtime state and from the
    expression library: the statuses of DataSink::prepare, Expr::prepare and
    Expr::open, the descriptor table, the primitive types of the expressions
    and of the slots, the compatibility test on primitive types and the
    query timeout in seconds. *)
Record RuntimeState := mkRuntimeState {
  data_sink_prepare : Status;
  expr_prepare : Status;
  expr_open : Status;
  get_tuple_descriptor : Z → option (list SlotDescriptor);
  expr_type : (Chunk → EvalResult) → Z;
  slot_type : SlotDescriptor → Z;
  is_type_compatible : Z → Z → bool;
  query_timeout : Z;
}.

(** The loop of [prepare] over the expressions: the type of the [i]-th
    expression against the type of the [i]-th slot. *)
Fixpoint check_types (rs : RuntimeState) (exprs : list (Chunk → EvalResult))
    (ss : list SlotDescriptor) : Outcome Status :=
  match exprs with
  | [] => Done OK
  | e :: exprs' =>
      match ss with
      | [] => Crash OutOfRange
      | slot :: ss' =>
          if is_type_compatible rs (expr_type rs e) (slot_type rs slot)
          then check_types rs exprs' ss'
          else Done (Error InternalError "expr's type is not same with slot's")
      end
  end.

(** Returns the status and [_output_tuple_desc] as the call leaves it
    ([None] is the null pointer). *)
Definition prepare (rs : RuntimeState) (_tuple_desc_id : Z)
    (exprs : list (Chunk → EvalResult))
    (_output_tuple_desc : option (list SlotDescriptor))
    : Outcome (Status * option (list SlotDescriptor)) :=
  if ok (data_sink_prepare rs) then
    if ok (expr_prepare rs) then
      match get_tuple_descriptor rs _tuple_desc_id with
      | None =>
          Done (Error InternalError "unknown destination tuple descriptor", None)
      | Some ss =>
          match exprs with
          | [] => Done (OK, Some ss)
          | _ :: _ =>
              if (length exprs =? length ss)%nat then
                match check_types rs exprs ss with
                | Done s => Done (s, Some ss)
                | Crash f => Crash f
                end
              else Done (Error InternalError
                           "number of exprs is not same with slots", Some ss)
          end
      end
    else Done (expr_prepare rs, _output_tuple_desc)
  else Done (data_sink_prepare rs, _output_tuple_desc).

(** Returns the status and [timeout_ms] as the call leaves it.  The product
    is computed on 32-bit signed integers; [None] stands for its overflow,
    whose behaviour is undefined. *)
Definition open (rs : RuntimeState) (timeout_ms : Z) : option (Status * Z) :=
  if ok (expr_open rs) then
    if 3600 <? query_timeout rs then Some (OK, 3600000)
    else if - 2 ^ 31 <=? query_timeout rs * 1000
         then Some (OK, query_timeout rs * 1000)
         else None
  else Some (expr_open rs, timeout_ms).

(** ** The stripe size of a new ORC builder *)

(** The loop [while (stripe_size > 64 * 1024 * 1024) stripe_size /= 2] on an
    unsigned 64-bit integer, run for at most [fuel] rounds. *)
Fixpoint halve_stripe_size (fuel : nat) (stripe_size : Z) : option Z :=
  match fuel with
  | O => None
  | S fuel' =>
      if 64 * 1024 * 1024 <? stripe_size
      then halve_stripe_size fuel' (stripe_size / 2)
      else Some stripe_size
  end.

(** [uint64_t stripe_size = bytes_per_file] and the loop; 64 rounds are
    enough for every 64-bit value. *)
Definition orc_stripe_size (cfg : Config) : option Z :=
  halve_stripe_size 64 (size_t_of_int64 (bytes_per_file cfg)).

(** ** The columns of the output chunk *)

(** The column [send_chunk] appends for the value an output expression
    evaluated to: a constant is repeated for every row, a full column is
    taken as it is, and a column that is only null is replaced by a new
    column that holds no row. *)
Definition output_column (rows : nat) (tmp : EvalResult) : Column :=
  match tmp with
  | EvalConst d => replicate rows d
  | EvalColumn col => col
  | EvalOnlyNull | EvalFails _ => []
  end.

(** The expression evaluates to a column. *)
Definition evaluates (chunk : Chunk) (e : Chunk → EvalResult) : Prop :=
  ∀ s, e chunk ≠ EvalFails s.

(** ** The actions of the sink between [open] and [close]

    What a call of [send_chunk] does to the sink, one external call at a
    time: reading the clock, a [finish] that fails, a [finish] that succeeds
    followed by the erasure of the writer, the creation of a file that
    fails, the creation of a file with its writer and its record, and an
    append. *)
Inductive sink_step (cfg : Config) (env : Env) : Sink → Sink → Prop :=
  | step_clock st now :
      sink_step cfg env st (log (EvUnixMillis now) st)
  | step_finish_failed st key w code msg :
      _partition_writer_map st !! key = Some w →
      budget_reached cfg w = true →
      sink_step cfg env st
        (log (EvFinish (fb_path w) (Error code msg)) (set_writer key w st))
  | step_roll st key w :
      _partition_writer_map st !! key = Some w →
      budget_reached cfg w = true →
      sink_step cfg env st
        (erase_writer key (mark_finished w)
           (log (EvFinish (fb_path w) OK)
              (set_writer key (mark_finished w) st)))
  | step_create_failed st key prefix now code msg :
      file_name_prefix cfg = Some prefix →
      file_format cfg = "orc" →
      broker_addresses cfg ≠ [] →
      sink_step cfg env st
        (log (EvNewWritableFile (file_path cfg env key prefix now)
                (Error code msg)) st)
  | step_create st key prefix now :
      _partition_writer_map st !! key = None →
      file_name_prefix cfg = Some prefix →
      file_format cfg = "orc" →
      broker_addresses cfg ≠ [] →
      sink_step cfg env st
        (add_export_output_file (file_path cfg env key prefix now)
           (set_writer key (new_builder (file_path cfg env key prefix now))
              (log (EvNewWritableFile (file_path cfg env key prefix now) OK)
                 st)))
  | step_append st key w chunk :
      _partition_writer_map st !! key = Some w →
      sink_step cfg env st (add_chunk env key w chunk st).2.

(** The sink cannot create any file: no file name prefix, a file format
    other than "orc" or no broker. *)
Definition misconfigured (cfg : Config) : Prop :=
  file_name_prefix cfg = None
  ∨ file_format cfg ≠ "orc"
  ∨ broker_addresses cfg = [].

(** The status of every request for a writer of a sink that cannot create
    a file. *)
Definition misconfiguration_error (cfg : Config) : Status :=
  match file_name_prefix cfg with
  | None => Error InternalError "file name prefix is not set"
  | Some _ =>
      if String.eqb (file_format cfg) "orc"
      then Error NotFound "no broker found "
      else Error NotSupported ("unsupported file format " +:+ file_format cfg)
  end.

(** ** Grouping by value, as a reference *)

(** The distinct keys of a batch in the order of their first occurrence. *)
Definition add_key (seen : list string) (key : string) : list string :=
  if decide (key ∈ seen) then seen else seen ++ [key].

Definition first_occurrences (keys : list string) : list string :=
  foldl add_key [] keys.

(** The rows of a column whose tag (one tag per row) is [t], in order. *)
Definition rows_where {T : Type} `{EqDecision T} (tags : list T) (t : T)
    (col : Column) : Column :=
  snd <$> filter (λ td, td.1 = t) (zip tags col).

(** All columns of the chunk have [n] rows. *)
Definition rectangular (n : nat) (chunk : Chunk) : Prop :=
  Forall (λ col, length col = n) (columns chunk).

(** The rows of the chunk whose key is [key], under the slots of the
    chunk. *)
Definition sub_batch (row_keys : list string) (key : string) (chunk : Chunk)
    : Chunk :=
  mkChunk (rows_where row_keys key <$> columns chunk) (slot_id_to_index chunk).

(** Writing by value: one request per key of [keys], in order, with the
    rows that have the key; the first request that fails ends the loop. *)
Fixpoint write_by_value (cfg : Config) (env : Env) (chunk : Chunk)
    (row_keys keys : list string) (status : Status) (st : Sink)
    : Outcome (Status * Sink) :=
  match keys with
  | [] => Done (status, st)
  | key :: keys' =>
      match write_to_partition cfg env (sub_batch row_keys key chunk) key st with
      | Crash f => Crash f
      | Done (status', st') =>
          if ok status'
          then write_by_value cfg env chunk row_keys keys' status' st'
          else Done (status', st')
      end
  end.

(** Sending by value: the rows are grouped by the value of their key and
    the groups are written in the order of first occurrence of their keys. *)
Definition send_by_value (cfg : Config) (env : Env) (written caller : Chunk)
    (row_keys : list string) (st : Sink) : Outcome (Status * Sink * Chunk) :=
  match write_by_value cfg env written row_keys (first_occurrences row_keys)
          OK st with
  | Crash f => Crash f
  | Done (s, st') => Done (s, st', caller)
  end.

(** ** The status of an external call *)

Definition event_status (e : Event) : Status :=
  match e with
  | EvUnixMillis _ => OK
  | EvNewWritableFile _ r | EvAddChunk _ _ _ r | EvFinish _ r
  | EvConnect r | EvReopen r => r
  | EvAddIcebergFiles _ (RpcReturns r) => r
  | EvAddIcebergFiles _ (RpcTransportException what)
  | EvAddIcebergFiles _ (RpcOtherException what) =>
      Error ThriftRpcError what
  end.

(** ** The format of a partition key *)

(** The part of the key that a day column contributes for a timestamp (in
    seconds since the epoch): the name of the partition field, "=", the day
    of the timestamp shifted by the offset of the default time zone, "/". *)
Definition key_piece (env : Env) (pc : TIcebergTablePartitionColumn)
    (unix_second : Z) : string :=
  partitionName pc +:+ "=" +:+ day_string (unix_second - utc_offset env)
  +:+ "/".

(** The concatenation of the pieces of the partition columns. *)
Fixpoint key_of_pieces (env : Env) (pcs : list TIcebergTablePartitionColumn)
    (timestamps : list Z) : string :=
  match pcs, timestamps with
  | pc :: pcs', ts :: timestamps' =>
      key_piece env pc ts +:+ key_of_pieces env pcs' timestamps'
  | _, _ => ""
  end.

(** ** Concrete collaborators and inputs for the examples *)

Definition overlaps (base size : Z) (b : Block) : bool :=
  (base <? blk_base b + blk_size b) && (blk_base b <? base + size).

(** A first-fit allocator: the lowest 16-byte aligned address, among 4096
    and the ends of the live blocks, where the request fits; past every live
    block when none of them fits. *)
Definition first_fit (n : nat) (blocks : list Block) (size : Z) : Z :=
  let candidates :=
    4096 :: map (λ b, (blk_base b + blk_size b + 15) / 16 * 16) blocks in
  let free :=
    filter (λ c, forallb (λ b, negb (overlaps c size b)) blocks = true)
           candidates in
  match free with
  | [] => foldr Z.max 4096 (map (λ b, blk_base b + blk_size b) blocks)
  | c :: rest => foldr Z.min c rest
  end.

(** The position of the least key: the order of a [std::map] over
    [std::string] keys, which visits its entries by increasing key. *)
Fixpoint least_key_first (keys : list string) : nat :=
  match keys with
  | [] => 0%nat
  | key :: rest =>
      if forallb (String.leb key) rest then 0%nat
      else S (least_key_first rest)
  end.

(** The position of the greatest key: the opposite order. *)
Fixpoint greatest_key_first (keys : list string) : nat :=
  match keys with
  | [] => 0%nat
  | key :: rest =>
      if forallb (λ key', String.leb key' key) rest then 0%nat
      else S (greatest_key_first rest)
  end.

(** An environment with the string layout of libstdc++ on a 64-bit
    platform (32-byte strings, 15 inline bytes at offset 16), whose
    collaborators succeed unless told otherwise and whose writer map is
    visited by increasing key. *)
Definition example_env (clock : nat → Z) (finish : nat → Status)
    (rpc : nat → RpcOutcome) (reopen : nat → Status) : Env :=
  mkEnv clock (λ _, OK) (λ _, OK) (λ _, 100%N) finish (λ _, OK) rpc reopen
        10001 (mkAddress "fe1" 9020) 0 first_fit 32 16 15 least_key_first.

Definition ticking_clock (n : nat) : Z := 1700000000000 + Z.of_nat n.

Definition calm_env : Env :=
  example_env ticking_clock (λ _, OK) (λ _, RpcReturns OK) (λ _, OK).

(** Scenario A of the specification: one day column "dt" over "ts" and three
    rows at 2024-01-01T00:10, 2024-01-01T23:50 and 2024-01-02T00:05 UTC. *)
Definition scenario_A_config : Config :=
  mkConfig 1 2 "hdfs://wh/t" "orc" (Some "q1") [mkAddress "broker1" 8000] 1000
    [mkPartitionColumn "ts" "day" "dt"] [mkSlot "ts" 5; mkSlot "v" 6] [] 1000.

Definition scenario_A_chunk : Chunk :=
  mkChunk [[DTimestamp 1704067800; DTimestamp 1704153000; DTimestamp 1704153900];
           [DOther 1; DOther 2; DOther 3]] ∅.

(** One row on 2024-01-01. *)
Definition one_row_chunk : Chunk :=
  mkChunk [[DTimestamp 1704067800]; [DOther 1]] ∅.

(** The sink after sending [chunk] (unchanged when the call crashes). *)
Definition sink_after (cfg : Config) (env : Env) (chunk : Chunk) (st : Sink)
    : Sink :=
  match send_chunk cfg env chunk st with
  | Done (_, st', _) => st'
  | Crash _ => st
  end.

(** The first remote call breaks and the connection cannot be reopened. *)
Definition broken_master_env : Env :=
  example_env ticking_clock (λ _, OK)
    (λ _, RpcTransportException "connection reset")
    (λ _, Error ThriftRpcError "reopen failed").

(** The remote call made as external call number 5 breaks (the first remote
    call of [close] after one append to one writer), the others go
    through. *)
Definition flaky_master_env : Env :=
  example_env ticking_clock (λ _, OK)
    (λ n, if (n =? 5)%nat then RpcTransportException "connection reset"
          else RpcReturns OK)
    (λ _, OK).

(** No writer can be finished. *)
Definition failing_finish_env : Env :=
  example_env ticking_clock (λ _, Error IOError "flush failed")
    (λ _, RpcReturns OK) (λ _, OK).

(** No writer can be finished, and the writer map is visited by decreasing
    key. *)
Definition backwards_failing_finish_env : Env :=
  mkEnv ticking_clock (λ _, OK) (λ _, OK) (λ _, 100%N)
        (λ _, Error IOError "flush failed") (λ _, OK)
        (λ _, RpcReturns OK) (λ _, OK)
        10001 (mkAddress "fe1" 9020) 0 first_fit 32 16 15 greatest_key_first.

(** The sink after Scenario A was sent to a fresh sink. *)
Definition scenario_A_sink : Sink :=
  Eval vm_compute in
    sink_after scenario_A_config calm_env scenario_A_chunk initial_sink.

(** The sink after one row was sent to a fresh sink. *)
Definition one_row_sink : Sink :=
  Eval vm_compute in
    sink_after scenario_A_config calm_env one_row_chunk initial_sink.

(** The sink after one row was sent and the writers were finished. *)
Definition one_row_finished_sink : Sink :=
  Eval vm_compute in
    (finish_all calm_env
       (iteration calm_env (_partition_writer_map one_row_sink))
       one_row_sink).2.

(** Scenario A with a byte budget of zero. *)
Definition zero_budget_config : Config :=
  mkConfig 1 2 "hdfs://wh/t" "orc" (Some "q1") [mkAddress "broker1" 8000] 0
    [mkPartitionColumn "ts" "day" "dt"] [mkSlot "ts" 5; mkSlot "v" 6] [] 1000.

(** A table without partition columns and a given byte budget. *)
Definition unpartitioned_config (budget : Z) : Config :=
  mkConfig 1 2 "hdfs://wh/t" "orc" (Some "q1") [mkAddress "broker1" 8000] budget
    [] [] [] 1000.

(** Every append adds [bytes] bytes to the file. *)
Definition heavy_env (bytes : N) : Env :=
  mkEnv ticking_clock (λ _, OK) (λ _, OK) (λ _, bytes) (λ _, OK) (λ _, OK)
        (λ _, RpcReturns OK) (λ _, OK)
        10001 (mkAddress "fe1" 9020) 0 first_fit 32 16 15 least_key_first.

Definition unpartitioned_chunk : Chunk := mkChunk [[DOther 1]] ∅.

(** Scenario A with a byte budget of 100. *)
Definition small_budget_config : Config :=
  mkConfig 1 2 "hdfs://wh/t" "orc" (Some "q1") [mkAddress "broker1" 8000] 100
    [mkPartitionColumn "ts" "day" "dt"] [mkSlot "ts" 5; mkSlot "v" 6] [] 1000.

(** The clock reads the same millisecond at every call. *)
Definition frozen_clock_env : Env :=
  example_env (λ _, 1700000000000) (λ _, OK) (λ _, RpcReturns OK) (λ _, OK).

(** Scenario A with a byte budget of -1. *)
Definition negative_budget_config : Config :=
  mkConfig 1 2 "hdfs://wh/t" "orc" (Some "q1") [mkAddress "broker1" 8000] (-1)
    [mkPartitionColumn "ts" "day" "dt"] [mkSlot "ts" 5; mkSlot "v" 6] [] 1000.

(** One row arriving with the slot ids 9 and 8 of an upstream tuple. *)
Definition upstream_chunk : Chunk :=
  mkChunk [[DTimestamp 1704067800]; [DOther 1]] {[ 9 := 0%nat; 8 := 1%nat ]}.

(** A day column followed by a month column. *)
Definition month_config : Config :=
  mkConfig 1 2 "hdfs://wh/t" "orc" (Some "q1") [mkAddress "broker1" 8000] 1000
    [mkPartitionColumn "ts" "day" "dt"; mkPartitionColumn "ts2" "month" "mo"]
    [mkSlot "ts" 5; mkSlot "ts2" 6] [] 1000.

(** The same with two output expressions, the first of which is only
    null. *)
Definition only_null_month_config : Config :=
  mkConfig 1 2 "hdfs://wh/t" "orc" (Some "q1") [mkAddress "broker1" 8000] 1000
    [mkPartitionColumn "ts" "day" "dt"; mkPartitionColumn "ts2" "month" "mo"]
    [mkSlot "ts" 5; mkSlot "ts2" 6]
    [λ _, EvalOnlyNull;
     λ chunk, EvalColumn (default [] (head (columns chunk)))]
    1000.

(** Partition column "ts" with no output slot of that name. *)
Definition unmatched_config : Config :=
  mkConfig 1 2 "hdfs://wh/t" "orc" (Some "q1") [mkAddress "broker1" 8000] 1000
    [mkPartitionColumn "ts" "day" "dt"] [mkSlot "v" 6] [] 1000.

(** A chunk of one column without rows. *)
Definition empty_chunk : Chunk := mkChunk [[]] ∅.

(** The partition columns of Scenario A once resolved. *)
Definition scenario_A_columns : list (option Column) :=
  [Some [DTimestamp 1704067800; DTimestamp 1704153000; DTimestamp 1704153900]].

(** Scenario A with the partition field named "event_date": the keys are 22
    bytes long. *)
Definition long_name_config : Config :=
  mkConfig 1 2 "hdfs://wh/t" "orc" (Some "q1") [mkAddress "broker1" 8000] 1000
    [mkPartitionColumn "ts" "day" "event_date"] [mkSlot "ts" 5; mkSlot "v" 6]
    [] 1000.

(** ** Further collaborators and inputs for the examples *)

(** A runtime state that knows the tuple 3 with the slots "ts" and "v", in
    which every expression and every slot has the primitive type 1 and two
    types are compatible when they are equal; the query may run for 300
    seconds. *)
Definition example_runtime_state : RuntimeState :=
  mkRuntimeState OK OK OK
    (λ id, if id =? 3 then Some [mkSlot "ts" 5; mkSlot "v" 6] else None)
    (λ _, 1) (λ _, 1) Z.eqb 300.

(** The first column of the chunk, as it is. *)
Definition first_column (chunk : Chunk) : EvalResult :=
  match columns chunk with
  | col :: _ => EvalColumn col
  | [] => EvalOnlyNull
  end.

(** An expression that cannot be evaluated. *)
Definition failing_expr (chunk : Chunk) : EvalResult :=
  EvalFails (Error InternalError "division by zero").

(** Scenario A with two output expressions: the first column of the chunk
    and the constant 7. *)
Definition projecting_config : Config :=
  mkConfig 1 2 "hdfs://wh/t" "orc" (Some "q1") [mkAddress "broker1" 8000] 1000
    [mkPartitionColumn "ts" "day" "dt"] [mkSlot "ts" 5; mkSlot "v" 6]
    [first_column; λ _, EvalConst (DOther 7)] 1000.

(** The same with a second expression that fails. *)
Definition failing_config : Config :=
  mkConfig 1 2 "hdfs://wh/t" "orc" (Some "q1") [mkAddress "broker1" 8000] 1000
    [mkPartitionColumn "ts" "day" "dt"] [mkSlot "ts" 5; mkSlot "v" 6]
    [first_column; failing_expr] 1000.

(** Scenario A with the file format "csv". *)
Definition csv_config : Config :=
  mkConfig 1 2 "hdfs://wh/t" "csv" (Some "q1") [mkAddress "broker1" 8000] 1000
    [mkPartitionColumn "ts" "day" "dt"] [mkSlot "ts" 5; mkSlot "v" 6] [] 1000.

(** Two rows on 2024-01-01. *)
Definition same_day_chunk : Chunk :=
  mkChunk [[DTimestamp 1704067800; DTimestamp 1704153000];
           [DOther 1; DOther 2]] ∅.

(** Two columns without rows. *)
Definition no_rows_chunk : Chunk := mkChunk [[]; []] ∅.

(** The master rejects the remote call with an exception that is not a
    transport exception. *)
Definition rejecting_master_env : Env :=
  example_env ticking_clock (λ _, OK)
    (λ _, RpcOtherException "table not found") (λ _, OK).

(** The master cannot be connected. *)
Definition unreachable_master_env : Env :=
  mkEnv ticking_clock (λ _, OK) (λ _, OK) (λ _, 100%N) (λ _, OK)
        (λ _, Error ThriftRpcError "connection refused")
        (λ _, RpcReturns OK) (λ _, OK)
        10001 (mkAddress "fe1" 9020) 0 first_fit 32 16 15 least_key_first.

(** Two output slots named "ts". *)
Definition twice_named_config : Config :=
  mkConfig 1 2 "hdfs://wh/t" "orc" (Some "q1") [mkAddress "broker1" 8000] 1000
    [mkPartitionColumn "ts" "day" "dt"] [mkSlot "ts" 5; mkSlot "ts" 6] [] 1000.

(** ** Basic facts *)

#[local] Set Warnings "-clear-no-such-hyp".

Lemma tick_log e st : tick (log e st) = S (tick st).
Proof. unfold tick, log; simpl. rewrite length_app; simpl; lia. Qed.

Lemma tick_set_writer key w st : tick (set_writer key w st) = tick st.
Proof. reflexivity. Qed.

Lemma new_events_app st st' es :
  trace st' = trace st ++ es → new_events st st' = es.
Proof. intros H. unfold new_events. rewrite H. by rewrite drop_app_length. Qed.

Lemma created_files_app es1 es2 :
  created_files (es1 ++ es2) = created_files es1 ++ created_files es2.
Proof.
  induction es1 as [|e es1 IH]; [done|].
  destruct e as [| path [|] | | | | |]; simpl; by rewrite ?IH.
Qed.

Lemma sends_app es1 es2 : sends (es1 ++ es2) = sends es1 ++ sends es2.
Proof.
  induction es1 as [|e es1 IH]; [done|].
  destruct e; simpl; by rewrite ?IH.
Qed.



(** ** The iteration over the writer map *)

Lemma visit_Permutation next : ∀ n entries,
  length entries = n → visit next n entries ≡ₚ entries.
Proof.
  induction n as [|n IH]; intros entries Hlen; simpl.
  - by destruct entries.
  - destruct (entries !! _) as [kw|] eqn:Hkw.
    + etrans; [|symmetry; apply (delete_Permutation _ _ _ Hkw)].
      constructor. apply IH.
      rewrite length_delete by by eexists. lia.
    + apply lookup_ge_None in Hkw.
      assert (length entries ≠ 0)%nat as Hne by lia.
      pose proof (Nat.mod_upper_bound (next entries.*1) _ Hne). lia.
Qed.

(** The iteration visits every entry of the map exactly once. *)
Lemma iteration_Permutation env (m : gmap string FileBuilder) :
  iteration env m ≡ₚ map_to_list m.
Proof. by apply visit_Permutation. Qed.

Lemma NoDup_fst_iteration env (m : gmap string FileBuilder) :
  NoDup (iteration env m).*1.
Proof. rewrite iteration_Permutation. apply NoDup_fst_map_to_list. Qed.

Lemma elem_of_iteration env (m : gmap string FileBuilder) key w :
  (key, w) ∈ iteration env m ↔ m !! key = Some w.
Proof. rewrite iteration_Permutation. apply elem_of_map_to_list. Qed.

Lemma iteration_empty env : iteration env (∅ : gmap string FileBuilder) = [].
Proof.
  apply Permutation_nil_r.
  by rewrite iteration_Permutation, map_to_list_empty.
Qed.

Lemma NoDup_fst_agree {A} (l : list (string * A)) key x y :
  NoDup l.*1 → (key, x) ∈ l → (key, y) ∈ l → x = y.
Proof.
  intros Hnd Hx Hy.
  apply list_elem_of_lookup in Hx as [i Hi], Hy as [j Hj].
  assert (i = j) as ->.
  { apply (NoDup_lookup _ _ _ key Hnd); rewrite list_lookup_fmap.
    - by rewrite Hi.
    - by rewrite Hj. }
  congruence.
Qed.

Lemma visit_position_of (order : list (string * FileBuilder)) :
  ∀ suf pre entries,
    order = pre ++ suf → entries ≡ₚ suf → NoDup entries.*1 →
    visit (position_of order.*1) (length entries) entries = suf.
Proof.
  induction suf as [|[key w] suf IH]; intros pre entries Horder Hperm Hnd.
  - apply Permutation_nil_r in Hperm. by subst.
  - assert (length entries = S (length suf)) as Hlen by by rewrite Hperm.
    rewrite Hlen. simpl.
    assert ((key, w) ∈ entries) as Hin by (rewrite Hperm; left).
    assert (position_of order.*1 entries.*1 < length entries
            ∧ entries !! position_of order.*1 entries.*1 = Some (key, w))%nat
      as [Hlt Hi].
    { unfold position_of. rewrite !length_fmap, Hlen, Horder, length_app.
      simpl. replace (length pre + S (length suf) - S (length suf))%nat
        with (length pre + 0)%nat by lia.
      rewrite fmap_app, lookup_app_r, length_fmap by (rewrite length_fmap; lia).
      replace (length pre + 0 - length pre)%nat with 0%nat by lia. simpl.
      destruct (list_find (λ k, k = key) entries.*1) as [[i k]|] eqn:Hfind.
      - apply list_find_Some in Hfind as (Hk & -> & _).
        rewrite list_lookup_fmap in Hk.
        destruct (entries !! i) as [[k' w']|] eqn:Hkw; simplify_eq/=.
        pose proof (lookup_lt_Some _ _ _ Hkw) as Hlt.
        split; [lia|]. f_equal. f_equal.
        apply list_elem_of_lookup_2 in Hkw.
        by eapply (NoDup_fst_agree entries key w' w).
      - exfalso. apply list_find_None in Hfind.
        rewrite Forall_forall in Hfind. apply (Hfind key); [|done].
        apply list_elem_of_fmap. by exists (key, w). }
    rewrite Nat.mod_small by done. rewrite Hi. f_equal.
    pose proof (delete_Permutation _ _ _ Hi) as Hdel.
    assert (length (delete (position_of order.*1 entries.*1) entries)
            = length suf) as Hlen'.
    { rewrite length_delete by by eexists. lia. }
    rewrite <- Hlen'. apply (IH (pre ++ [(key, w)])).
    + by rewrite <- app_assoc.
    + apply (Permutation_cons_inv (a := (key, w))). by rewrite <- Hdel.
    + rewrite Hdel in Hnd. simpl in Hnd. by apply NoDup_cons in Hnd as [_ ?].
Qed.

(** Every order of the entries of a map is its iteration in some
    environment. *)
Lemma every_order_is_an_iteration env (m : gmap string FileBuilder) order :
  order ≡ₚ map_to_list m →
  iteration (with_visit_next env (position_of order.*1)) m = order.
Proof.
  intros Hperm. unfold iteration. simpl.
  apply (visit_position_of order order []); [done|done|].
  apply NoDup_fst_map_to_list.
Qed.

(** ** finish_all *)

Definition finish_events (ws : list (string * FileBuilder)) : list Event :=
  map (λ kw, EvFinish (fb_path kw.2) OK) ws.

Definition finish_map (ws : list (string * FileBuilder))
    (m : gmap string FileBuilder) : gmap string FileBuilder :=
  foldl (λ m kw, <[kw.1 := mark_finished kw.2]> m) m ws.

Lemma finish_all_ok env ws : ∀ st,
  (∀ i, (i < length ws)%nat → finish_status env (tick st + i) = OK) →
  finish_all env ws st =
    (OK, mkSink (finish_map ws (_partition_writer_map st))
           (export_output_files st) (erased_writers st)
           (trace st ++ finish_events ws)).
Proof.
  induction ws as [|[key w] ws IH]; intros st Hok.
  - simpl. rewrite app_nil_r. by destruct st.
  - simpl. unfold finish_writer.
    assert (finish_status env (tick st) = OK) as ->.
    { rewrite <- (Nat.add_0_r (tick st)). apply Hok. simpl; lia. }
    simpl. rewrite IH.
    + simpl. by rewrite <- app_assoc.
    + intros i Hi. rewrite tick_log, tick_set_writer.
      replace (S (tick st) + i)%nat with (tick st + S i)%nat by lia.
      apply Hok. simpl; lia.
Qed.

Lemma finish_all_app env l1 : ∀ l2 st,
  finish_all env (l1 ++ l2) st =
    let '(r, st1) := finish_all env l1 st in
    if ok r then finish_all env l2 st1 else (r, st1).
Proof.
  induction l1 as [|[key w] l1 IH]; intros l2 st; simpl.
  - done.
  - unfold finish_writer. destruct (finish_status env (tick st)); simpl; [|done].
    apply IH.
Qed.

(** Whatever happens, [finish_all] only finishes writers: it keeps the
    recorded files and appends finish events only. *)
Lemma finish_all_frame env ws : ∀ st r st',
  finish_all env ws st = (r, st') →
  export_output_files st' = export_output_files st
  ∧ erased_writers st' = erased_writers st
  ∧ ∃ es, trace st' = trace st ++ es ∧ Forall (λ e, is_finish e = true) es.
Proof.
  induction ws as [|[key w] ws IH]; intros st r st' H; simpl in H.
  - inversion H; subst. repeat split; try done. exists []. by rewrite app_nil_r.
  - unfold finish_writer in H.
    destruct (ok (finish_status env (tick st))).
    + apply IH in H as (Hf & He & es & Ht & Hes). simpl in *.
      repeat split; try done.
      exists (EvFinish (fb_path w) (finish_status env (tick st)) :: es).
      split; [by rewrite Ht, <- app_assoc | by constructor].
    + inversion H; subst; simpl. repeat split; try done.
      eexists [_]; split; [done|]. by repeat constructor.
Qed.

Lemma finish_map_other ws : ∀ (m : gmap string FileBuilder) key,
  key ∉ ws.*1 → finish_map ws m !! key = m !! key.
Proof.
  induction ws as [|[k w] ws IH]; intros m key Hk; simpl; [done|].
  rewrite IH by set_solver. apply lookup_insert_ne. set_solver.
Qed.

Lemma finish_map_finished ws : ∀ (m : gmap string FileBuilder) key w,
  NoDup ws.*1 → (key, w) ∈ ws →
  finish_map ws m !! key = Some (mark_finished w).
Proof.
  induction ws as [|[k w0] ws IH]; intros m key w Hnd Hin; [by inversion Hin|].
  simpl in *. apply NoDup_cons in Hnd as [Hk Hnd].
  apply elem_of_cons in Hin as [[= -> ->]|Hin].
  - rewrite finish_map_other by done. apply lookup_insert_eq.
  - by apply IH.
Qed.

Lemma finish_all_first_failure env l1 key w l2 st code msg :
  (∀ i, (i < length l1)%nat → finish_status env (tick st + i) = OK) →
  finish_status env (tick st + length l1) = Error code msg →
  finish_all env (l1 ++ (key, w) :: l2) st =
    (Error code msg,
     log (EvFinish (fb_path w) (Error code msg))
       (set_writer key w
          (mkSink (finish_map l1 (_partition_writer_map st))
             (export_output_files st) (erased_writers st)
             (trace st ++ finish_events l1)))).
Proof.
  intros Hok Hfail. rewrite finish_all_app, (finish_all_ok _ _ _ Hok).
  simpl. unfold finish_writer.
  set (st1 := mkSink _ _ _ _).
  assert (tick st1 = (tick st + length l1)%nat) as ->.
  { unfold tick, st1, finish_events; simpl. by rewrite length_app, length_map. }
  by rewrite Hfail.
Qed.

(** ** The commit call *)


(** [send_request] only talks to the master and leaves the writers and the
    recorded files alone. *)
Lemma send_request_frame env request st r st' :
  send_request env request st = (r, st') →
  _partition_writer_map st' = _partition_writer_map st
  ∧ export_output_files st' = export_output_files st
  ∧ erased_writers st' = erased_writers st
  ∧ ∃ es, trace st' = trace st ++ es
          ∧ Forall (λ e, is_commit_call e = true) es
          ∧ (∀ req, req ∈ sends es → req = request).
Proof.
  unfold send_request, rpc_failed. intros H.
  repeat (case_match; simplify_eq/=); repeat split; try done;
    rewrite <- ?app_assoc; simpl;
    (eexists; split; [reflexivity|]; split;
     [by repeat constructor | simpl; set_solver]).
Qed.

Lemma send_request_returns env request st s :
  addIcebergFiles env (tick st) = RpcReturns s →
  send_request env request st =
    (s, log (EvAddIcebergFiles request (RpcReturns s)) st).
Proof. unfold send_request. by intros ->. Qed.

Lemma send_request_reopen_fails env request st what code msg :
  addIcebergFiles env (tick st) = RpcTransportException what →
  reopen_status env (S (tick st)) = Error code msg →
  send_request env request st =
    (Error code msg,
     log (EvReopen (Error code msg))
       (log (EvAddIcebergFiles request (RpcTransportException what)) st)).
Proof.
  unfold send_request. intros -> H. rewrite tick_log. by rewrite H.
Qed.

Lemma send_request_retries env request st what :
  addIcebergFiles env (tick st) = RpcTransportException what →
  reopen_status env (S (tick st)) = OK →
  ∃ r st',
    send_request env request st = (r, st')
    ∧ sends (new_events st st') = [request; request]
    ∧ ∀ s, addIcebergFiles env (S (S (tick st))) = RpcReturns s →
        r = s ∧ reopens (new_events st st') = 1%nat.
Proof.
  unfold send_request. intros -> H. rewrite tick_log, H; simpl.
  rewrite !tick_log.
  destruct (addIcebergFiles env (S (S (tick st)))) eqn:E; unfold rpc_failed;
    eexists _, _; (split; [reflexivity|]);
    (split;
       [erewrite new_events_app;
          [|simpl; rewrite <- ?app_assoc; simpl; reflexivity]; done|]);
    intros s' [= <-].
  split; [done|]. erewrite new_events_app;
    [|simpl; rewrite <- ?app_assoc; simpl; reflexivity]. done.
Qed.

(** ** close *)

(** The shape of [close] once the writers are finished. *)
Lemma close_after_finish cfg env exec_status st st1 :
  finish_all env (iteration env (_partition_writer_map st)) st = (OK, st1) →
  close cfg env exec_status st =
    match export_output_files st1 with
    | [] => (OK, st1)
    | _ :: _ =>
        if ok (connect_status env (tick st1))
        then send_request env (make_request cfg st1)
               (log (EvConnect (connect_status env (tick st1))) st1)
        else (connect_status env (tick st1),
              log (EvConnect (connect_status env (tick st1))) st1)
    end.
Proof. unfold close. by intros ->. Qed.

Lemma close_finish_fails cfg env exec_status st code msg st1 :
  finish_all env (iteration env (_partition_writer_map st)) st
    = (Error code msg, st1) →
  close cfg env exec_status st = (Error code msg, st1).
Proof. unfold close. by intros ->. Qed.

(** ** Claims on close *)

(** C7. During [close] the writers are finished before any call of the
    commit is made, and the first writer whose [finish] fails ends [close],
    whatever the order in which the iteration visits the writers: the status
    of that [finish] is returned, the writers after it in the iteration are
    left as they were and no call of the commit is made.  The order of the
    iteration is the environment's, and every order of the writers is the
    order of some environment. *)
Theorem close_finish_failure_bypasses_commit cfg env exec_status st :
  (∃ fin rest,
     new_events st (close cfg env exec_status st).2 = fin ++ rest
     ∧ Forall (λ e, is_finish e = true) fin
     ∧ Forall (λ e, is_commit_call e = true) rest)
  ∧ (∀ l1 key w l2 code msg,
       iteration env (_partition_writer_map st) = l1 ++ (key, w) :: l2 →
       (∀ i, (i < length l1)%nat → finish_status env (tick st + i) = OK) →
       finish_status env (tick st + length l1) = Error code msg →
       ∃ st',
         close cfg env exec_status st = (Error code msg, st')
         ∧ new_events st st'
           = finish_events l1 ++ [EvFinish (fb_path w) (Error code msg)]
         ∧ (∀ key' w', (key', w') ∈ (key, w) :: l2 →
              _partition_writer_map st' !! key' = Some w'))
  ∧ (∀ order,
       order ≡ₚ map_to_list (_partition_writer_map st) →
       ∃ next,
         iteration (with_visit_next env next) (_partition_writer_map st)
         = order).
Proof.
  split; [|split].
  3:{ intros order Hperm. exists (position_of order.*1).
      by apply every_order_is_an_iteration. }
  - destruct (finish_all env (iteration env (_partition_writer_map st)) st)
      as [r st1] eqn:Hfin.
    destruct (finish_all_frame _ _ _ _ _ Hfin) as (_ & _ & fin & Ht & Hfin').
    destruct r as [|code msg].
    + rewrite (close_after_finish _ _ _ _ _ Hfin).
      destruct (export_output_files st1).
      { exists fin, []. rewrite app_nil_r. split; [by apply new_events_app|done]. }
      destruct (ok (connect_status env (tick st1))).
      * destruct (send_request env (make_request cfg st1)
                    (log (EvConnect (connect_status env (tick st1))) st1))
          as [r st2] eqn:Hsend.
        destruct (send_request_frame _ _ _ _ _ Hsend)
          as (_ & _ & _ & es & Ht2 & Hes & _).
        exists fin, (EvConnect (connect_status env (tick st1)) :: es).
        split; [|split; [done|constructor; [reflexivity|exact Hes]]].
        apply new_events_app. simpl in *. by rewrite Ht2, Ht, <- !app_assoc.
      * exists fin, [EvConnect (connect_status env (tick st1))].
        split; [|split; [done|by repeat constructor]].
        apply new_events_app. simpl. by rewrite Ht, <- app_assoc.
    + rewrite (close_finish_fails _ _ _ _ _ _ _ Hfin).
      exists fin, []. rewrite app_nil_r. split; [by apply new_events_app|done].
  - intros l1 key w l2 code msg Hl Hok Hfail.
    pose proof (NoDup_fst_iteration env (_partition_writer_map st)) as Hnd.
    rewrite Hl in Hnd. rewrite fmap_app, fmap_cons in Hnd.
    apply NoDup_app in Hnd as (_ & Hdisj & Hnd2).
    eexists. split; [|split].
    + apply close_finish_fails. rewrite Hl.
      by apply finish_all_first_failure.
    + apply new_events_app. simpl. by rewrite <- app_assoc.
    + intros key' w' Hin. simpl.
      assert (key' ∉ l1.*1) as Hnot.
      { intros Hk. apply (Hdisj key' Hk).
        change (key' ∈ ((key, w) :: l2).*1). apply list_elem_of_fmap.
        by exists (key', w'). }
      assert (_partition_writer_map st !! key' = Some w') as Hst.
      { apply (elem_of_iteration env). rewrite Hl. set_solver. }
      apply elem_of_cons in Hin as [[= -> ->]|Hin].
      * apply lookup_insert_eq.
      * rewrite lookup_insert_ne.
        { by rewrite finish_map_other. }
        apply NoDup_cons in Hnd2 as [Hk _]. intros ->. apply Hk.
        apply list_elem_of_fmap. by exists (key', w').
Qed.

Lemma close_finish_failure_bypasses_commit_witness :
  (∃ st',
     close scenario_A_config failing_finish_env OK scenario_A_sink
       = (Error IOError "flush failed", st')
     ∧ new_events scenario_A_sink st'
       = [EvFinish "hdfs://wh/t/data/dt=2024-01-01/q1_10001_1700000000000.orc"
            (Error IOError "flush failed")]
     ∧ ∃ w, _partition_writer_map st' !! "dt=2024-01-02/" = Some w
            ∧ fb_finished w = false)
  ∧ (∃ st',
       close scenario_A_config backwards_failing_finish_env OK scenario_A_sink
         = (Error IOError "flush failed", st')
       ∧ new_events scenario_A_sink st'
         = [EvFinish "hdfs://wh/t/data/dt=2024-01-02/q1_10001_1700000000003.orc"
              (Error IOError "flush failed")]
       ∧ ∃ w, _partition_writer_map st' !! "dt=2024-01-01/" = Some w
              ∧ fb_finished w = false).
Proof.
  split.
  - pose proof (proj1 (proj2 (close_finish_failure_bypasses_commit
                                scenario_A_config failing_finish_env OK
                                scenario_A_sink))) as H.
    remember (iteration failing_finish_env
                (_partition_writer_map scenario_A_sink)) as ws eqn:Hws.
    vm_compute in Hws. subst ws.
    edestruct (H [] _ _ _ IOError "flush failed" eq_refl)
      as (st' & H1 & H2 & H3).
    + intros i Hi. simpl in Hi. lia.
    + reflexivity.
    + exists st'. split; [exact H1|]. split; [exact H2|].
      eexists. split; [apply H3; right; left|]; reflexivity.
  - pose proof (proj1 (proj2 (close_finish_failure_bypasses_commit
                                scenario_A_config backwards_failing_finish_env
                                OK scenario_A_sink))) as H.
    remember (iteration backwards_failing_finish_env
                (_partition_writer_map scenario_A_sink)) as ws eqn:Hws.
    vm_compute in Hws. subst ws.
    edestruct (H [] _ _ _ IOError "flush failed" eq_refl)
      as (st' & H1 & H2 & H3).
    + intros i Hi. simpl in Hi. lia.
    + reflexivity.
    + exists st'. split; [exact H1|]. split; [exact H2|].
      eexists. split; [apply H3; right; left|]; reflexivity.
Defined.

(** C2 (as amended). Once the writers are finished, files are recorded and
    the master is connected: when the first remote call fails with a
    transport exception the connection is reopened; if the reopen succeeds
    the same request is sent exactly once more, and a successful second call
    gives the response's status (OK: overall success) with two sends and one
    reopen; if the reopen fails its status is returned and nothing more is
    sent.  When the first call returns, the status of the response is
    returned after one send and no reopen. *)
Theorem close_commit_retry cfg env exec_status st st1 :
  finish_all env (iteration env (_partition_writer_map st)) st = (OK, st1) →
  export_output_files st1 ≠ [] →
  connect_status env (tick st1) = OK →
  let request := make_request cfg st1 in
  let t := S (tick st1) in
  let r := (close cfg env exec_status st).1 in
  let es := new_events st1 (close cfg env exec_status st).2 in
  (∀ what, addIcebergFiles env t = RpcTransportException what →
     (reopen_status env (S t) = OK →
        sends es = [request; request]
        ∧ ∀ s, addIcebergFiles env (S (S t)) = RpcReturns s →
            r = s ∧ reopens es = 1%nat)
     ∧ (∀ code msg, reopen_status env (S t) = Error code msg →
          r = Error code msg ∧ sends es = [request] ∧ reopens es = 1%nat))
  ∧ (∀ s, addIcebergFiles env t = RpcReturns s →
       r = s ∧ sends es = [request] ∧ reopens es = 0%nat).
Proof.
  intros Hfin Hfiles Hconn request t r es. subst r es.
  rewrite (close_after_finish _ _ _ _ _ Hfin).
  destruct (export_output_files st1) as [|f fs] eqn:Hf; [done|]. clear Hfiles.
  rewrite Hconn. simpl ok. cbv iota.
  set (st2 := log (EvConnect OK) st1).
  assert (tick st2 = t) as Ht by apply tick_log.
  assert (∀ st' es', trace st' = trace st2 ++ es' →
            new_events st1 st' = EvConnect OK :: es') as Hnew.
  { intros st' es' H. apply new_events_app. rewrite H. simpl.
    by rewrite <- app_assoc. }
  split.
  - intros what Hfirst. split.
    + intros Hre. rewrite <- Ht in Hfirst, Hre.
      destruct (send_request_retries env request st2 what Hfirst Hre)
        as (r & st' & Hsend & Hs & Hr).
      fold request. rewrite Hsend. simpl.
      destruct (send_request_frame _ _ _ _ _ Hsend) as (_ & _ & _ & es' & Ht' & _).
      rewrite (new_events_app _ _ _ Ht') in Hs, Hr.
      rewrite (Hnew _ _ Ht'). simpl. split; [done|].
      intros s Hs2. rewrite <- Ht in Hs2. by apply Hr.
    + intros code msg Hre. rewrite <- Ht in Hfirst, Hre. fold request.
      rewrite (send_request_reopen_fails _ _ _ _ _ _ Hfirst Hre). simpl.
      erewrite Hnew; [|simpl; rewrite <- app_assoc; reflexivity]. done.
  - intros s Hfirst. rewrite <- Ht in Hfirst. fold request.
    rewrite (send_request_returns _ _ _ _ Hfirst). simpl.
    erewrite Hnew; [|reflexivity]. done.
Qed.

Lemma close_commit_retry_witness :
  (close scenario_A_config flaky_master_env OK one_row_sink).1 = OK
  ∧ sends (new_events one_row_finished_sink
             (close scenario_A_config flaky_master_env OK one_row_sink).2)
    = [make_request scenario_A_config one_row_finished_sink;
       make_request scenario_A_config one_row_finished_sink]
  ∧ reopens (new_events one_row_finished_sink
               (close scenario_A_config flaky_master_env OK one_row_sink).2)
    = 1%nat.
Proof.
  assert (finish_all flaky_master_env
            (iteration flaky_master_env (_partition_writer_map one_row_sink))
            one_row_sink
          = (OK, one_row_finished_sink)) as Hfin by (vm_compute; reflexivity).
  assert (export_output_files one_row_finished_sink ≠ []) as Hfiles
    by (vm_compute; discriminate).
  assert (connect_status flaky_master_env (tick one_row_finished_sink) = OK)
    as Hconn by reflexivity.
  destruct (close_commit_retry scenario_A_config flaky_master_env OK
              one_row_sink one_row_finished_sink Hfin Hfiles Hconn)
    as [Hretry _].
  destruct (Hretry "connection reset" eq_refl) as [Hsecond _].
  destruct (Hsecond eq_refl) as [Hsends Hok].
  destruct (Hok OK eq_refl) as [Hr Hre].
  split; [exact Hr|]. split; [exact Hsends | exact Hre].
Defined.

(** The first remote call of [close] fails with a transport exception and
    the connection cannot be reopened: the status of the reopen is returned
    and the request was sent once only. *)
Lemma close_does_not_retry_when_reopen_fails :
  let request := make_request scenario_A_config one_row_finished_sink in
  let res := close scenario_A_config broken_master_env OK one_row_sink in
  res.1 = Error ThriftRpcError "reopen failed"
  ∧ new_events one_row_finished_sink res.2
    = [EvConnect OK;
       EvAddIcebergFiles request (RpcTransportException "connection reset");
       EvReopen (Error ThriftRpcError "reopen failed")]
  ∧ sends (new_events one_row_finished_sink res.2) = [request].
Proof. vm_compute. repeat split. Qed.

(** ** The writers between two calls *)

(** For a budget that fits a signed 64-bit integer and is not negative, the
    test of the code is the plain comparison of the size with the budget. *)
Lemma budget_reached_spec cfg w :
  0 ≤ bytes_per_file cfg < 2 ^ 63 →
  budget_reached cfg w = true ↔ bytes_per_file cfg ≤ fb_size w.
Proof.
  intros HB. unfold budget_reached, size_t_of_int64.
  rewrite Z.mod_small by lia. apply Z.leb_le.
Qed.

Lemma budget_not_reached cfg w :
  0 < bytes_per_file cfg < 2 ^ 63 →
  budget_reached cfg w = false → fb_size w < bytes_per_file cfg.
Proof.
  unfold budget_reached, size_t_of_int64. intros HB H.
  apply Z.leb_gt in H. rewrite Z.mod_small in H; lia.
Qed.

Lemma initial_sink_inv cfg : sink_inv cfg initial_sink.
Proof.
  split.
  - intros key w H. simpl in H. by rewrite lookup_empty in H.
  - split; intros ? H; by apply elem_of_nil in H.
  - intros e H. by apply elem_of_nil in H.
  - intros _ ???? H. by apply elem_of_nil in H.
Qed.

(** The file system creates a file only if it does not hold it. *)
Lemma fs_broker_new_writable_file_ok env path st :
  fs_broker_new_writable_file env path st = OK →
  new_writable_file env (tick st) = OK ∧ path ∉ created_files (trace st).
Proof. unfold fs_broker_new_writable_file. by case_bool_decide. Qed.

(** What [open_partition_writer] does when [partition_key] has no writer:
    either it fails and leaves writers and files alone, or it installs a new
    builder and records its path. *)
Lemma open_partition_writer_spec cfg env partition_key st r st' :
  open_partition_writer cfg env partition_key st = (r, st') →
  _partition_writer_map st !! partition_key = None →
  erased_writers st' = erased_writers st
  ∧ (∃ es, trace st' = trace st ++ es
           ∧ Forall (λ e, match e with
                          | EvUnixMillis _ | EvNewWritableFile _ _ => True
                          | _ => False
                          end) es)
  ∧ ((r = OK ∧ ∃ path,
        _partition_writer_map st'
          = <[partition_key := new_builder path]> (_partition_writer_map st)
        ∧ export_output_files st' = export_output_files st ++ [path])
     ∨ (r ≠ OK
        ∧ _partition_writer_map st' = _partition_writer_map st
        ∧ export_output_files st' = export_output_files st)).
Proof.
  unfold open_partition_writer, gen_file_name, insert_writer. intros H Hnone.
  revert H.
  destruct (file_name_prefix cfg) as [prefix|]; simpl.
  2:{ intros [= <- <-]. split; [done|].
      split; [by exists []; rewrite app_nil_r|]. right. by repeat split. }
  destruct (String.eqb (file_format cfg) "orc"); simpl.
  2:{ intros [= <- <-]. split; [done|].
      split; [by eexists [_]; split; [done|repeat constructor]|].
      right. by repeat split. }
  destruct (broker_addresses cfg).
  { intros [= <- <-]. split; [done|].
    split; [by eexists [_]; split; [done|repeat constructor]|].
    right. by repeat split. }
  destruct (fs_broker_new_writable_file env _ _) as [|code msg]; simpl;
    rewrite ?Hnone; intros [= <- <-]; simpl; (split; [done|]);
    (split; [by eexists [_; _]; rewrite <- app_assoc; split;
                  [done|repeat constructor]|]).
  - left. split; [done|]. by eexists.
  - right. by repeat split.
Qed.

(** A request for a new writer that succeeds read the clock and created,
    under the name made of that reading, a file that the file system did not
    hold; the file is recorded. *)
Lemma open_partition_writer_fresh cfg env key st st' :
  open_partition_writer cfg env key st = (OK, st') →
  ∃ prefix,
    file_name_prefix cfg = Some prefix
    ∧ export_output_files st'
      = export_output_files st
        ++ [file_path cfg env key prefix (UnixMillis env (tick st))]
    ∧ trace st'
      = trace st
        ++ [EvUnixMillis (UnixMillis env (tick st));
            EvNewWritableFile
              (file_path cfg env key prefix (UnixMillis env (tick st))) OK]
    ∧ file_path cfg env key prefix (UnixMillis env (tick st))
      ∉ created_files (trace st).
Proof.
  unfold open_partition_writer, gen_file_name.
  destruct (file_name_prefix cfg) as [prefix|]; simpl; [|done].
  destruct (String.eqb (file_format cfg) "orc"); simpl; [|done].
  destruct (broker_addresses cfg); [done|].
  change (location cfg +:+ "/data/" +:+ key
          +:+ file_name env prefix (UnixMillis env (tick st)))
    with (file_path cfg env key prefix (UnixMillis env (tick st))).
  destruct (fs_broker_new_writable_file env _ _) eqn:Hnew; simpl; [|done].
  apply fs_broker_new_writable_file_ok in Hnew as [_ Hfresh].
  simpl in Hfresh. rewrite created_files_app in Hfresh. simpl in Hfresh.
  rewrite app_nil_r in Hfresh.
  intros [= <-]. exists prefix. split; [done|].
  unfold insert_writer. simpl.
  destruct (_partition_writer_map st !! key); simpl;
    rewrite <- app_assoc; repeat split; done.
Qed.

Lemma sink_inv_trace cfg st st' es :
  sink_inv cfg st →
  _partition_writer_map st' = _partition_writer_map st →
  export_output_files st' = export_output_files st →
  erased_writers st' = erased_writers st →
  trace st' = trace st ++ es →
  Forall (quiet_event cfg) es →
  sink_inv cfg st'.
Proof.
  intros [Hrec [Hown Hfin] Hno Happ] Hm Hf He Ht Hes.
  rewrite Forall_forall in Hes. split.
  - intros key w. rewrite Hm, Hf. apply Hrec.
  - split.
    + intros path. rewrite Hf, Hm, He. apply Hown.
    + intros w. rewrite He. apply Hfin.
  - intros e. rewrite Ht, elem_of_app. intros [H|H]; [by apply Hno|].
    by apply Hes.
  - intros HB path size chunk r. rewrite Ht, elem_of_app. intros [H|H].
    + by eapply Happ.
    + destruct (Hes _ H) as [_ Hq]. by eapply Hq.
Qed.

Lemma sink_inv_log cfg e st :
  sink_inv cfg st → quiet_event cfg e → sink_inv cfg (log e st).
Proof.
  intros Hinv He. eapply (sink_inv_trace cfg st _ [e]); try done.
  by constructor.
Qed.

(** Replacing a writer by one on the same file. *)
Lemma sink_inv_set_writer cfg key w w' st :
  sink_inv cfg st →
  _partition_writer_map st !! key = Some w →
  fb_path w' = fb_path w →
  sink_inv cfg (set_writer key w' st).
Proof.
  intros [Hrec [Hown Hfin] Hno Happ] Hw Hpath. split; try done.
  - intros k v; simpl. destruct (decide (key = k)) as [->|Hne].
    + rewrite lookup_insert_eq. intros [= <-]. rewrite Hpath. by eapply Hrec.
    + rewrite lookup_insert_ne by done. apply Hrec.
  - split; [|done]. intros path Hin; simpl.
    destruct (Hown path Hin) as [(k & v & Hk & Hp)|H]; [|by right].
    left. destruct (decide (key = k)) as [->|Hne].
    + exists k, w'. rewrite lookup_insert_eq. split; [done|]. congruence.
    + exists k, v. by rewrite lookup_insert_ne.
Qed.

(** Erasing a finished writer. *)
Lemma sink_inv_erase_writer cfg key w st :
  sink_inv cfg st →
  _partition_writer_map st !! key = Some w →
  fb_finished w = true →
  sink_inv cfg (erase_writer key w st).
Proof.
  intros [Hrec [Hown Hfin] Hno Happ] Hw Hdone. split; try done.
  - intros k v; simpl. rewrite lookup_delete_Some. intros [_ H]. by eapply Hrec.
  - split; simpl.
    + intros path Hin.
      destruct (Hown path Hin) as [(k & v & Hk & Hp)|(v & Hv & Hp)].
      * destruct (decide (key = k)) as [->|Hne].
        { right. exists w. split; [set_solver|congruence]. }
        left. exists k, v. by rewrite lookup_delete_ne.
      * right. exists v. split; [set_solver|done].
    + intros v. rewrite elem_of_app, list_elem_of_singleton.
      intros [H| ->]; [by apply Hfin|done].
Qed.

(** Installing a new writer whose path is recorded. *)
Lemma sink_inv_new_writer cfg key path st st' es :
  sink_inv cfg st →
  _partition_writer_map st !! key = None →
  _partition_writer_map st'
  = <[key := new_builder path]> (_partition_writer_map st) →
  export_output_files st' = export_output_files st ++ [path] →
  erased_writers st' = erased_writers st →
  trace st' = trace st ++ es →
  Forall (quiet_event cfg) es →
  sink_inv cfg st'.
Proof.
  intros [Hrec [Hown Hfin] Hno Happ] Hnone Hm Hf He Ht Hes.
  rewrite Forall_forall in Hes. split.
  - intros k v. rewrite Hm, Hf. destruct (decide (key = k)) as [->|Hne].
    + rewrite lookup_insert_eq. intros [= <-]. set_solver.
    + rewrite lookup_insert_ne by done. intros H. apply elem_of_app. left.
      by eapply Hrec.
  - split.
    + intros p. rewrite Hf, Hm, He, elem_of_app, list_elem_of_singleton.
      intros [Hin| ->].
      * destruct (Hown p Hin) as [(k & v & Hk & Hp)|H]; [|by right].
        left. exists k, v. rewrite lookup_insert_ne; [done|]. congruence.
      * left. exists key, (new_builder path). by rewrite lookup_insert_eq.
    + intros v. rewrite He. apply Hfin.
  - intros e. rewrite Ht, elem_of_app. intros [H|H]; [by apply Hno|].
    by apply Hes.
  - intros HB p size chunk r. rewrite Ht, elem_of_app. intros [H|H].
    + by eapply Happ.
    + destruct (Hes _ H) as [_ Hq]. by eapply Hq.
Qed.

Lemma open_partition_writer_inv cfg env key st r st' :
  sink_inv cfg st →
  _partition_writer_map st !! key = None →
  open_partition_writer cfg env key st = (r, st') →
  sink_inv cfg st'
  ∧ (r = OK →
     ∃ path, _partition_writer_map st' !! key = Some (new_builder path)).
Proof.
  intros Hinv Hnone Hopen.
  destruct (open_partition_writer_spec _ _ _ _ _ _ Hopen Hnone)
    as (He & (es & Ht & Hes) & Hcase).
  assert (Forall (quiet_event cfg) es) as Hq.
  { eapply Forall_impl; [exact Hes|]. intros [] H; try done; by split. }
  destruct Hcase as [(-> & path & Hm & Hf)|(Hr & Hm & Hf)].
  - split; [by eapply sink_inv_new_writer|].
    intros _. exists path. by rewrite Hm, lookup_insert_eq.
  - split; [by eapply sink_inv_trace|done].
Qed.

Lemma prepare_partition_writer_inv cfg env key st r st' :
  sink_inv cfg st →
  prepare_partition_writer cfg env key st = (r, st') →
  sink_inv cfg st'
  ∧ (r = OK → ∃ w, _partition_writer_map st' !! key = Some w
                   ∧ (0 < bytes_per_file cfg < 2 ^ 63 →
                      fb_size w < bytes_per_file cfg)).
Proof.
  intros Hinv. unfold prepare_partition_writer.
  destruct (_partition_writer_map st !! key) as [w|] eqn:Hw.
  - destruct (budget_reached cfg w) eqn:Hb.
    + unfold finish_writer.
      destruct (finish_status env (tick st)) as [|code msg] eqn:Hfin; simpl.
      * intros Hopen.
        apply open_partition_writer_inv in Hopen as [Hinv' Hok].
        { split; [done|]. intros Hr. destruct (Hok Hr) as [path Hp].
          exists (new_builder path). split; [done|]. simpl. lia. }
        { apply sink_inv_erase_writer; [|simpl; apply lookup_insert_eq|done].
          apply sink_inv_log; [|by split].
          by eapply sink_inv_set_writer. }
        simpl. apply lookup_delete_eq.
      * intros [= <- <-]. split; [|done].
        apply sink_inv_log; [|by split]. by eapply sink_inv_set_writer.
    + intros [= <- <-]. split; [done|]. intros _. exists w. split; [done|].
      intros HB. by apply budget_not_reached.
  - intros Hopen. apply open_partition_writer_inv in Hopen as [Hinv' Hok]; try done.
    split; [done|]. intros Hr. destruct (Hok Hr) as [path Hp].
    exists (new_builder path). split; [done|]. simpl. lia.
Qed.

Lemma write_to_partition_inv cfg env chunk key st :
  sink_inv cfg st →
  ∃ r st', write_to_partition cfg env chunk key st = Done (r, st')
           ∧ sink_inv cfg st'.
Proof.
  intros Hinv. unfold write_to_partition.
  destruct (prepare_partition_writer cfg env key st) as [r st1] eqn:Hprep.
  destruct (prepare_partition_writer_inv _ _ _ _ _ _ Hinv Hprep) as [Hinv1 Hok].
  destruct r as [|code msg]; simpl; [|by eauto].
  destruct (Hok eq_refl) as (w & Hw & Hsize). rewrite Hw.
  unfold add_chunk. eexists _, _. split; [reflexivity|].
  apply sink_inv_log.
  - eapply sink_inv_set_writer; [done..|]. by destruct (ok _).
  - split; [done|]. intros ???? [= <- <- <- <-] HB. by apply Hsize.
Qed.

Lemma write_partitions_inv cfg env chunk base refs keys : ∀ j status st r st',
  sink_inv cfg st →
  write_partitions cfg env chunk base refs keys j status st = Done (r, st') →
  sink_inv cfg st'.
Proof.
  induction keys as [|key keys IH]; intros j status st r st' Hinv H; simpl in H.
  - by simplify_eq.
  - destruct (clone_selective chunk _) as [cur|]; [|done].
    destruct (write_to_partition_inv cfg env cur (str_value key) st Hinv)
      as (r1 & st1 & Hw & Hinv1).
    rewrite Hw in H. destruct (ok r1); [|by simplify_eq].
    eapply IH; [exact Hinv1|exact H].
Qed.

Lemma partition_and_write_inv cfg env chunk st r st' :
  sink_inv cfg st →
  partition_and_write cfg env chunk st = Done (r, st') →
  sink_inv cfg st'.
Proof.
  intros Hinv. unfold partition_and_write.
  destruct (resolve_partition_columns cfg chunk) as [arr|]; [|done].
  destruct (assign_rows _ _ _ _ _ _ _) as [[s|[v refs]]|]; [| |done].
  - by intros [= <- <-].
  - destruct (vec_elems v) as [|key [|key2 keys]] eqn:Hv.
    + simpl. by intros [= <- <-].
    + intros H.
      destruct (write_to_partition_inv cfg env chunk (str_value key) st Hinv)
        as (r1 & st1 & Hw & Hinv1). rewrite Hw in H. by simplify_eq.
    + intros H. eapply write_partitions_inv; [exact Hinv|exact H].
Qed.

Lemma send_chunk_inv cfg env chunk st r st' chunk' :
  sink_inv cfg st →
  send_chunk cfg env chunk st = Done (r, st', chunk') →
  sink_inv cfg st'.
Proof.
  intros Hinv. unfold send_chunk.
  destruct (output_chunk cfg chunk) as [[s|[written caller]]|]; [| |done].
  - by intros [= <- <- <-].
  - destruct (partition_and_write cfg env written st) as [[s st1]|] eqn:H; [|done].
    intros [= <- <- <-]. by eapply partition_and_write_inv.
Qed.

(** The invariant holds during the whole lifetime of the sink. *)
Lemma reachable_inv cfg env st : reachable cfg env st → sink_inv cfg st.
Proof.
  induction 1 as [|st chunk s st' chunk' _ IH Hsend].
  - apply initial_sink_inv.
  - by eapply send_chunk_inv.
Qed.



Lemma one_row_sink_reachable : reachable scenario_A_config calm_env one_row_sink.
Proof.
  apply (reachable_send _ _ initial_sink one_row_chunk OK one_row_sink
           (bind_slot_ids (slots scenario_A_config) 0
              (reset_slot_id_to_index one_row_chunk))).
  - apply reachable_initial.
  - vm_compute. reflexivity.
Qed.



Lemma finish_all_ok_map env ws : ∀ st st1,
  finish_all env ws st = (OK, st1) →
  _partition_writer_map st1 = finish_map ws (_partition_writer_map st).
Proof.
  induction ws as [|[key w] ws IH]; intros st st1 H; simpl in H.
  - by simplify_eq.
  - unfold finish_writer in H.
    destruct (finish_status env (tick st)) eqn:Hfin; simpl in H; [|done].
    apply IH in H. by rewrite H.
Qed.

(** C4 (as amended). A file path is recorded when its writer is created,
    before anything is written to it: a request for a writer that succeeds
    either keeps the sink as it is or installs a new, empty and unfinished
    builder whose path it appends to the recorded files.  [close] reads the
    list only after every writer was finished: whenever [close] makes the
    remote call, the request carries the recorded list, and every path in it
    belongs to a writer whose [finish] returned OK. *)
Theorem recorded_files_finished_at_commit cfg env st :
  reachable cfg env st →
  (∀ key st',
     prepare_partition_writer cfg env key st = (OK, st') →
     st' = st
     ∨ ∃ path,
         export_output_files st' = export_output_files st ++ [path]
         ∧ _partition_writer_map st' !! key = Some (new_builder path))
  ∧ (∀ exec_status request o,
       EvAddIcebergFiles request o
         ∈ new_events st (close cfg env exec_status st).2 →
       req_files request = export_output_files st
       ∧ ∀ path, path ∈ req_files request →
           ∃ w, fb_path w = path ∧ fb_finished w = true
                ∧ (w ∈ erased_writers (close cfg env exec_status st).2
                   ∨ ∃ key,
                       _partition_writer_map (close cfg env exec_status st).2
                         !! key = Some w)).
Proof.
  intros Hreach. apply reachable_inv in Hreach as [_ [Hown Herased] _ _].
  split.
  - intros key st'. unfold prepare_partition_writer.
    assert (∀ st0,
              _partition_writer_map st0 !! key = None →
              export_output_files st0 = export_output_files st →
              open_partition_writer cfg env key st0 = (OK, st') →
              ∃ path,
                export_output_files st' = export_output_files st ++ [path]
                ∧ _partition_writer_map st' !! key = Some (new_builder path))
      as Hopen.
    { intros st0 Hnone Hfiles Hopen.
      destruct (open_partition_writer_spec _ _ _ _ _ _ Hopen Hnone)
        as (_ & _ & [(_ & path & Hm & Hf)|(Hr & _)]); [|done].
      exists path. rewrite Hf, Hfiles. split; [done|].
      by rewrite Hm, lookup_insert_eq. }
    destruct (_partition_writer_map st !! key) as [w|] eqn:Hw.
    + destruct (budget_reached cfg w); [|intros [= <-]; by left].
      unfold finish_writer. destruct (finish_status env (tick st)); simpl.
      * intros H. right.
        eapply Hopen; [| |exact H]; simpl; [apply lookup_delete_eq|done].
      * by intros [= ?].
    + intros H. right. by apply (Hopen st).
  - intros exec_status request o.
    destruct (finish_all env (iteration env (_partition_writer_map st)) st)
      as [r st1] eqn:Hfin.
    destruct (finish_all_frame _ _ _ _ _ Hfin) as (Hf1 & He1 & fin & Ht & Hfin').
    assert (EvAddIcebergFiles request o ∉ fin) as Hnotfin.
    { intros Hin. rewrite Forall_forall in Hfin'. by apply Hfin' in Hin. }
    destruct r as [|code msg].
    2:{ rewrite (close_finish_fails _ _ _ _ _ _ _ Hfin). simpl.
        by rewrite (new_events_app _ _ _ Ht). }
    pose proof (finish_all_ok_map _ _ _ _ Hfin) as Hm1.
    rewrite (close_after_finish _ _ _ _ _ Hfin).
    destruct (export_output_files st1) as [|f fs] eqn:Hfs.
    { simpl. by rewrite (new_events_app _ _ _ Ht). }
    destruct (connect_status env (tick st1)) as [|code msg] eqn:Hc; simpl.
    2:{ erewrite new_events_app; [|simpl; rewrite Ht, <- app_assoc; done].
        set_solver. }
    destruct (send_request env (make_request cfg st1) (log (EvConnect OK) st1))
      as [r st2] eqn:Hsend.
    destruct (send_request_frame _ _ _ _ _ Hsend)
      as (Hm2 & Hf2 & He2 & es & Ht2 & _ & Hreq).
    simpl in *.
    erewrite new_events_app; [|rewrite Ht2, Ht, <- !app_assoc; done].
    intros Hin.
    assert (request = make_request cfg st1) as ->.
    { apply Hreq. apply elem_of_app in Hin as [Hin|Hin]; [done|].
      apply elem_of_cons in Hin as [?|Hin]; [done|].
      clear -Hin. induction es as [|e es IH]; [by apply elem_of_nil in Hin|].
      apply elem_of_cons in Hin as [<-|Hin]; simpl; [set_solver|].
      destruct e; simpl; try set_solver. }
    simpl. rewrite Hfs, <- Hf1. split; [done|].
    intros path Hpath. rewrite Hf1 in Hpath.
    destruct (Hown path Hpath) as [(key & w & Hw & Hp)|(w & Hw & Hp)].
    + exists (mark_finished w). split; [done|]. split; [done|].
      right. exists key. rewrite Hm2, Hm1.
      apply finish_map_finished; [apply NoDup_fst_iteration|].
      by apply elem_of_iteration.
    + exists w. split; [done|]. split; [by apply Herased|].
      left. by rewrite He2, He1.
Qed.

Lemma recorded_files_finished_at_commit_witness :
  ∃ path,
    export_output_files
      (prepare_partition_writer scenario_A_config calm_env "dt=2024-01-02/"
         one_row_sink).2
    = export_output_files one_row_sink ++ [path].
Proof.
  destruct (recorded_files_finished_at_commit scenario_A_config calm_env
              one_row_sink one_row_sink_reachable) as [Hprepare _].
  destruct (Hprepare "dt=2024-01-02/"
              (prepare_partition_writer scenario_A_config calm_env
                 "dt=2024-01-02/" one_row_sink).2) as [Hsame|(path & Hf & _)].
  - vm_compute. reflexivity.
  - exfalso. apply (f_equal export_output_files) in Hsame.
    vm_compute in Hsame. discriminate.
  - exists path. exact Hf.
Defined.

(** After one row was sent to a fresh sink the path of the new file is in
    the list of output files although its writer is live, not finished, and
    [finish] has not been called at all. *)
Lemma file_recorded_before_writer_finished :
  ∃ chunk' w,
    send_chunk scenario_A_config calm_env one_row_chunk initial_sink
      = Done (OK, one_row_sink, chunk')
    ∧ export_output_files one_row_sink
      = ["hdfs://wh/t/data/dt=2024-01-01/q1_10001_1700000000000.orc"]
    ∧ _partition_writer_map one_row_sink !! "dt=2024-01-01/" = Some w
    ∧ fb_path w = "hdfs://wh/t/data/dt=2024-01-01/q1_10001_1700000000000.orc"
    ∧ fb_finished w = false
    ∧ erased_writers one_row_sink = []
    ∧ Forall (λ e, is_finish e = false) (trace one_row_sink).
Proof.
  eexists _, _. split; [vm_compute; reflexivity|].
  split; [reflexivity|]. split; [vm_compute; reflexivity|].
  split; [reflexivity|]. split; [reflexivity|]. split; [reflexivity|].
  by repeat constructor.
Qed.


(** ** The byte budget *)

(** One append of [bytes] bytes to a fresh sink, then [close]. *)
Lemma one_append_run (budget : Z) (bytes : N) :
  let cfg := unpartitioned_config budget in
  let env := heavy_env bytes in
  let st1 := sink_after cfg env unpartitioned_chunk initial_sink in
  let st2 := (close cfg env OK st1).2 in
  send_chunk cfg env unpartitioned_chunk initial_sink
    = Done (OK, st1, unpartitioned_chunk)
  ∧ close cfg env OK st1 = (OK, st2)
  ∧ _partition_writer_map st2 !! ""
    = Some (mkFileBuilder "hdfs://wh/t/data/q1_10001_1700000000000.orc"
              (Z.of_N bytes) [unpartitioned_chunk] true).
Proof. intros cfg env st1 st2. repeat split; vm_compute; reflexivity. Qed.

(** C9 (as amended). For a positive budget, at any point of the sink's
    lifetime every append found its writer strictly below the budget; the
    budget is not looked at during an append, so one append can carry a file
    any number of bytes past the budget, and the file is finished at that
    size. *)
Theorem budget_checked_between_requests cfg env st :
  0 < bytes_per_file cfg < 2 ^ 63 →
  reachable cfg env st →
  (∀ path size chunk r,
     EvAddChunk path size chunk r ∈ trace st → size < bytes_per_file cfg)
  ∧ (∀ excess : N, ∃ cfg' env' chunk st1 st2 w,
       bytes_per_file cfg' = bytes_per_file cfg
       ∧ send_chunk cfg' env' chunk initial_sink = Done (OK, st1, chunk)
       ∧ close cfg' env' OK st1 = (OK, st2)
       ∧ _partition_writer_map st2 !! "" = Some w
       ∧ fb_finished w = true
       ∧ fb_size w = bytes_per_file cfg + Z.of_N excess).
Proof.
  intros HB Hreach. split.
  - apply reachable_inv in Hreach as [_ _ _ Happ]. by apply Happ.
  - intros excess.
    destruct (one_append_run (bytes_per_file cfg)
                (Z.to_N (bytes_per_file cfg) + excess)) as (Hsend & Hclose & Hw).
    eexists _, _, _, _, _, _. split; [|split; [exact Hsend|]].
    { reflexivity. }
    split; [exact Hclose|]. split; [exact Hw|]. split; [reflexivity|].
    simpl. lia.
Qed.

Lemma budget_checked_between_requests_witness :
  let path := "hdfs://wh/t/data/dt=2024-01-01/q1_10001_1700000000000.orc" in
  let written := bind_slot_ids (slots scenario_A_config) 0
                   (reset_slot_id_to_index one_row_chunk) in
  trace one_row_sink !! 2%nat = Some (EvAddChunk path 0 written OK)
  ∧ 0 < bytes_per_file scenario_A_config.
Proof.
  assert (0 < bytes_per_file scenario_A_config < 2 ^ 63) as HB
    by (vm_compute; split; reflexivity).
  intros path written.
  assert (trace one_row_sink !! 2%nat = Some (EvAddChunk path 0 written OK))
    as Hev by (vm_compute; reflexivity).
  split; [exact Hev|].
  apply (proj1 (budget_checked_between_requests scenario_A_config calm_env
                  one_row_sink HB one_row_sink_reachable) path 0 written OK).
  by eapply list_elem_of_lookup_2.
Defined.

(** With a budget of zero the first append to a fresh sink finds its writer
    at size 0, which is not below the budget. *)
Lemma append_not_below_zero_budget :
  let st := sink_after zero_budget_config calm_env one_row_chunk initial_sink in
  bytes_per_file zero_budget_config = 0
  ∧ (∃ path chunk, trace st !! 2%nat = Some (EvAddChunk path 0 chunk OK))
  ∧ ¬ (0 < bytes_per_file zero_budget_config).
Proof.
  split; [reflexivity|]. split; [|vm_compute; discriminate].
  eexists _, _. vm_compute. reflexivity.
Qed.

(** ** File paths *)

Lemma list_ascii_of_string_app s1 s2 :
  String.list_ascii_of_string (s1 +:+ s2)
  = String.list_ascii_of_string s1 ++ String.list_ascii_of_string s2.
Proof. induction s1 as [|a s1 IH]; simpl; [done|by rewrite IH]. Qed.

Lemma string_app_inv_tail s1 s2 s : s1 +:+ s = s2 +:+ s → s1 = s2.
Proof.
  intros H. apply (f_equal String.list_ascii_of_string) in H.
  rewrite !list_ascii_of_string_app in H. apply app_inv_tail in H.
  apply (f_equal String.string_of_list_ascii) in H.
  by rewrite !String.string_of_list_ascii_of_string in H.
Qed.

(** The generated path determines the clock reading. *)
Lemma file_path_inj cfg env key prefix t1 t2 :
  file_path cfg env key prefix t1 = file_path cfg env key prefix t2 → t1 = t2.
Proof.
  unfold file_path, file_name. intros H.
  do 7 apply String.app_inj in H.
  apply string_app_inv_tail in H. by apply pretty_Z_inj in H.
Qed.

(** ** The caller's chunk *)

Lemma bind_slot_ids_columns ss : ∀ i chunk,
  columns (bind_slot_ids ss i chunk) = columns chunk.
Proof. induction ss as [|s ss IH]; intros i chunk; simpl; [done|by rewrite IH]. Qed.

Lemma bind_slot_ids_other ss : ∀ i chunk slot,
  slot ∉ slot_id <$> ss →
  slot_id_to_index (bind_slot_ids ss i chunk) !! slot
  = slot_id_to_index chunk !! slot.
Proof.
  induction ss as [|s ss IH]; intros i chunk slot Hnot; simpl; [done|].
  rewrite IH by set_solver. simpl. apply lookup_insert_ne. set_solver.
Qed.

Lemma bind_slot_ids_bound ss : ∀ i chunk k s,
  ss !! k = Some s →
  (∀ j s', (k < j)%nat → ss !! j = Some s' → slot_id s' ≠ slot_id s) →
  slot_id_to_index (bind_slot_ids ss i chunk) !! slot_id s = Some (i + k)%nat.
Proof.
  induction ss as [|s0 ss IH]; intros i chunk k s Hk Hlast; [done|].
  destruct k as [|k]; simpl in *.
  - simplify_eq. rewrite bind_slot_ids_other.
    + simpl. rewrite lookup_insert_eq. f_equal. lia.
    + intros Hin. apply list_elem_of_fmap in Hin as (s' & Heq & Hin).
      apply list_elem_of_lookup in Hin as [j Hj].
      apply (Hlast (S j) s'); [lia|done|done].
  - rewrite (IH (S i) _ k s Hk).
    + f_equal. lia.
    + intros j s' Hj Hs'. apply (Hlast (S j) s'); [lia|done].
Qed.

(** C5 (as amended). [send_chunk] never changes the columns of the caller's
    chunk.  With output expressions the caller's chunk is left exactly as it
    was; without them its slot-id to index map is cleared and rebuilt from
    the output slots: the id of the slot at position [k] is bound to [k]
    (the last position, for an id that occurs several times), and no other
    id is bound. *)
Theorem send_chunk_keeps_columns cfg env chunk st s st' chunk' :
  send_chunk cfg env chunk st = Done (s, st', chunk') →
  columns chunk' = columns chunk
  ∧ (_output_expr_ctxs cfg ≠ [] → chunk' = chunk)
  ∧ (_output_expr_ctxs cfg = [] →
     (∀ k slot,
        slots cfg !! k = Some slot →
        (∀ j slot', (k < j)%nat → slots cfg !! j = Some slot' →
           slot_id slot' ≠ slot_id slot) →
        slot_id_to_index chunk' !! slot_id slot = Some k)
     ∧ (∀ slot, slot ∉ slot_id <$> slots cfg →
          slot_id_to_index chunk' !! slot = None)).
Proof.
  unfold send_chunk, output_chunk.
  destruct (_output_expr_ctxs cfg) as [|e exprs] eqn:Hexprs.
  - destruct (partition_and_write cfg env _ st) as [[r st1]|]; [|done].
    intros [= <- <- <-]. rewrite bind_slot_ids_columns. simpl.
    split; [done|]. split; [done|]. intros _. split.
    + intros k slot Hk Hlast.
      by rewrite (bind_slot_ids_bound _ _ _ _ _ Hk Hlast).
    + intros slot Hnot. by rewrite bind_slot_ids_other.
  - destruct (evaluate_exprs _ _ _ _ _) as [[r|out]|]; [| |done].
    + by intros [= <- <- <-].
    + destruct (partition_and_write cfg env out st) as [[r st1]|]; [|done].
      by intros [= <- <- <-].
Qed.

Lemma send_chunk_keeps_columns_witness :
  columns (bind_slot_ids (slots scenario_A_config) 0
             (reset_slot_id_to_index upstream_chunk))
  = columns upstream_chunk.
Proof.
  assert (send_chunk scenario_A_config calm_env upstream_chunk initial_sink
          = Done (OK, one_row_sink,
                  bind_slot_ids (slots scenario_A_config) 0
                    (reset_slot_id_to_index upstream_chunk))) as Hsend
    by (vm_compute; reflexivity).
  exact (proj1 (send_chunk_keeps_columns _ _ _ _ _ _ _ Hsend)).
Defined.

(** A chunk arrives bound to the slot ids 9 and 8; no output expression is
    configured.  After [send_chunk] the caller's chunk is bound to the ids 5
    and 6 of the output slots and no longer to 9 and 8. *)
Lemma send_chunk_rebinds_caller_slots :
  ∃ chunk',
    _output_expr_ctxs scenario_A_config = []
    ∧ send_chunk scenario_A_config calm_env upstream_chunk initial_sink
      = Done (OK, one_row_sink, chunk')
    ∧ slot_id_to_index upstream_chunk = {[ 9 := 0%nat; 8 := 1%nat ]}
    ∧ slot_id_to_index chunk' = {[ 5 := 0%nat; 6 := 1%nat ]}
    ∧ chunk' ≠ upstream_chunk.
Proof.
  eexists. split; [reflexivity|]. split; [vm_compute; reflexivity|].
  split; [reflexivity|]. split; [vm_compute; reflexivity|].
  intros H. apply (f_equal (λ c, slot_id_to_index c !! 9)) in H.
  vm_compute in H. discriminate.
Qed.

(** ** Unsupported transforms *)

(** With a column whose transform is not "day", the key of a row is never
    derived: the loop stops at the first such column, unless reading one of
    the day columns before it crashed. *)
Lemma derive_key_unsupported env pcs1 pc pcs2 arr i :
  Forall (λ p, transform p = "day") pcs1 →
  transform pc ≠ "day" →
  ∀ k acc,
    match derive_key env (pcs1 ++ pc :: pcs2) arr k i acc with
    | Done (inl s) => s = unsupported_transform pc
    | Done (inr _) => False
    | Crash _ => True
    end.
Proof.
  intros Hday Hpc. induction Hday as [|p pcs1 Hp _ IH]; intros k acc; simpl.
  - apply String.eqb_neq in Hpc. by rewrite Hpc.
  - rewrite Hp. simpl.
    destruct (arr !! k) as [[col|]|]; try done.
    destruct (col !! i) as [[]|]; try done. apply IH.
Qed.

Lemma derive_key_unsupported_readable env pcs1 pc pcs2 arr i :
  Forall (λ p, transform p = "day") pcs1 →
  transform pc ≠ "day" →
  ∀ k acc,
    (∀ j, (j < length pcs1)%nat →
       ∃ col ts, arr !! (k + j)%nat = Some (Some col)
                 ∧ col !! i = Some (DTimestamp ts)) →
    derive_key env (pcs1 ++ pc :: pcs2) arr k i acc
    = Done (inl (unsupported_transform pc)).
Proof.
  intros Hday Hpc. induction Hday as [|p pcs1 Hp _ IH]; intros k acc Hread; simpl.
  - apply String.eqb_neq in Hpc. by rewrite Hpc.
  - rewrite Hp. simpl.
    destruct (Hread 0%nat) as (col & ts & Hcol & Hts); [simpl; lia|].
    rewrite Nat.add_0_r in Hcol. rewrite Hcol, Hts. apply IH.
    intros j Hj. destruct (Hread (S j)) as (col' & ts' & H1 & H2); [simpl; lia|].
    exists col', ts'. split; [|done]. by rewrite <- H1, Nat.add_succ_r.
Qed.

(** C8 (as amended). When the chunk to write has a row and some partition
    column's transform is not "day", [send_chunk] never completes with
    anything but the "unsupported transform" error of the first such column,
    and the sink is left untouched: no writer is prepared and nothing is
    written.  When the day columns before that column can be read in the
    first row, this is how the call ends. *)
Theorem unsupported_transform_fails_batch cfg env chunk st written caller
    pcs1 pc pcs2 :
  output_chunk cfg chunk = Done (inr (written, caller)) →
  (0 < num_rows written)%nat →
  partitionColumns cfg = pcs1 ++ pc :: pcs2 →
  Forall (λ p, transform p = "day") pcs1 →
  transform pc ≠ "day" →
  (∀ s st' chunk',
     send_chunk cfg env chunk st = Done (s, st', chunk') →
     s = unsupported_transform pc ∧ st' = st ∧ chunk' = caller)
  ∧ (∀ arr,
       resolve_partition_columns cfg written = Done arr →
       (∀ j, (j < length pcs1)%nat →
          ∃ col ts, arr !! j = Some (Some col)
                    ∧ col !! 0%nat = Some (DTimestamp ts)) →
       send_chunk cfg env chunk st
       = Done (unsupported_transform pc, st, caller)).
Proof.
  intros Hout Hrows Hpcs Hday Hpc.
  unfold send_chunk, partition_and_write. rewrite Hout, Hpcs.
  destruct (num_rows written) as [|n]; [lia|]. simpl seq.
  split.
  - intros s st' chunk'.
    destruct (resolve_partition_columns cfg written) as [arr|]; [|done].
    simpl. unfold assign_row.
    pose proof (derive_key_unsupported env pcs1 pc pcs2 arr 0 Hday Hpc 0%nat "")
      as Hkey.
    destruct (derive_key env (pcs1 ++ pc :: pcs2) arr 0 0 "") as [[e|key]|];
      [|done|done].
    intros [= <- <- <-]. by subst.
  - intros arr -> Hread. simpl. unfold assign_row.
    by rewrite (derive_key_unsupported_readable env pcs1 pc pcs2 arr 0 Hday Hpc
                  0%nat "" Hread).
Qed.

Lemma unsupported_transform_fails_batch_witness :
  send_chunk month_config calm_env scenario_A_chunk one_row_sink
  = Done (Error NotSupported "unsupported transform month", one_row_sink,
          bind_slot_ids (slots month_config) 0
            (reset_slot_id_to_index scenario_A_chunk)).
Proof.
  set (written := bind_slot_ids (slots month_config) 0
                    (reset_slot_id_to_index scenario_A_chunk)).
  assert (output_chunk month_config scenario_A_chunk
          = Done (inr (written, written))) as Hout by reflexivity.
  assert (0 < num_rows written)%nat as Hrows by (vm_compute; lia).
  assert (Forall (λ p, transform p = "day") [mkPartitionColumn "ts" "day" "dt"])
    as Hday by (by repeat constructor).
  assert (transform (mkPartitionColumn "ts2" "month" "mo") ≠ "day") as Hpc
    by discriminate.
  destruct (unsupported_transform_fails_batch month_config calm_env
              scenario_A_chunk one_row_sink written written
              [mkPartitionColumn "ts" "day" "dt"]
              (mkPartitionColumn "ts2" "month" "mo") []
              Hout Hrows eq_refl Hday Hpc) as [_ H].
  apply (H [Some [DTimestamp 1704067800; DTimestamp 1704153000;
                  DTimestamp 1704153900];
            Some [DOther 1; DOther 2; DOther 3]]).
  - vm_compute. reflexivity.
  - intros j Hj. simpl in Hj. assert (j = 0%nat) as -> by lia.
    eexists _, _. split; reflexivity.
Defined.

(** Batches that are accepted although the second partition column is a
    month column: a batch without rows, and a batch of three rows whose
    first output expression is only null, so that the chunk to write has no
    row.  Both calls return OK and leave the sink as it is: the transform is
    looked at for the rows of the chunk to write only. *)
Lemma non_day_transform_accepted_without_rows :
  transform <$> partitionColumns month_config = ["day"; "month"]
  ∧ send_chunk month_config calm_env no_rows_chunk one_row_sink
    = Done (OK, one_row_sink,
            bind_slot_ids (slots month_config) 0
              (reset_slot_id_to_index no_rows_chunk))
  ∧ transform <$> partitionColumns only_null_month_config = ["day"; "month"]
  ∧ num_rows scenario_A_chunk = 3%nat
  ∧ send_chunk only_null_month_config calm_env scenario_A_chunk one_row_sink
    = Done (OK, one_row_sink, scenario_A_chunk).
Proof. repeat split; vm_compute; reflexivity. Qed.

(** ** Resolving the partition columns *)

Lemma matching_slots_cons name s ss :
  matching_slots name (s :: ss)
  = if String.eqb (col_name s) name then s :: matching_slots name ss
    else matching_slots name ss.
Proof.
  unfold matching_slots. destruct (String.eqb_spec (col_name s) name) as [H|H].
  - by rewrite filter_cons_True.
  - by rewrite filter_cons_False.
Qed.

Lemma packed_insert cols d col :
  <[length cols := Some col]> (packed cols (S d)) = packed (cols ++ [col]) d.
Proof.
  unfold packed. rewrite fmap_app, <- app_assoc. simpl.
  rewrite <- (length_fmap Some cols) at 1.
  rewrite (insert_app_r_alt _ _ (length (Some <$> cols))) by lia.
  by rewrite Nat.sub_diag.
Qed.

Lemma bind_column_packed name chunk ss : ∀ cols d,
  Forall (slot_bound chunk) ss →
  (length (matching_slots name ss) ≤ d)%nat →
  bind_column name ss chunk (packed cols d) (length cols)
  = Done (packed (cols ++ (slot_column chunk <$> matching_slots name ss))
            (d - length (matching_slots name ss)),
          length (cols ++ (slot_column chunk <$> matching_slots name ss))).
Proof.
  induction ss as [|s ss IH]; intros cols d Hbound Hd; simpl.
  - by rewrite app_nil_r, Nat.sub_0_r.
  - apply Forall_cons in Hbound as [[col Hcol] Hbound].
    rewrite matching_slots_cons in *.
    destruct (String.eqb (col_name s) name); [|by apply IH].
    simpl in Hd. destruct d as [|d]; [lia|].
    rewrite Hcol.
    assert ((length cols <? length (packed cols (S d)))%nat = true) as ->.
    { apply Nat.ltb_lt. unfold packed.
      rewrite length_app, length_fmap, length_replicate. lia. }
    rewrite packed_insert.
    replace (S (length cols)) with (length (cols ++ [col]))
      by (rewrite length_app; simpl; lia).
    rewrite IH by (done || lia). simpl.
    unfold slot_column at 3 5. rewrite Hcol.
    by rewrite <- !app_assoc.
Qed.

Lemma bind_columns_packed ss chunk pcs : ∀ cols d,
  Forall (slot_bound chunk) ss →
  (length (bound_columns ss chunk pcs) ≤ d)%nat →
  bind_columns pcs ss chunk (packed cols d) (length cols)
  = Done (packed (cols ++ bound_columns ss chunk pcs)
            (d - length (bound_columns ss chunk pcs))).
Proof.
  induction pcs as [|pc pcs IH]; intros cols d Hbound Hd; simpl in *.
  - by rewrite app_nil_r, Nat.sub_0_r.
  - rewrite length_app, length_fmap in Hd.
    rewrite bind_column_packed by (done || lia).
    rewrite IH by (done || lia).
    rewrite <- app_assoc, length_app, length_fmap. do 2 f_equal. lia.
Qed.

Lemma resolve_partition_columns_packed cfg chunk :
  Forall (slot_bound chunk) (slots cfg) →
  (length (bound_columns (slots cfg) chunk (partitionColumns cfg))
   ≤ length (partitionColumns cfg))%nat →
  resolve_partition_columns cfg chunk
  = Done (packed (bound_columns (slots cfg) chunk (partitionColumns cfg))
            (length (partitionColumns cfg)
             - length (bound_columns (slots cfg) chunk (partitionColumns cfg)))).
Proof.
  intros Hbound Hlen.
  exact (bind_columns_packed _ _ _ [] _ Hbound Hlen).
Qed.

Lemma bound_columns_aligned ss chunk pcs :
  (∀ pc, pc ∈ pcs → length (matching_slots (columnName pc) ss) = 1%nat) →
  length (bound_columns ss chunk pcs) = length pcs
  ∧ ∀ k pc, pcs !! k = Some pc →
      ∃ slot, matching_slots (columnName pc) ss = [slot]
              ∧ bound_columns ss chunk pcs !! k = Some (slot_column chunk slot).
Proof.
  induction pcs as [|pc0 pcs IH]; intros Hone; simpl.
  - split; [done|]. by intros k pc H.
  - destruct IH as [Hlen Hk]; [intros pc Hpc; apply Hone; by right|].
    assert (length (matching_slots (columnName pc0) ss) = 1%nat) as H1
      by (apply Hone; by left).
    destruct (matching_slots (columnName pc0) ss) as [|slot [|??]] eqn:Hm;
      try done.
    simpl. split; [by rewrite Hlen|].
    intros [|k] pc Hpc; simpl in *.
    + simplify_eq. exists slot. by rewrite Hm.
    + by apply Hk.
Qed.

Lemma bound_columns_short ss chunk pcs :
  (∀ pc, pc ∈ pcs → (length (matching_slots (columnName pc) ss) ≤ 1)%nat) →
  (length (bound_columns ss chunk pcs) ≤ length pcs)%nat
  ∧ ((∃ pc, pc ∈ pcs ∧ matching_slots (columnName pc) ss = []) →
     (length (bound_columns ss chunk pcs) < length pcs)%nat).
Proof.
  induction pcs as [|pc0 pcs IH]; intros Hone; simpl.
  - split; [done|]. intros (pc & Hpc & _). by apply elem_of_nil in Hpc.
  - destruct IH as [Hle Hlt]; [intros pc Hpc; apply Hone; by right|].
    assert (length (matching_slots (columnName pc0) ss) ≤ 1)%nat as H1
      by (apply Hone; by left).
    rewrite length_app, length_fmap. split; [lia|].
    intros (pc & Hpc & Hnone). apply elem_of_cons in Hpc as [->|Hpc].
    + rewrite Hnone. simpl. lia.
    + assert (length (bound_columns ss chunk pcs) < length pcs)%nat; [|lia].
      apply Hlt. by exists pc.
Qed.

(** Without a null entry no null column is read. *)
Lemma derive_key_no_null env arr i pcs : ∀ k acc,
  (∀ j, arr !! j ≠ Some None) →
  derive_key env pcs arr k i acc ≠ Crash NullColumn.
Proof.
  induction pcs as [|pc pcs IH]; intros k acc Harr; simpl; [done|].
  destruct (String.eqb (transform pc) "day"); [|done].
  destruct (arr !! k) as [[col|]|] eqn:Hk; [| |done].
  - destruct (col !! i) as [[]|]; try done. by apply IH.
  - by destruct (Harr k).
Qed.

(** With day columns only, readable bound columns and a null entry within
    reach, the derivation of a key reads the null column. *)
Lemma derive_key_null env cols d i pcs : ∀ k acc,
  Forall (λ p, transform p = "day") pcs →
  Forall (λ col, ∃ ts, col !! i = Some (DTimestamp ts)) cols →
  (k ≤ length cols)%nat →
  (length pcs + k = length (packed cols (S d)))%nat →
  derive_key env pcs (packed cols (S d)) k i acc = Crash NullColumn.
Proof.
  induction pcs as [|pc pcs IH]; intros k acc Hday Hread Hk Hlen; simpl in *.
  - unfold packed in Hlen.
    rewrite length_app, length_fmap, length_replicate in Hlen. lia.
  - apply Forall_cons in Hday as [-> Hday]. simpl.
    destruct (decide (k < length cols)%nat) as [Hlt|Hge].
    + destruct (lookup_lt_is_Some_2 cols k Hlt) as [col Hcol].
      unfold packed at 1. rewrite lookup_app_l by (rewrite length_fmap; lia).
      rewrite list_lookup_fmap, Hcol. simpl.
      rewrite Forall_forall in Hread.
      destruct (Hread col) as [ts Hts]; [by eapply list_elem_of_lookup_2|].
      rewrite Hts. apply IH; [done|by apply Forall_forall|lia|lia].
    + assert (k = length cols) as -> by lia.
      unfold packed. rewrite lookup_app_r by (rewrite length_fmap; lia).
      by rewrite length_fmap, Nat.sub_diag.
Qed.

(** C10 (as amended). Every output slot having its column in the chunk:
    if every partition column's source name matches exactly one slot name,
    the k-th entry of the resolved array is the column of the slot named by
    the k-th partition column, and no row's key derivation reads a null
    column.  If some partition column matches no slot and none matches more
    than one, the bound columns are packed at the front of the array and its
    last entries stay null; for a chunk with a row, day transforms only and
    timestamps in the first row of the bound columns, the key derivation of
    the first row reads a null column. *)
Theorem partition_columns_bound_by_name cfg env chunk :
  Forall (slot_bound chunk) (slots cfg) →
  ((∀ pc, pc ∈ partitionColumns cfg →
      length (matching_slots (columnName pc) (slots cfg)) = 1%nat) →
   ∃ arr,
     resolve_partition_columns cfg chunk = Done arr
     ∧ (∀ k pc, partitionColumns cfg !! k = Some pc →
          ∃ slot col,
            slot ∈ slots cfg ∧ col_name slot = columnName pc
            ∧ get_column_by_slot_id chunk (slot_id slot) = Done col
            ∧ arr !! k = Some (Some col))
     ∧ (∀ i, derive_key env (partitionColumns cfg) arr 0 i ""
             ≠ Crash NullColumn))
  ∧ ((∀ pc, pc ∈ partitionColumns cfg →
        (length (matching_slots (columnName pc) (slots cfg)) ≤ 1)%nat) →
     (∃ pc, pc ∈ partitionColumns cfg
            ∧ matching_slots (columnName pc) (slots cfg) = []) →
     ∃ cols d,
       resolve_partition_columns cfg chunk = Done (packed cols (S d))
       ∧ (Forall (λ p, transform p = "day") (partitionColumns cfg) →
          (0 < num_rows chunk)%nat →
          Forall (λ col, ∃ ts, col !! 0%nat = Some (DTimestamp ts)) cols →
          ∀ st, partition_and_write cfg env chunk st = Crash NullColumn)).
Proof.
  intros Hbound. split.
  - intros Hone.
    destruct (bound_columns_aligned (slots cfg) chunk _ Hone) as [Hlen Hk].
    eexists. split; [apply resolve_partition_columns_packed; [done|lia]|].
    rewrite Hlen, Nat.sub_diag. unfold packed. simpl. rewrite app_nil_r.
    split.
    + intros k pc Hpc. destruct (Hk k pc Hpc) as (slot & Hm & Hcol).
      assert (slot ∈ matching_slots (columnName pc) (slots cfg)) as Hin
        by (rewrite Hm; by left).
      apply list_elem_of_filter in Hin as [Hname Hin].
      rewrite Forall_forall in Hbound. destruct (Hbound slot Hin) as [col Hc].
      exists slot, col. repeat split; try done.
      rewrite list_lookup_fmap, Hcol. simpl. unfold slot_column. by rewrite Hc.
    + intros i. apply derive_key_no_null. intros j.
      rewrite list_lookup_fmap. by destruct (_ !! j).
  - intros Hone Hnone.
    destruct (bound_columns_short (slots cfg) chunk _ Hone) as [Hle Hlt].
    specialize (Hlt Hnone).
    set (cols := bound_columns (slots cfg) chunk (partitionColumns cfg)) in *.
    exists cols, (length (partitionColumns cfg) - length cols - 1)%nat.
    assert (resolve_partition_columns cfg chunk
            = Done (packed cols
                      (S (length (partitionColumns cfg) - length cols - 1))))
      as Hres.
    { rewrite resolve_partition_columns_packed by done. fold cols.
      do 2 f_equal. lia. }
    split; [done|].
    intros Hday Hrows Hread st. unfold partition_and_write. rewrite Hres.
    destruct (num_rows chunk) as [|n]; [lia|]. simpl. unfold assign_row.
    rewrite derive_key_null; try done; [lia|].
    unfold packed. rewrite length_app, length_fmap, length_replicate. lia.
Qed.

Lemma partition_columns_bound_by_name_witness :
  ∃ arr,
    resolve_partition_columns scenario_A_config
      (bind_slot_ids (slots scenario_A_config) 0
         (reset_slot_id_to_index scenario_A_chunk)) = Done arr
    ∧ ∀ i, derive_key calm_env (partitionColumns scenario_A_config) arr 0 i ""
           ≠ Crash NullColumn.
Proof.
  set (written := bind_slot_ids (slots scenario_A_config) 0
                    (reset_slot_id_to_index scenario_A_chunk)).
  assert (Forall (slot_bound written) (slots scenario_A_config)) as Hbound.
  { repeat constructor; eexists; vm_compute; reflexivity. }
  destruct (partition_columns_bound_by_name scenario_A_config calm_env written
              Hbound) as [Hone _].
  destruct Hone as (arr & Hres & _ & Hsafe).
  - intros pc Hpc. apply list_elem_of_singleton in Hpc as ->.
    vm_compute. reflexivity.
  - exists arr. split; [exact Hres | exact Hsafe].
Defined.

(** The partition column "ts" matches no output slot and the chunk has no
    row: the array holds a null entry, yet [send_chunk] returns OK without
    reading any column. *)
Lemma unmatched_column_not_read_without_rows :
  let written := bind_slot_ids (slots unmatched_config) 0
                   (reset_slot_id_to_index empty_chunk) in
  matching_slots "ts" (slots unmatched_config) = []
  ∧ resolve_partition_columns unmatched_config written = Done [None]
  ∧ send_chunk unmatched_config calm_env empty_chunk initial_sink
    = Done (OK, initial_sink, written).
Proof. repeat split; vm_compute; reflexivity. Qed.

(** ** Grouping rows by cached data pointers *)

Lemma derive_key_env env1 env2 pcs arr i : ∀ k acc,
  utc_offset env1 = utc_offset env2 →
  derive_key env1 pcs arr k i acc = derive_key env2 pcs arr k i acc.
Proof.
  induction pcs as [|pc pcs IH]; intros k acc Hoff; simpl; [done|].
  rewrite Hoff. repeat case_match; try done. by apply IH.
Qed.

Lemma find_key_app_new key elems s :
  find_key key elems = None → str_value s = key →
  find_key key (elems ++ [s]) = Some (length elems, s).
Proof.
  unfold find_key. intros Hnone Hs. rewrite list_find_app_r by done.
  simpl. by rewrite decide_True.
Qed.

(** The row's key is already in the vector. *)
Lemma assign_row_found env pcs arr i v h refs key j pKey :
  derive_key env pcs arr 0 i "" = Done (inr key) →
  find_key key (vec_elems v) = Some (j, pKey) →
  assign_row env pcs arr i v h refs
  = Done (inr (v, h, <[i := data env (vec_base v) j pKey]> refs)).
Proof. unfold assign_row. intros -> Hfind. by rewrite Hfind, Hfind. Qed.

Lemma emplace_back_inline_elems env key v h :
  is_inline env key = true →
  vec_elems (emplace_back env key v h).1 = vec_elems v ++ [mkStdString key 0].
Proof.
  intros Hin. unfold emplace_back, copy_string. rewrite Hin.
  destruct (_ <? _)%nat; [done|]. by destruct (allocate _ _ _).
Qed.

(** The row's key is new and short enough to be stored inline. *)
Lemma assign_row_new_inline env pcs arr i v h refs key :
  derive_key env pcs arr 0 i "" = Done (inr key) →
  find_key key (vec_elems v) = None →
  is_inline env key = true →
  assign_row env pcs arr i v h refs
  = Done (inr ((emplace_back env key v h).1, (emplace_back env key v h).2,
               <[i := (emplace_back env key v h).1.(vec_base)
                      + string_size env * Z.of_nat (length (vec_elems v))
                      + inline_offset env]> refs)).
Proof.
  unfold assign_row. intros -> Hfind Hin. rewrite Hfind.
  pose proof (emplace_back_inline_elems env key v h Hin) as Helems.
  destruct (emplace_back env key v h) as [v1 h1]. simpl in *.
  rewrite Helems, (find_key_app_new key _ (mkStdString key 0)) by done.
  unfold data. simpl. by rewrite Hin.
Qed.

(** Appending an inline key to a full vector: the vector moves to the block
    the allocator returns and the old storage is released. *)
Lemma emplace_back_full_inline env key v h :
  (length (vec_elems v) <? vec_capacity v)%nat = false →
  is_inline env key = true →
  emplace_back env key v h
  = let capacity := (length (vec_elems v) + Nat.max (length (vec_elems v)) 1)%nat in
    let size := string_size env * Z.of_nat capacity in
    let base := malloc env (allocations h) (live h) size in
    let h1 := mkHeap (live h ++ [mkBlock base size]) (S (allocations h)) in
    (mkKeyVector base capacity (vec_elems v ++ [mkStdString key 0]),
     if (0 <? vec_capacity v)%nat then deallocate (vec_base v) h1 else h1).
Proof.
  unfold emplace_back, copy_string, allocate. by intros -> ->.
Qed.

(** Unfolds the loop over the rows and the projections of the records of
    the vector and the heap, and nothing else. *)
Ltac vector_step :=
  cbn [assign_rows fst snd vec_elems vec_base vec_capacity live allocations
       str_value str_heap length app Nat.ltb Nat.leb Nat.max Nat.add
       list_insert insert].

Section AnyAllocator.
Variable env : Env.
Hypothesis Hinline : (14 ≤ inline_capacity env)%nat.
Hypothesis Hsize : 0 < string_size env.
Hypothesis Hoffset : utc_offset env = 0.
Hypothesis Hmalloc : valid_malloc env.

(** Scenario A under any allocator and any string layout with at least
    14 inline bytes: the rows 0 and 1 hold a pointer into the first
    storage of the vector, which no key of the final vector has. *)
Lemma scenario_A_any_allocator :
  ∃ v refs,
    assign_rows env (partitionColumns scenario_A_config) scenario_A_columns
      [0; 1; 2]%nat (mkKeyVector 0 0 []) (mkHeap [] 0) [0; 0; 0]
    = Done (inr (v, refs))
    ∧ vec_elems v
      = [mkStdString "dt=2024-01-01/" 0; mkStdString "dt=2024-01-02/" 0]
    ∧ select_idx refs 0
        (data env (vec_base v) 0 (mkStdString "dt=2024-01-01/" 0)) = []
    ∧ select_idx refs 0
        (data env (vec_base v) 1 (mkStdString "dt=2024-01-02/" 0)) = [2%nat].
Proof.
  assert (∀ i key,
            derive_key calm_env (partitionColumns scenario_A_config)
              scenario_A_columns 0 i "" = Done (inr key) →
            derive_key env (partitionColumns scenario_A_config)
              scenario_A_columns 0 i "" = Done (inr key)) as Hkey.
  { intros i key <-. by apply derive_key_env. }
  assert (∀ key, (String.length key ≤ 14)%nat → is_inline env key = true)
    as Hin.
  { intros key H. unfold is_inline. apply Nat.leb_le. lia. }
  assert (is_inline env "dt=2024-01-01/" = true) as HinA
    by (apply Hin; vm_compute; lia).
  assert (is_inline env "dt=2024-01-02/" = true) as HinB
    by (apply Hin; vm_compute; lia).
  set (S1 := string_size env * Z.of_nat 1).
  set (S2 := string_size env * Z.of_nat 2).
  set (b1 := malloc env 0 [] S1).
  set (b2 := malloc env 1 [mkBlock b1 S1] S2).
  exists (mkKeyVector b2 2
            [mkStdString "dt=2024-01-01/" 0; mkStdString "dt=2024-01-02/" 0]),
         [b1 + string_size env * Z.of_nat 0 + inline_offset env;
          b1 + string_size env * Z.of_nat 0 + inline_offset env;
          b2 + string_size env * Z.of_nat 1 + inline_offset env].
  split; [|split; [done|]].
  - vector_step.
    rewrite (assign_row_new_inline env _ _ 0 _ _ _ "dt=2024-01-01/");
      [|by apply Hkey; vm_compute|done|done].
    rewrite emplace_back_full_inline by done. vector_step.
    fold S1. fold b1.
    rewrite (assign_row_found env _ _ 1 _ _ _ "dt=2024-01-01/" 0
               (mkStdString "dt=2024-01-01/" 0));
      [|by apply Hkey; vm_compute|by vm_compute].
    vector_step.
    rewrite (assign_row_new_inline env _ _ 2 _ _ _ "dt=2024-01-02/");
      [|by apply Hkey; vm_compute|by vm_compute|done].
    rewrite emplace_back_full_inline by done. vector_step.
    fold S1. fold S2. fold b2. unfold data. vector_step.
    by rewrite HinA.
  - assert (0 < S1 ∧ S2 = S1 + S1) as [HS1 HS2] by (unfold S1, S2; lia).
    assert (0 < S2) as HS2' by lia.
    destruct (Hmalloc 1%nat [mkBlock b1 S1] S2 (mkBlock b1 S1) HS2'
                ltac:(by left) HS1) as [Hd|Hd]; fold b2 in Hd; simpl in Hd;
      unfold data; cbn -[Z.mul Z.of_nat is_inline]; rewrite ?HinA, ?HinB;
      cbn -[Z.mul Z.of_nat]; fold S1;
      rewrite !bool_decide_eq_false_2 by lia;
      (split; [done|]); rewrite bool_decide_eq_true_2 by lia; done.
Qed.
End AnyAllocator.

(** C1, the code at Scenario A of the specification (string layout of
    libstdc++, first-fit allocator).  The rows 0 and 1 have the key
    "dt=2024-01-01/" and row 2 the key "dt=2024-01-02/".  [send_chunk]
    returns OK, yet the writer of "dt=2024-01-01/" received a chunk without
    rows and the writer of "dt=2024-01-02/" received row 2 only: the rows 0
    and 1 were written nowhere. *)
Theorem scenario_A_rows_not_written :
  let written := bind_slot_ids (slots scenario_A_config) 0
                   (reset_slot_id_to_index scenario_A_chunk) in
  let key i := derive_key calm_env (partitionColumns scenario_A_config)
                 scenario_A_columns 0 i "" in
  resolve_partition_columns scenario_A_config written = Done scenario_A_columns
  ∧ key 0%nat = Done (inr "dt=2024-01-01/")
  ∧ key 1%nat = Done (inr "dt=2024-01-01/")
  ∧ key 2%nat = Done (inr "dt=2024-01-02/")
  ∧ send_chunk scenario_A_config calm_env scenario_A_chunk initial_sink
    = Done (OK, scenario_A_sink, written)
  ∧ chunks_written scenario_A_sink "dt=2024-01-01/" = Some [[[]; []]]
  ∧ chunks_written scenario_A_sink "dt=2024-01-02/"
    = Some [[[DTimestamp 1704153900]; [DOther 3]]].
Proof. repeat split; vm_compute; reflexivity. Qed.

(** ** Keys longer than the inline capacity *)

Lemma select_idx_spec refs p : ∀ k i,
  i ∈ select_idx refs k p ↔ ∃ j, i = (k + j)%nat ∧ refs !! j = Some p.
Proof.
  induction refs as [|r refs IH]; intros k i; simpl.
  - split; [by intros H%elem_of_nil|by intros (j & _ & H)].
  - case_bool_decide as Hr.
    + rewrite elem_of_cons, IH. split.
      * intros [->|(j & -> & Hj)].
        { exists 0%nat. split; [lia|]. by rewrite Hr. }
        exists (S j). split; [lia|done].
      * intros ([|j] & -> & Hj); [left; lia|].
        right. exists j. split; [lia|done].
    + rewrite IH. split.
      * intros (j & -> & Hj). exists (S j). split; [lia|done].
      * intros ([|j] & -> & Hj); simpl in Hj; [congruence|].
        exists j. split; [lia|done].
Qed.

Lemma NoDup_snoc_fresh {A} (l : list A) x : NoDup l → x ∉ l → NoDup (l ++ [x]).
Proof.
  intros Hl Hx. apply NoDup_app. split; [done|].
  split; [|by apply NoDup_singleton].
  intros y Hy. rewrite list_elem_of_singleton. by intros ->.
Qed.

Lemma deallocate_inv base h :
  heap_inv h →
  heap_inv (deallocate base h)
  ∧ ∀ x, x ∈ bases (deallocate base h) ↔ x ∈ bases h ∧ x ≠ base.
Proof.
  intros [Hnd Hpos]. unfold bases, deallocate in *. simpl.
  assert (∀ x, x ∈ blk_base <$> filter (λ b, blk_base b ≠ base) (live h)
               ↔ x ∈ blk_base <$> live h ∧ x ≠ base) as Hin.
  { intros x. rewrite !list_elem_of_fmap. split.
    - intros (b & -> & Hb). apply list_elem_of_filter in Hb as [Hb Hin].
      split; [by exists b|done].
    - intros [(b & -> & Hb) Hne]. exists b. split; [done|].
      by apply list_elem_of_filter. }
  split; [|done]. split; simpl.
  - clear Hin Hpos. induction (live h) as [|b l IH]; simpl in *; [done|].
    apply NoDup_cons in Hnd as [Hb Hl]. rewrite filter_cons.
    case_decide; [|by apply IH]. simpl.
    apply NoDup_cons. split; [|by apply IH].
    intros Hin'. apply list_elem_of_fmap in Hin' as (b' & Heq & Hb').
    apply list_elem_of_filter in Hb' as [_ Hb'].
    apply Hb. rewrite Heq. by apply list_elem_of_fmap_2.
  - apply Forall_forall. intros b Hb. apply list_elem_of_filter in Hb as [_ Hb].
    rewrite Forall_forall in Hpos. by apply Hpos.
Qed.

Section LongKeys.
Variable env : Env.
Hypothesis Hmalloc : valid_malloc env.
Hypothesis Hsize : 0 < string_size env.

(** A valid allocator returns a block whose base no live block has. *)
Lemma allocate_fresh size h :
  heap_inv h → 0 < size →
  (fst (allocate env size h) ∉ bases h)
  ∧ heap_inv (snd (allocate env size h))
  ∧ bases (snd (allocate env size h))
    = bases h ++ [fst (allocate env size h)].
Proof.
  intros [Hnd Hpos] Hs. unfold allocate, bases in *. simpl.
  set (p := malloc env (allocations h) (live h) size).
  assert (p ∉ blk_base <$> live h) as Hp.
  { intros Hin. apply list_elem_of_fmap in Hin as (b & Hb & Hin).
    rewrite Forall_forall in Hpos. specialize (Hpos b Hin).
    destruct (Hmalloc (allocations h) (live h) size b Hs Hin Hpos);
      unfold p in Hb; lia. }
  split; [done|]. split; [|by rewrite fmap_app].
  split; unfold bases; simpl.
  - rewrite fmap_app. by apply NoDup_snoc_fresh.
  - apply Forall_app. split; [done|]. by repeat constructor.
Qed.

Lemma vector_inv_initial : vector_inv env (mkKeyVector 0 0 []) (mkHeap [] 0).
Proof.
  split; simpl; try by constructor.
  - split; by constructor.
  - intros s H. by apply elem_of_nil in H.
  - lia.
Qed.

(** Copying a long key allocates its buffer. *)
Lemma copy_string_long key h :
  heap_inv h → is_inline env key = false →
  ∃ p, copy_string env key h
       = (mkStdString key p,
          snd (allocate env (Z.of_nat (String.length key) + 1) h))
       ∧ (p ∉ bases h)
       ∧ heap_inv (snd (allocate env (Z.of_nat (String.length key) + 1) h))
       ∧ bases (snd (allocate env (Z.of_nat (String.length key) + 1) h))
         = bases h ++ [p].
Proof.
  intros Hh Hkey. unfold copy_string. rewrite Hkey.
  destruct (allocate_fresh (Z.of_nat (String.length key) + 1) h Hh)
    as (Hp & Hh' & Hb); [lia|].
  exists (fst (allocate env (Z.of_nat (String.length key) + 1) h)).
  by destruct (allocate env _ h).
Qed.

(** Appending a long key that is not in the vector. *)
Lemma emplace_back_long key v h :
  vector_inv env v h →
  is_inline env key = false →
  key ∉ str_value <$> vec_elems v →
  vector_inv env (emplace_back env key v h).1 (emplace_back env key v h).2
  ∧ ∃ s, vec_elems (emplace_back env key v h).1 = vec_elems v ++ [s]
         ∧ str_value s = key.
Proof.
  intros [Hheap Hheaps Hlive Hstorage Hvalues Hlong Hcapacity] Hkey Hnew.
  assert (∀ x, x ∈ str_heap <$> vec_elems v → x ∈ bases h) as Hsub.
  { intros x Hx. apply list_elem_of_fmap in Hx as (s & -> & Hs).
    by apply Hlive. }
  unfold emplace_back.
  destruct (length (vec_elems v) <? vec_capacity v)%nat eqn:Hfull.
  - (* room left: only the buffer of the key is allocated *)
    apply Nat.ltb_lt in Hfull.
    destruct (copy_string_long key h Hheap Hkey) as (p & -> & Hp & Hheap' & Hb).
    set (h' := snd (allocate env _ h)) in *. clearbody h'.
    simpl. split; [|by eexists]. split; simpl; rewrite ?Hb, ?fmap_snoc; simpl.
    + done.
    + apply NoDup_snoc_fresh; [done|]. intros H. by apply Hp, Hsub.
    + intros s. rewrite elem_of_app, list_elem_of_singleton.
      intros [Hs| ->]; apply elem_of_app; [left; by apply Hlive|right; by left].
    + intros Hcap. destruct (Hstorage Hcap) as [Hin Hnot].
      split; [set_solver|]. rewrite elem_of_app, list_elem_of_singleton.
      intros [H|H]; [done|]. apply Hp. by rewrite <- H.
    + by apply NoDup_snoc_fresh.
    + apply Forall_app. split; [done|]. by repeat constructor.
    + rewrite length_app. simpl. lia.
  - (* full: new storage, then the buffer of the key, then the release *)
    apply Nat.ltb_ge in Hfull.
    set (n := length (vec_elems v)) in *.
    destruct (allocate_fresh (string_size env * Z.of_nat (n + Nat.max n 1)) h
                Hheap) as (Hb & Hheap1 & Hbases1); [nia|].
    destruct (allocate env (string_size env * Z.of_nat (n + Nat.max n 1)) h)
      as [b h1]. simpl in Hb, Hheap1, Hbases1.
    destruct (copy_string_long key h1 Hheap1 Hkey)
      as (p & -> & Hp & Hheap2 & Hbases2).
    set (h2 := snd (allocate env _ h1)) in *. clearbody h2.
    rewrite Hbases1 in Hp, Hbases2.
    assert (p ≠ b) as Hpb by set_solver.
    assert (p ∉ bases h) as Hph by set_solver.
    split; [|by eexists].
    destruct (0 <? vec_capacity v)%nat eqn:Hcap; simpl.
    + apply Nat.ltb_lt in Hcap. destruct (Hstorage Hcap) as [Hin Hnot].
      destruct (deallocate_inv (vec_base v) h2 Hheap2) as [Hheap3 Hbases3].
      assert (b ≠ vec_base v) as Hbv by (by intros ->).
      assert (p ≠ vec_base v) as Hpv by (by intros ->).
      split; simpl; rewrite ?fmap_snoc; simpl.
      * done.
      * apply NoDup_snoc_fresh; [done|]. intros H. by apply Hph, Hsub.
      * intros s. rewrite elem_of_app, list_elem_of_singleton.
        intros [Hs| ->]; apply Hbases3; rewrite Hbases2; simpl.
        { specialize (Hlive s Hs). split; [set_solver|].
          intros Heq. apply Hnot. rewrite <- Heq.
          by apply list_elem_of_fmap_2. }
        split; [set_solver|done].
      * intros _. split.
        { apply Hbases3. rewrite Hbases2. split; [set_solver|done]. }
        rewrite elem_of_app, list_elem_of_singleton.
        intros [H|H]; [by apply Hb, Hsub|]. by apply Hpb.
      * by apply NoDup_snoc_fresh.
      * apply Forall_app. split; [done|]. by repeat constructor.
      * rewrite length_app. simpl. fold n. lia.
    + apply Nat.ltb_ge in Hcap.
      assert (vec_elems v = []) as Hnil.
      { apply nil_length_inv. fold n. lia. }
      split; simpl; rewrite ?Hnil; simpl; try done.
      * apply NoDup_singleton.
      * intros s Hs. apply list_elem_of_singleton in Hs as ->. simpl.
        rewrite Hbases2. set_solver.
      * intros _. split; [rewrite Hbases2; set_solver|].
        intros H. apply list_elem_of_singleton in H. by apply Hpb.
      * apply NoDup_singleton.
      * by repeat constructor.
      * unfold n. rewrite Hnil. simpl. lia.
Qed.

Lemma data_long base j s :
  is_inline env (str_value s) = false → data env base j s = str_heap s.
Proof. unfold data. by intros ->. Qed.

(** One row whose key is long: the cached pointer is the heap buffer of the
    element of the vector that holds the key. *)
Lemma assign_row_long pcs arr i v h refs key :
  vector_inv env v h →
  derive_key env pcs arr 0 i "" = Done (inr key) →
  is_inline env key = false →
  ∃ v' h' s,
    assign_row env pcs arr i v h refs
    = Done (inr (v', h', <[i := str_heap s]> refs))
    ∧ vector_inv env v' h'
    ∧ s ∈ vec_elems v' ∧ str_value s = key
    ∧ (∀ s', s' ∈ vec_elems v → s' ∈ vec_elems v')
    ∧ (∀ s', s' ∈ vec_elems v' → s' ∈ vec_elems v ∨ str_value s' = key).
Proof.
  intros Hinv Hkey Hlong. unfold assign_row. rewrite Hkey.
  destruct (find_key key (vec_elems v)) as [[j s]|] eqn:Hfind.
  - rewrite Hfind. unfold find_key in Hfind.
    apply list_find_Some in Hfind as (Hj & Hs & _).
    exists v, h, s. rewrite data_long by (by rewrite Hs).
    split; [done|]. split; [done|].
    split; [by eapply list_elem_of_lookup_2|]. split; [done|]. by auto.
  - assert (key ∉ str_value <$> vec_elems v) as Hnew.
    { intros Hin. apply list_elem_of_fmap in Hin as (s & -> & Hs).
      unfold find_key in Hfind. rewrite list_find_None, Forall_forall in Hfind.
      by apply (Hfind s Hs). }
    destruct (emplace_back_long key v h Hinv Hlong Hnew)
      as (Hinv' & s & Helems & Hs).
    destruct (emplace_back env key v h) as [v1 h1]. simpl in *.
    rewrite Helems, (find_key_app_new key _ s) by done.
    exists v1, h1, s. rewrite data_long by (by rewrite Hs).
    split; [done|]. split; [done|]. rewrite Helems.
    split; [set_solver|]. split; [done|]. split; [set_solver|].
    intros s'. rewrite elem_of_app, list_elem_of_singleton.
    intros [?| ->]; by auto.
Qed.

Lemma assign_rows_long pcs arr (key_of : nat → string) : ∀ m k v h refs,
  vector_inv env v h →
  length refs = (k + m)%nat →
  (∀ i, (k ≤ i < k + m)%nat →
     derive_key env pcs arr 0 i "" = Done (inr (key_of i))
     ∧ is_inline env (key_of i) = false) →
  ∃ v' refs',
    assign_rows env pcs arr (seq k m) v h refs = Done (inr (v', refs'))
    ∧ (∃ h', vector_inv env v' h')
    ∧ length refs' = (k + m)%nat
    ∧ (∀ i, (i < k)%nat → refs' !! i = refs !! i)
    ∧ (∀ i, (k ≤ i < k + m)%nat →
         ∃ s, s ∈ vec_elems v' ∧ str_value s = key_of i
              ∧ refs' !! i = Some (str_heap s))
    ∧ (∀ s, s ∈ vec_elems v → s ∈ vec_elems v')
    ∧ (∀ s, s ∈ vec_elems v' →
         s ∈ vec_elems v
         ∨ ∃ i, (k ≤ i < k + m)%nat ∧ str_value s = key_of i).
Proof.
  induction m as [|m IH]; intros k v h refs Hinv Hlen Hkeys; simpl.
  - exists v, refs. split; [done|]. split; [by exists h|].
    split; [done|]. split; [done|]. split; [intros i Hi; lia|]. by auto.
  - destruct (Hkeys k) as [Hkey Hlong]; [lia|].
    destruct (assign_row_long pcs arr k v h refs (key_of k) Hinv Hkey Hlong)
      as (v1 & h1 & s & -> & Hinv1 & Hs & Hsv & Hgrow & Hfrom).
    destruct (IH (S k) v1 h1 (<[k := str_heap s]> refs) Hinv1)
      as (v' & refs' & -> & Hinv' & Hlen' & Hold & Hnew & Hgrow' & Hfrom').
    { rewrite length_insert. lia. }
    { intros i Hi. apply Hkeys. lia. }
    exists v', refs'. split; [done|]. split; [done|]. split; [lia|].
    split; [|split; [|split]].
    + intros i Hi. rewrite Hold by lia. apply list_lookup_insert_ne. lia.
    + intros i Hi. destruct (decide (i = k)) as [->|Hne].
      * exists s. split; [by apply Hgrow'|]. split; [done|].
        rewrite Hold by lia. apply list_lookup_insert_eq. lia.
      * apply Hnew. lia.
    + by auto.
    + intros s' Hs'. destruct (Hfrom' s' Hs') as [H|(i & Hi & H)].
      * destruct (Hfrom s' H) as [?|?]; [by left|].
        right. exists k. split; [lia|done].
      * right. exists i. split; [lia|done].
Qed.

Lemma NoDup_fmap_eq {A B} (f : A → B) (l : list A) x y :
  NoDup (f <$> l) → x ∈ l → y ∈ l → f x = f y → x = y.
Proof.
  induction l as [|a l IH]; simpl; [by intros _ H%elem_of_nil|].
  rewrite NoDup_cons, !elem_of_cons. intros [Ha Hl] [->|Hx] [->|Hy] Hf; auto.
  - destruct Ha. rewrite Hf. by apply list_elem_of_fmap_2.
  - destruct Ha. rewrite <- Hf. by apply list_elem_of_fmap_2.
Qed.

(** When every key of the batch is longer than the inline capacity, the
    keys are enumerated once each and the rows selected for a key by pointer
    comparison are the rows that have this key. *)
Theorem grouping_by_value_for_long_keys pcs arr n (key_of : nat → string) :
  (∀ i, (i < n)%nat →
     derive_key env pcs arr 0 i "" = Done (inr (key_of i))
     ∧ is_inline env (key_of i) = false) →
  ∃ v refs,
    assign_rows env pcs arr (seq 0 n) (mkKeyVector 0 0 []) (mkHeap [] 0)
      (replicate n 0) = Done (inr (v, refs))
    ∧ NoDup (str_value <$> vec_elems v)
    ∧ (∀ key, key ∈ str_value <$> vec_elems v
              ↔ ∃ i, (i < n)%nat ∧ key_of i = key)
    ∧ (∀ j s, vec_elems v !! j = Some s →
         ∀ i, i ∈ select_idx refs 0 (data env (vec_base v) j s)
              ↔ (i < n)%nat ∧ key_of i = str_value s).
Proof.
  intros Hkeys.
  destruct (assign_rows_long pcs arr key_of n 0 (mkKeyVector 0 0 [])
              (mkHeap [] 0) (replicate n 0) vector_inv_initial)
    as (v & refs & Hrun & [h Hinv] & Hlen & _ & Hrefs & _ & Hfrom).
  { by rewrite length_replicate. }
  { intros i Hi. apply Hkeys. lia. }
  exists v, refs. split; [done|].
  destruct Hinv as [_ Hheaps _ _ Hvalues Hlong _].
  split; [done|]. split.
  - intros key. split.
    + intros Hin. apply list_elem_of_fmap in Hin as (s & -> & Hs).
      destruct (Hfrom s Hs) as [H|(i & Hi & H)]; [by apply elem_of_nil in H|].
      exists i. split; [lia|done].
    + intros (i & Hi & <-). destruct (Hrefs i) as (s & Hs & <- & _); [lia|].
      by apply list_elem_of_fmap_2.
  - intros j s Hj i.
    assert (s ∈ vec_elems v) as Hs by by eapply list_elem_of_lookup_2.
    rewrite Forall_forall in Hlong. rewrite data_long by by apply Hlong.
    rewrite select_idx_spec. split.
    + intros (i' & -> & Hi'). simpl.
      assert (i' < n)%nat as Hlt.
      { apply lookup_lt_Some in Hi'. lia. }
      split; [done|].
      destruct (Hrefs i') as (s' & Hs' & Hv' & Hr'); [lia|].
      rewrite Hi' in Hr'. injection Hr' as Hr'.
      rewrite <- Hv'.
      by rewrite (NoDup_fmap_eq str_heap (vec_elems v) s s' Hheaps Hs Hs' Hr').
    + intros [Hi Hkey]. exists i. split; [done|].
      destruct (Hrefs i) as (s' & Hs' & Hv' & Hr'); [lia|].
      rewrite Hr'. do 2 f_equal.
      apply (NoDup_fmap_eq str_value (vec_elems v) s' s Hvalues Hs' Hs).
      by rewrite Hv'.
Qed.
End LongKeys.


(** ** The first-fit allocator *)

Lemma foldr_min_elem c rest : foldr Z.min c rest ∈ c :: rest.
Proof.
  induction rest as [|x rest IH]; simpl; [by left|].
  destruct (Z.min_spec x (foldr Z.min c rest)) as [[_ ->]|[_ ->]].
  - right. by left.
  - apply elem_of_cons in IH as [->|IH]; [by left|]. right. by right.
Qed.

Lemma foldr_max_bound z0 zs z : z ∈ zs → z ≤ foldr Z.max z0 zs.
Proof.
  induction zs as [|x zs IH]; simpl; [by intros H%elem_of_nil|].
  intros [->|H]%elem_of_cons; [lia|]. specialize (IH H). lia.
Qed.

Lemma first_fit_valid n blocks size b :
  0 < size → b ∈ blocks → 0 < blk_size b →
  first_fit n blocks size + size ≤ blk_base b
  ∨ blk_base b + blk_size b ≤ first_fit n blocks size.
Proof.
  intros Hsize Hb Hpos. unfold first_fit.
  set (candidates := 4096 :: _).
  destruct (filter _ candidates) as [|c rest] eqn:Hfree.
  - right. apply foldr_max_bound. apply list_elem_of_fmap. by exists b.
  - pose proof (foldr_min_elem c rest) as Hin. rewrite <- Hfree in Hin.
    apply list_elem_of_filter in Hin as [Hfit _].
    rewrite forallb_forall in Hfit.
    specialize (Hfit b (proj1 (list_elem_of_In _ _) Hb)).
    unfold overlaps in Hfit. apply negb_true_iff, andb_false_iff in Hfit.
    destruct Hfit as [H|H]; apply Z.ltb_ge in H; lia.
Qed.

Lemma calm_env_valid_malloc : valid_malloc calm_env.
Proof. intros n blocks size b. apply first_fit_valid. Qed.

(** Scenario A with keys of 22 bytes ("event_date=2024-01-01/"): the keys live
    in heap buffers and the three rows reach the writers of their keys. *)
Lemma long_names_grouped_by_value :
  let st := sink_after long_name_config calm_env scenario_A_chunk initial_sink in
  chunks_written st "event_date=2024-01-01/"
  = Some [[[DTimestamp 1704067800; DTimestamp 1704153000]; [DOther 1; DOther 2]]]
  ∧ chunks_written st "event_date=2024-01-02/"
    = Some [[[DTimestamp 1704153900]; [DOther 3]]].
Proof. split; vm_compute; reflexivity. Qed.

(** * Further properties of the sink *)

(** ** prepare *)

Lemma check_types_spec rs exprs : ∀ ss,
  length exprs = length ss →
  ∃ s, check_types rs exprs ss = Done s
       ∧ (s = OK ↔
          ∀ i e slot, exprs !! i = Some e → ss !! i = Some slot →
            is_type_compatible rs (expr_type rs e) (slot_type rs slot) = true).
Proof.
  induction exprs as [|e exprs IH]; intros [|slot ss] Hlen; simpl in *; try lia.
  - exists OK. split; [done|]. split; [by intros _ i ?? H|done].
  - destruct (is_type_compatible rs (expr_type rs e) (slot_type rs slot)) eqn:Hc.
    + destruct (IH ss) as (s & -> & Hs); [lia|]. exists s. split; [done|].
      rewrite Hs. split.
      * intros H [|i] e' slot' He Hslot; simpl in *; [by simplify_eq|by eauto].
      * intros H i e' slot' He Hslot. by apply (H (S i)).
    + eexists. split; [done|]. split; [done|].
      intros H. specialize (H 0%nat e slot eq_refl eq_refl). congruence.
Qed.

(** X1. [prepare] always returns, and it returns OK exactly when the base
    sink and the expressions could be prepared, the destination tuple
    descriptor is known and, if there are output expressions, there are as
    many of them as slots and each one's type is compatible with its slot's;
    the descriptor is then the one of the table.  Without output
    expressions neither the number nor the types of the slots are looked
    at. *)
Theorem prepare_accepts_iff rs id exprs old :
  (∃ r, prepare rs id exprs old = Done r)
  ∧ (∀ od,
       prepare rs id exprs old = Done (OK, od) ↔
       data_sink_prepare rs = OK ∧ expr_prepare rs = OK
       ∧ ∃ ss, get_tuple_descriptor rs id = Some ss ∧ od = Some ss
           ∧ (exprs = []
              ∨ length exprs = length ss
                ∧ ∀ i e slot, exprs !! i = Some e → ss !! i = Some slot →
                    is_type_compatible rs (expr_type rs e) (slot_type rs slot)
                    = true)).
Proof.
  unfold prepare.
  destruct (data_sink_prepare rs) as [|c1 m1]; simpl.
  2:{ split; [by eexists|]. intros od. split; [done|]. by intros [? _]. }
  destruct (expr_prepare rs) as [|c2 m2]; simpl.
  2:{ split; [by eexists|]. intros od. split; [done|]. by intros (_ & ? & _). }
  destruct (get_tuple_descriptor rs id) as [ss|].
  2:{ split; [by eexists|]. intros od. split; [done|].
      by intros (_ & _ & ss & ? & _). }
  destruct exprs as [|e exprs].
  { split; [by eexists|]. intros od. split.
    - intros [= <-]. repeat split; try done. exists ss. by auto.
    - intros (_ & _ & ss' & [= <-] & -> & _). done. }
  destruct (length (e :: exprs) =? length ss)%nat eqn:Hlen.
  - apply Nat.eqb_eq in Hlen.
    destruct (check_types_spec rs (e :: exprs) ss Hlen) as (s & -> & Hs).
    split; [by eexists|]. intros od. split.
    + intros [= -> <-]. repeat split; try done. exists ss.
      split; [done|]. split; [done|]. right. split; [done|]. by apply Hs.
    + intros (_ & _ & ss' & [= <-] & -> & [?|[_ H]]); [done|].
      apply Hs in H. by rewrite H.
  - apply Nat.eqb_neq in Hlen. split; [by eexists|]. intros od. split; [done|].
    intros (_ & _ & ss' & [= <-] & _ & [?|[? _]]); done.
Qed.

(** ** The output chunk *)

(** The slots bound by [bind_slot_ids] do not depend on the columns. *)
Lemma bind_slot_ids_map ss : ∀ i c1 c2,
  slot_id_to_index c1 = slot_id_to_index c2 →
  slot_id_to_index (bind_slot_ids ss i c1)
  = slot_id_to_index (bind_slot_ids ss i c2).
Proof.
  induction ss as [|s ss IH]; intros i c1 c2 H; simpl; [done|].
  apply IH. simpl. by rewrite H.
Qed.

(** The loop over the expressions either stops at the first expression that
    fails or appends one column per expression and binds the slots as
    [bind_slot_ids] does. *)
Lemma evaluate_exprs_run rows chunk exprs : ∀ ss out,
  (length exprs ≤ length ss)%nat →
  Forall (evaluates chunk) exprs →
  evaluate_exprs exprs ss rows chunk out
  = Done (inr (mkChunk
                 (columns out
                  ++ ((λ e, output_column rows (e chunk)) <$> exprs))
                 (slot_id_to_index
                    (bind_slot_ids (take (length exprs) ss)
                       (length (columns out)) out)))).
Proof.
  induction exprs as [|e exprs IH]; intros ss out Hlen Hev; simpl.
  - rewrite app_nil_r. by destruct out.
  - apply Forall_cons in Hev as [He Hev].
    destruct ss as [|slot ss]; simpl in *; [lia|].
    destruct (e chunk) as [s| | |] eqn:E; [by destruct (He s)|..];
      rewrite IH by (done || lia); simpl;
      rewrite length_app, <- app_assoc; simpl;
      replace (length (columns out) + 1)%nat with (S (length (columns out)))
        by lia;
      do 3 f_equal; by apply bind_slot_ids_map.
Qed.

Lemma evaluate_exprs_fails rows chunk l1 e l2 s : ∀ ss out,
  (length l1 ≤ length ss)%nat →
  Forall (evaluates chunk) l1 →
  e chunk = EvalFails s →
  evaluate_exprs (l1 ++ e :: l2) ss rows chunk out = Done (inl s).
Proof.
  induction l1 as [|e1 l1 IH]; intros ss out Hlen Hev He; simpl.
  - by rewrite He.
  - apply Forall_cons in Hev as [He1 Hev].
    destruct ss as [|slot ss]; simpl in *; [lia|].
    destruct (e1 chunk) eqn:E; try (apply IH; (done || lia)).
    by destruct (He1 s0).
Qed.

(** Every expression either evaluates or fails. *)
Lemma evaluates_or_fails chunk exprs :
  Forall (evaluates chunk) exprs
  ∨ ∃ l1 e l2 s, exprs = l1 ++ e :: l2 ∧ Forall (evaluates chunk) l1
                 ∧ e chunk = EvalFails s.
Proof.
  induction exprs as [|e exprs IH]; [by left|].
  destruct (e chunk) as [s| | |] eqn:E.
  - right. exists [], e, exprs, s. by repeat split.
  - destruct IH as [H|(l1 & e' & l2 & s & -> & Hl1 & He')].
    + left. constructor; [|done]. intros s. by rewrite E.
    + right. exists (e :: l1), e', l2, s. repeat split; try done.
      constructor; [|done]. intros s'. by rewrite E.
  - destruct IH as [H|(l1 & e' & l2 & s & -> & Hl1 & He')].
    + left. constructor; [|done]. intros s. by rewrite E.
    + right. exists (e :: l1), e', l2, s. repeat split; try done.
      constructor; [|done]. intros s'. by rewrite E.
  - destruct IH as [H|(l1 & e' & l2 & s & -> & Hl1 & He')].
    + left. constructor; [|done]. intros s. by rewrite E.
    + right. exists (e :: l1), e', l2, s. repeat split; try done.
      constructor; [|done]. intros s'. by rewrite E.
Qed.

(** Every slot is bound by [bind_slot_ids], to the position of a slot of the
    same id. *)
Lemma bind_slot_ids_all_bound ss : ∀ i chunk slot,
  slot ∈ ss →
  ∃ k s, ss !! k = Some s ∧ slot_id s = slot_id slot
         ∧ slot_id_to_index (bind_slot_ids ss i chunk) !! slot_id slot
           = Some (i + k)%nat.
Proof.
  induction ss as [|s0 ss IH]; intros i chunk slot Hin;
    [by apply elem_of_nil in Hin|].
  simpl. destruct (decide (slot_id slot ∈ slot_id <$> ss)) as [Hlater|Hlast].
  - apply list_elem_of_fmap in Hlater as (s' & Heq & Hs').
    destruct (IH (S i) (set_slot_id_to_index (slot_id s0) i chunk) s' Hs')
      as (k & s & Hk & Hid & Hb).
    exists (S k), s. split; [done|]. split; [congruence|].
    rewrite Heq, Hb. f_equal. lia.
  - assert (slot = s0) as ->.
    { apply elem_of_cons in Hin as [?|Hin]; [done|].
      destruct Hlast. by apply list_elem_of_fmap_2. }
    exists 0%nat, s0. split; [done|]. split; [done|].
    rewrite bind_slot_ids_other by done. simpl.
    rewrite lookup_insert_eq. f_equal. lia.
Qed.

Lemma bind_slot_ids_dom ss : ∀ i chunk,
  dom (slot_id_to_index (bind_slot_ids ss i chunk))
  = list_to_set (slot_id <$> ss) ∪ dom (slot_id_to_index chunk).
Proof.
  induction ss as [|s ss IH]; intros i chunk; simpl; [set_solver|].
  rewrite IH. simpl. rewrite dom_insert_L. set_solver.
Qed.

Lemma size_list_to_set_le (l : list Z) :
  (size (list_to_set l : gset Z) ≤ length l)%nat.
Proof.
  induction l as [|x l IH].
  { rewrite list_to_set_nil, size_empty. simpl. lia. }
  rewrite list_to_set_cons, size_union_alt, size_singleton. simpl.
  assert (size (list_to_set l ∖ {[x]} : gset Z)
          ≤ size (list_to_set l : gset Z))%nat
    by (apply subseteq_size; set_solver).
  lia.
Qed.

Lemma size_list_to_set_NoDup (l : list Z) :
  size (list_to_set l : gset Z) = length l ↔ NoDup l.
Proof.
  split; [|apply size_list_to_set].
  induction l as [|x l IH]; [constructor|].
  rewrite list_to_set_cons. simpl length.
  intros Hsize. destruct (decide (x ∈ l)) as [Hin|Hnot].
  - assert ({[x]} ∪ list_to_set l = (list_to_set l : gset Z)) as Heq
      by set_solver.
    rewrite Heq in Hsize. pose proof (size_list_to_set_le l). lia.
  - constructor; [done|]. apply IH.
    rewrite size_union in Hsize by set_solver.
    rewrite size_singleton in Hsize. lia.
Qed.

(** The chunk that is written when every expression evaluates. *)
Lemma output_chunk_evaluated cfg chunk :
  _output_expr_ctxs cfg ≠ [] →
  (length (_output_expr_ctxs cfg) ≤ length (slots cfg))%nat →
  Forall (evaluates chunk) (_output_expr_ctxs cfg) →
  output_chunk cfg chunk
  = Done (inr (mkChunk
                 ((λ e, output_column (num_rows chunk) (e chunk))
                    <$> _output_expr_ctxs cfg)
                 (slot_id_to_index
                    (bind_slot_ids
                       (take (length (_output_expr_ctxs cfg)) (slots cfg))
                       0 (mkChunk [] ∅))),
               chunk)).
Proof.
  intros Hne Hlen Hev. unfold output_chunk.
  destruct (_output_expr_ctxs cfg) as [|e exprs] eqn:Hexprs; [done|].
  by rewrite evaluate_exprs_run.
Qed.

(** The head of [send_chunk] stops at the first expression that fails. *)
Lemma output_chunk_fails cfg chunk l1 e l2 s :
  _output_expr_ctxs cfg = l1 ++ e :: l2 →
  (length l1 ≤ length (slots cfg))%nat →
  Forall (evaluates chunk) l1 →
  e chunk = EvalFails s →
  output_chunk cfg chunk = Done (inl s).
Proof.
  intros Hexprs Hlen Hev He. unfold output_chunk.
  destruct (_output_expr_ctxs cfg) as [|e0 exprs] eqn:E;
    [by destruct l1|].
  by rewrite Hexprs, (evaluate_exprs_fails _ chunk l1 e l2 s).
Qed.

(** X2. Once [prepare] accepted a sink with output expressions, the head of
    [send_chunk] never reads a slot that does not exist: it returns the
    status of the first expression that fails or builds a chunk with one
    column per slot in which every slot has its column. *)
Theorem prepared_sink_builds_output_chunk rs id cfg old od chunk :
  prepare rs id (_output_expr_ctxs cfg) old = Done (OK, od) →
  od = Some (slots cfg) →
  _output_expr_ctxs cfg ≠ [] →
  (∃ l1 e l2 s,
     _output_expr_ctxs cfg = l1 ++ e :: l2
     ∧ Forall (evaluates chunk) l1
     ∧ e chunk = EvalFails s
     ∧ output_chunk cfg chunk = Done (inl s))
  ∨ ∃ written,
      output_chunk cfg chunk = Done (inr (written, chunk))
      ∧ length (columns written) = length (slots cfg)
      ∧ Forall (slot_bound written) (slots cfg).
Proof.
  intros Hprep -> Hne.
  apply (proj2 (prepare_accepts_iff rs id _ old) _) in Hprep
    as (_ & _ & ss & _ & [= <-] & [?|[Hlen _]]); [done|].
  destruct (evaluates_or_fails chunk (_output_expr_ctxs cfg))
    as [Hev|(l1 & e & l2 & s & Hexprs & Hl1 & He)].
  - right. eexists. split; [apply output_chunk_evaluated; (done || lia)|].
    simpl. rewrite length_fmap. split; [done|].
    rewrite Hlen, firstn_all. apply Forall_forall. intros slot Hslot.
    destruct (bind_slot_ids_all_bound (slots cfg) 0 (mkChunk [] ∅) slot Hslot)
      as (k & s & Hk & _ & Hb).
    unfold slot_bound, get_column_by_slot_id. simpl. rewrite Hb. simpl.
    apply lookup_lt_Some in Hk. rewrite <- Hlen in Hk.
    destruct (lookup_lt_is_Some_2 (_output_expr_ctxs cfg) k Hk) as [e He].
    rewrite list_lookup_fmap, He. by eexists.
  - left. exists l1, e, l2, s. repeat split; try done.
    apply (output_chunk_fails cfg chunk l1 e l2 s); try done.
    rewrite Hexprs, length_app in Hlen. lia.
Qed.

Lemma prepared_sink_builds_output_chunk_witness :
  (∃ l1 e l2 s,
     _output_expr_ctxs projecting_config = l1 ++ e :: l2
     ∧ Forall (evaluates scenario_A_chunk) l1
     ∧ e scenario_A_chunk = EvalFails s
     ∧ output_chunk projecting_config scenario_A_chunk = Done (inl s))
  ∨ ∃ written,
      output_chunk projecting_config scenario_A_chunk
      = Done (inr (written, scenario_A_chunk))
      ∧ length (columns written) = length (slots projecting_config)
      ∧ Forall (slot_bound written) (slots projecting_config).
Proof.
  apply (prepared_sink_builds_output_chunk example_runtime_state 3
           projecting_config None (Some (slots projecting_config))).
  - reflexivity.
  - reflexivity.
  - discriminate.
Defined.

(** X3. The chunk that is written binds every slot id to a column: the
    number of bound ids (which the DCHECK of [send_chunk] compares with the
    number of slots) equals the number of slots exactly when the ids of the
    slots are pairwise distinct. *)
Theorem slot_map_size_matches_slots cfg chunk written caller :
  output_chunk cfg chunk = Done (inr (written, caller)) →
  _output_expr_ctxs cfg = []
  ∨ length (_output_expr_ctxs cfg) = length (slots cfg) →
  dom (slot_id_to_index written) = list_to_set (slot_id <$> slots cfg)
  ∧ (size (slot_id_to_index written) = length (slots cfg)
     ↔ NoDup (slot_id <$> slots cfg)).
Proof.
  intros Hout Hcase.
  assert (dom (slot_id_to_index written)
          = list_to_set (slot_id <$> slots cfg)) as Hdom.
  { destruct Hcase as [Hnil|Hlen].
    - unfold output_chunk in Hout. rewrite Hnil in Hout.
      injection Hout as <- _. rewrite bind_slot_ids_dom. simpl.
      rewrite dom_empty_L. set_solver.
    - destruct (decide (_output_expr_ctxs cfg = [])) as [Hnil|Hne].
      { unfold output_chunk in Hout. rewrite Hnil in Hout.
        injection Hout as <- _. rewrite bind_slot_ids_dom. simpl.
        rewrite dom_empty_L. set_solver. }
      destruct (evaluates_or_fails chunk (_output_expr_ctxs cfg))
        as [Hev|(l1 & e & l2 & s & Hexprs & Hl1 & He)].
      + rewrite output_chunk_evaluated in Hout by (done || lia).
        injection Hout as <- _. simpl.
        rewrite bind_slot_ids_dom, Hlen, firstn_all. simpl.
        rewrite dom_empty_L. set_solver.
      + rewrite (output_chunk_fails cfg chunk l1 e l2 s) in Hout; try done.
        rewrite Hexprs, length_app in Hlen. lia. }
  split; [done|].
  rewrite <- size_dom, Hdom, <- (length_fmap slot_id).
  apply size_list_to_set_NoDup.
Qed.

Lemma slot_map_size_matches_slots_witness :
  ∃ written,
    output_chunk projecting_config scenario_A_chunk
    = Done (inr (written, scenario_A_chunk))
    ∧ size (slot_id_to_index written) = 2%nat.
Proof.
  eexists. split; [reflexivity|].
  apply (slot_map_size_matches_slots projecting_config scenario_A_chunk _
           scenario_A_chunk eq_refl).
  - by right.
  - repeat constructor; set_solver.
Defined.

(** X4. With as many output expressions as slots and pairwise distinct
    slot ids, looking up the column of the [i]-th slot in the chunk that is
    written gives the column the [i]-th expression evaluated to: a constant
    repeated once per row of the caller's chunk, a full column as it is, and
    a column without rows for a value that is only null. *)
Theorem output_columns_found_by_slot cfg chunk written caller :
  length (_output_expr_ctxs cfg) = length (slots cfg) →
  NoDup (slot_id <$> slots cfg) →
  _output_expr_ctxs cfg ≠ [] →
  output_chunk cfg chunk = Done (inr (written, caller)) →
  ∀ i e slot,
    _output_expr_ctxs cfg !! i = Some e →
    slots cfg !! i = Some slot →
    get_column_by_slot_id written (slot_id slot)
    = Done (output_column (num_rows chunk) (e chunk))
    ∧ (∀ d, e chunk = EvalConst d →
         output_column (num_rows chunk) (e chunk)
         = replicate (num_rows chunk) d)
    ∧ (∀ col, e chunk = EvalColumn col →
         output_column (num_rows chunk) (e chunk) = col)
    ∧ (e chunk = EvalOnlyNull →
       output_column (num_rows chunk) (e chunk) = []).
Proof.
  intros Hlen Hnd Hne Hout i e slot He Hslot.
  split; [|by repeat split; intros; simplify_eq/=; rewrite ?H].
  destruct (evaluates_or_fails chunk (_output_expr_ctxs cfg))
    as [Hev|(l1 & e' & l2 & s & Hexprs & Hl1 & He')].
  2:{ rewrite (output_chunk_fails cfg chunk l1 e' l2 s) in Hout; try done.
      rewrite Hexprs, length_app in Hlen. lia. }
  rewrite output_chunk_evaluated in Hout by (done || lia).
  injection Hout as <- _. unfold get_column_by_slot_id. simpl.
  rewrite Hlen, firstn_all.
  rewrite (bind_slot_ids_bound (slots cfg) 0 _ i slot Hslot).
  - simpl. by rewrite list_lookup_fmap, He.
  - intros j slot' Hj Hslot' Heq.
    assert (i = j); [|lia].
    eapply (NoDup_lookup _ i j (slot_id slot) Hnd);
      rewrite list_lookup_fmap; [by rewrite Hslot|].
    rewrite Hslot'. simpl. congruence.
Qed.

Lemma output_columns_found_by_slot_witness :
  ∃ written,
    output_chunk projecting_config scenario_A_chunk
    = Done (inr (written, scenario_A_chunk))
    ∧ get_column_by_slot_id written 6
      = Done [DOther 7; DOther 7; DOther 7].
Proof.
  eexists. split; [reflexivity|].
  refine (proj1 (output_columns_found_by_slot projecting_config
                   scenario_A_chunk _ scenario_A_chunk eq_refl _ _ eq_refl
                   1%nat (λ _, EvalConst (DOther 7)) (mkSlot "v" 6)
                   eq_refl eq_refl)).
  - repeat constructor; set_solver.
  - discriminate.
Defined.

(** X5. When an output expression fails, [send_chunk] returns its status
    at once: the expressions after it are not evaluated, no writer is
    prepared, nothing is written and the caller's chunk is left as it
    was. *)
Theorem failed_expression_stops_send_chunk cfg env chunk st l1 e l2 s :
  _output_expr_ctxs cfg = l1 ++ e :: l2 →
  (length l1 ≤ length (slots cfg))%nat →
  Forall (evaluates chunk) l1 →
  e chunk = EvalFails s →
  send_chunk cfg env chunk st = Done (s, st, chunk).
Proof.
  intros Hexprs Hlen Hev He. unfold send_chunk.
  by rewrite (output_chunk_fails cfg chunk l1 e l2 s).
Qed.

Lemma failed_expression_stops_send_chunk_witness :
  send_chunk failing_config calm_env scenario_A_chunk one_row_sink
  = Done (Error InternalError "division by zero", one_row_sink,
          scenario_A_chunk).
Proof.
  apply (failed_expression_stops_send_chunk failing_config calm_env
           scenario_A_chunk one_row_sink [first_column] failing_expr []).
  - reflexivity.
  - simpl. lia.
  - repeat constructor. intros s. discriminate.
  - reflexivity.
Defined.

(** ** open *)

(** X6. When the expressions could be opened, [open] sets the timeout of
    the broker file system to the query timeout in milliseconds, capped at
    one hour: for a query timeout that is not negative the result is
    1000 * min(query_timeout, 3600), between 0 and 3 600 000.  When they
    could not, their status is returned and the timeout is left as it
    was. *)
Theorem open_caps_timeout rs timeout_ms :
  (expr_open rs = OK →
   0 ≤ query_timeout rs →
   open rs timeout_ms = Some (OK, 1000 * Z.min (query_timeout rs) 3600)
   ∧ 0 ≤ 1000 * Z.min (query_timeout rs) 3600 ≤ 3600000)
  ∧ (expr_open rs ≠ OK → open rs timeout_ms = Some (expr_open rs, timeout_ms)).
Proof.
  unfold open. split.
  - intros -> Hq. simpl. split; [|lia].
    destruct (Z.ltb_spec 3600 (query_timeout rs)).
    + do 2 f_equal. lia.
    + destruct (Z.leb_spec (- 2 ^ 31) (query_timeout rs * 1000)); [|lia].
      do 2 f_equal. lia.
  - intros H. by destruct (expr_open rs).
Qed.

Lemma open_caps_timeout_witness :
  open example_runtime_state 0 = Some (OK, 300000).
Proof.
  destruct (open_caps_timeout example_runtime_state 0) as [H _].
  destruct (H eq_refl) as [Hopen _]; [vm_compute; discriminate|].
  exact Hopen.
Defined.

(** ** The stripe size *)

Lemma halve_stripe_size_spec : ∀ fuel s,
  0 ≤ s ≤ 2 ^ 26 * 2 ^ Z.of_nat fuel →
  ∃ r k, halve_stripe_size (S fuel) s = Some r
         ∧ 0 ≤ k ∧ r = s / 2 ^ k
         ∧ 0 ≤ r ≤ 2 ^ 26
         ∧ (s ≤ 2 ^ 26 → r = s)
         ∧ (2 ^ 26 < s → 2 ^ 25 ≤ r).
Proof.
  induction fuel as [|fuel IH]; intros s Hs.
  - cbn [halve_stripe_size]. change (64 * 1024 * 1024) with (2 ^ 26).
    change (Z.of_nat 0) with 0 in Hs.
    destruct (Z.ltb_spec (2 ^ 26) s); [lia|].
    exists s, 0. rewrite Z.div_1_r. repeat split; (done || lia).
  - cbn [halve_stripe_size].
    change (64 * 1024 * 1024) with (2 ^ 26).
    destruct (Z.ltb_spec (2 ^ 26) s) as [Hbig|Hsmall].
    + destruct (IH (s / 2)) as (r & k & Hr & Hk & Hdiv & Hrange & Hsame & Hhalf).
      { split; [by apply Z.div_pos; lia|].
        apply Z.div_le_upper_bound; [lia|].
        rewrite Nat2Z.inj_succ, Z.pow_succ_r in Hs by lia. lia. }
      exists r, (k + 1). cbn [halve_stripe_size] in Hr.
      change (64 * 1024 * 1024) with (2 ^ 26) in Hr. rewrite Hr.
      split; [done|]. split; [lia|]. split.
      { rewrite Hdiv, Z.div_div by lia.
        by rewrite Z.add_comm, Z.pow_add_r by lia. }
      split; [done|]. split; [lia|]. intros _.
      destruct (Z.le_gt_cases (s / 2) (2 ^ 26)) as [Hle|Hgt].
      * rewrite (Hsame Hle).
        apply Z.div_le_lower_bound; lia.
      * by apply Hhalf.
    + exists s, 0. rewrite Z.div_1_r. repeat split; (done || lia).
Qed.

(** X7. The stripe size handed to a new ORC builder is always defined (the
    halving loop ends) and is the byte budget, read as an unsigned 64-bit
    integer, divided by a power of two: the budget itself when it is at most
    64 MiB, and a value between 32 MiB and 64 MiB otherwise. *)
Theorem stripe_size_within_limit cfg :
  ∃ s k,
    orc_stripe_size cfg = Some s
    ∧ 0 ≤ k
    ∧ s = size_t_of_int64 (bytes_per_file cfg) / 2 ^ k
    ∧ 0 ≤ s ≤ 64 * 1024 * 1024
    ∧ (size_t_of_int64 (bytes_per_file cfg) ≤ 64 * 1024 * 1024 →
       s = size_t_of_int64 (bytes_per_file cfg))
    ∧ (64 * 1024 * 1024 < size_t_of_int64 (bytes_per_file cfg) →
       32 * 1024 * 1024 ≤ s).
Proof.
  unfold orc_stripe_size.
  assert (0 ≤ size_t_of_int64 (bytes_per_file cfg) < 2 ^ 64) as Hrange
    by (apply Z.mod_pos_bound; lia).
  destruct (halve_stripe_size_spec 63 (size_t_of_int64 (bytes_per_file cfg)))
    as (r & k & Hr & Hk & Hdiv & Hb & Hsame & Hhalf).
  { change (Z.of_nat 63) with 63. lia. }
  exists r, k. change (64 * 1024 * 1024) with (2 ^ 26).
  change (32 * 1024 * 1024) with (2 ^ 25). by repeat split; try lia; auto.
Qed.

(** ** The actions of [send_chunk] *)

Lemma open_partition_writer_steps cfg env key st r st' :
  _partition_writer_map st !! key = None →
  open_partition_writer cfg env key st = (r, st') →
  rtc (sink_step cfg env) st st'.
Proof.
  intros Hnone. unfold open_partition_writer, gen_file_name.
  destruct (file_name_prefix cfg) as [prefix|] eqn:Hprefix; simpl.
  2:{ intros [= <- <-]. done. }
  destruct (String.eqb_spec (file_format cfg) "orc") as [Hformat|Hformat]; simpl.
  2:{ intros [= <- <-]. apply rtc_once. constructor. }
  destruct (broker_addresses cfg) as [|b bs] eqn:Hbrokers.
  { intros [= <- <-]. apply rtc_once. constructor. }
  set (now := UnixMillis env (tick st)).
  change (location cfg +:+ "/data/" +:+ key +:+ file_name env prefix now)
    with (file_path cfg env key prefix now).
  destruct (fs_broker_new_writable_file env _ _) as [|code msg]; simpl.
  - intros [= <- <-]. unfold insert_writer. simpl. rewrite Hnone.
    eapply rtc_l; [apply (step_clock _ _ _ now)|].
    apply rtc_once.
    apply (step_create cfg env (log (EvUnixMillis now) st) key prefix now);
      try done. by rewrite Hbrokers.
  - intros [= <- <-].
    eapply rtc_l; [apply (step_clock _ _ _ now)|].
    apply rtc_once. apply step_create_failed; try done. by rewrite Hbrokers.
Qed.

Lemma prepare_partition_writer_steps cfg env key st r st' :
  prepare_partition_writer cfg env key st = (r, st') →
  rtc (sink_step cfg env) st st'.
Proof.
  unfold prepare_partition_writer.
  destruct (_partition_writer_map st !! key) as [w|] eqn:Hw.
  - destruct (budget_reached cfg w) eqn:Hb; [|by intros [= <- <-]].
    unfold finish_writer.
    destruct (finish_status env (tick st)) as [|code msg]; simpl.
    + intros Hopen. eapply rtc_l; [by apply (step_roll _ _ _ key w)|].
      eapply open_partition_writer_steps; [|exact Hopen].
      simpl. apply lookup_delete_eq.
    + intros [= <- <-]. apply rtc_once. by apply step_finish_failed.
  - by apply open_partition_writer_steps.
Qed.

(** [_partition_writer_map.at(partitionKey)] finds the writer whenever the
    writer could be prepared. *)
Lemma prepare_partition_writer_installs cfg env key st st' :
  prepare_partition_writer cfg env key st = (OK, st') →
  ∃ w, _partition_writer_map st' !! key = Some w.
Proof.
  unfold prepare_partition_writer.
  assert (∀ st0, _partition_writer_map st0 !! key = None →
            open_partition_writer cfg env key st0 = (OK, st') →
            ∃ w, _partition_writer_map st' !! key = Some w) as Hopen.
  { intros st0 Hnone H.
    destruct (open_partition_writer_spec _ _ _ _ _ _ H Hnone)
      as (_ & _ & [(_ & path & Hm & _)|(? & _)]); [|done].
    eexists. by rewrite Hm, lookup_insert_eq. }
  destruct (_partition_writer_map st !! key) as [w|] eqn:Hw.
  - destruct (budget_reached cfg w); [|intros [= <-]; by eauto].
    unfold finish_writer.
    destruct (finish_status env (tick st)) as [|code msg]; simpl; [|done].
    apply Hopen. simpl. apply lookup_delete_eq.
  - by apply Hopen.
Qed.

Lemma write_to_partition_steps cfg env chunk key st :
  ∃ r st',
    write_to_partition cfg env chunk key st = Done (r, st')
    ∧ rtc (sink_step cfg env) st st'.
Proof.
  unfold write_to_partition.
  destruct (prepare_partition_writer cfg env key st) as [s st1] eqn:Hprep.
  pose proof (prepare_partition_writer_steps _ _ _ _ _ _ Hprep) as Hsteps.
  destruct s as [|code msg]; simpl; [|by eauto].
  destruct (prepare_partition_writer_installs _ _ _ _ _ Hprep) as [w Hw].
  rewrite Hw. destruct (add_chunk env key w chunk st1) as [r st'] eqn:Hadd.
  exists r, st'. split; [done|]. eapply rtc_r; [exact Hsteps|].
  replace st' with (add_chunk env key w chunk st1).2 by by rewrite Hadd.
  by apply step_append.
Qed.

Lemma write_partitions_steps cfg env chunk base refs keys : ∀ j status st r st',
  write_partitions cfg env chunk base refs keys j status st = Done (r, st') →
  rtc (sink_step cfg env) st st'.
Proof.
  induction keys as [|key keys IH]; intros j status st r st' H; simpl in H.
  - by simplify_eq.
  - destruct (clone_selective chunk _) as [cur|]; [|done].
    destruct (write_to_partition_steps cfg env cur (str_value key) st)
      as (r1 & st1 & Hw & Hsteps).
    rewrite Hw in H. destruct (ok r1); [|by simplify_eq].
    etrans; [exact Hsteps|]. by eapply IH.
Qed.

Lemma partition_and_write_steps cfg env chunk st r st' :
  partition_and_write cfg env chunk st = Done (r, st') →
  rtc (sink_step cfg env) st st'.
Proof.
  unfold partition_and_write.
  destruct (resolve_partition_columns cfg chunk) as [arr|]; [|done].
  destruct (assign_rows _ _ _ _ _ _ _) as [[s|[v refs]]|]; [| |done].
  - by intros [= <- <-].
  - destruct (vec_elems v) as [|key [|key2 keys]] eqn:Hv.
    + simpl. by intros [= <- <-].
    + intros H.
      destruct (write_to_partition_steps cfg env chunk (str_value key) st)
        as (r1 & st1 & Hw & Hsteps). rewrite Hw in H. by simplify_eq.
    + apply write_partitions_steps.
Qed.

Lemma send_chunk_steps cfg env chunk st r st' chunk' :
  send_chunk cfg env chunk st = Done (r, st', chunk') →
  rtc (sink_step cfg env) st st'.
Proof.
  unfold send_chunk.
  destruct (output_chunk cfg chunk) as [[s|[written caller]]|]; [| |done].
  - by intros [= <- <- <-].
  - destruct (partition_and_write cfg env written st) as [[s st1]|] eqn:H;
      [|done].
    intros [= <- <- <-]. by eapply partition_and_write_steps.
Qed.

Lemma reachable_steps cfg env st :
  reachable cfg env st → rtc (sink_step cfg env) initial_sink st.
Proof.
  induction 1 as [|st chunk s st' chunk' _ IH Hsend]; [done|].
  etrans; [exact IH|]. by eapply send_chunk_steps.
Qed.

(** A property kept by every action holds after any number of them. *)
Lemma steps_invariant cfg env (P : Sink → Prop) st st' :
  (∀ st1 st2, P st1 → sink_step cfg env st1 st2 → P st2) →
  P st → rtc (sink_step cfg env) st st' → P st'.
Proof. intros Hstep HP Hrtc. induction Hrtc; eauto. Qed.

(** What one action does: it makes one external call, which is no call of
    the commit; the recorded files grow by the path of a file exactly when
    the call created it; an append goes to the file of a live writer; the
    erased writers are kept. *)
Lemma sink_step_effect cfg env st st' :
  sink_step cfg env st st' →
  ∃ e, trace st' = trace st ++ [e]
       ∧ is_commit_call e = false
       ∧ export_output_files st'
         = export_output_files st ++ created_files [e]
       ∧ (∀ path size chunk r, e = EvAddChunk path size chunk r →
            ∃ key w, _partition_writer_map st !! key = Some w
                     ∧ fb_path w = path)
       ∧ erased_writers st `prefix_of` erased_writers st'.
Proof.
  destruct 1; simpl; eexists; (split; [reflexivity|]); (split; [done|]);
    rewrite ?app_nil_r; (split; [done|]);
    (split; [|first [reflexivity|by apply prefix_app_r]]);
    intros ???? [=]; subst; eauto.
Qed.

(** The writers of the map are not finished, their files are recorded and
    lie in the directory of their key. *)
Lemma sink_step_writers cfg env st st' :
  sink_step cfg env st st' →
  (∀ key w, _partition_writer_map st !! key = Some w →
     fb_finished w = false
     ∧ fb_path w ∈ export_output_files st
     ∧ ∃ prefix now, file_name_prefix cfg = Some prefix
                     ∧ fb_path w = file_path cfg env key prefix now) →
  ∀ key w, _partition_writer_map st' !! key = Some w →
    fb_finished w = false
    ∧ fb_path w ∈ export_output_files st'
    ∧ ∃ prefix now, file_name_prefix cfg = Some prefix
                    ∧ fb_path w = file_path cfg env key prefix now.
Proof.
  destruct 1 as [st now|st k w0 code msg Hw0 _|st k w0 Hw0 _
                 |st k prefix now code msg _ _ _|st k prefix now Hnone Hp _ _
                 |st k w0 chunk Hw0];
    intros Hinv key w; simpl.
  - apply Hinv.
  - rewrite insert_id by done. apply Hinv.
  - rewrite lookup_delete_Some. intros [Hne H].
    rewrite lookup_insert_ne in H by done. by apply Hinv.
  - apply Hinv.
  - destruct (decide (k = key)) as [->|Hne].
    + rewrite lookup_insert_eq. intros [= <-]. simpl.
      split; [done|]. split; [set_solver|]. by eauto.
    + rewrite lookup_insert_ne by done. intros H.
      destruct (Hinv key w H) as (? & ? & ?). repeat split; try done.
      set_solver.
  - destruct (Hinv k w0 Hw0) as (Hfin & Hrec & Hdir).
    destruct (decide (k = key)) as [->|Hne].
    + rewrite lookup_insert_eq. intros [= <-].
      by destruct (add_chunk_status env (tick st)).
    + rewrite lookup_insert_ne by done. apply Hinv.
Qed.

Lemma steps_writers cfg env st :
  rtc (sink_step cfg env) initial_sink st →
  ∀ key w, _partition_writer_map st !! key = Some w →
    fb_finished w = false
    ∧ fb_path w ∈ export_output_files st
    ∧ ∃ prefix now, file_name_prefix cfg = Some prefix
                    ∧ fb_path w = file_path cfg env key prefix now.
Proof.
  apply (steps_invariant cfg env
           (λ st, ∀ key w, _partition_writer_map st !! key = Some w →
              fb_finished w = false
              ∧ fb_path w ∈ export_output_files st
              ∧ ∃ prefix now, file_name_prefix cfg = Some prefix
                              ∧ fb_path w = file_path cfg env key prefix now)).
  - intros st1 st2 H Hstep. by eapply sink_step_writers.
  - intros key w H. simpl in H. by rewrite lookup_empty in H.
Qed.

Lemma steps_created_files cfg env st :
  rtc (sink_step cfg env) initial_sink st →
  export_output_files st = created_files (trace st).
Proof.
  apply (steps_invariant cfg env
           (λ st, export_output_files st = created_files (trace st)));
    [|done].
  intros st1 st2 H Hstep.
  destruct (sink_step_effect _ _ _ _ Hstep) as (e & Ht & _ & Hf & _).
  by rewrite Hf, Ht, created_files_app, H.
Qed.

Lemma app_snoc_split {A} (l es1 es2 : list A) e x :
  l ++ [e] = es1 ++ x :: es2 →
  (es2 = [] ∧ x = e ∧ es1 = l)
  ∨ ∃ es2', es2 = es2' ++ [e] ∧ l = es1 ++ x :: es2'.
Proof.
  destruct es2 as [|y es2 _] using rev_ind.
  - intros H. apply app_inj_tail in H as [-> ->]. by left.
  - rewrite app_comm_cons, app_assoc. intros H.
    apply app_inj_tail in H as [-> ->]. right. by eauto.
Qed.

Lemma steps_appends cfg env st :
  rtc (sink_step cfg env) initial_sink st →
  ∀ es1 path size chunk r es2,
    trace st = es1 ++ EvAddChunk path size chunk r :: es2 →
    path ∈ created_files es1.
Proof.
  revert st.
  apply (rtc_ind_r (λ st, ∀ es1 path size chunk r es2,
                      trace st = es1 ++ EvAddChunk path size chunk r :: es2 →
                      path ∈ created_files es1)).
  { intros es1 ????? H. by destruct es1. }
  intros st1 st2 Hsteps Hstep IH es1 path size chunk r es2 Ht.
  destruct (sink_step_effect _ _ _ _ Hstep) as (e & Ht2 & _ & _ & Happ & _).
  rewrite Ht2 in Ht.
  apply app_snoc_split in Ht as [(_ & He & ->)|(es2' & _ & Ht)].
  - destruct (Happ _ _ _ _ (eq_sym He)) as (key & w & Hw & <-).
    rewrite <- (steps_created_files cfg env st1 Hsteps).
    by apply (steps_writers cfg env st1 Hsteps key w).
  - by eapply IH.
Qed.

(** ** What is recorded, what is written *)

(** X8. At any point of the sink's lifetime the recorded output files are
    exactly the files the broker file system created for the sink, in the
    order of their creation: a file that was created is always recorded, and
    nothing else is. *)
Theorem recorded_files_are_the_created_files cfg env st :
  reachable cfg env st →
  export_output_files st = created_files (trace st).
Proof. intros H. by apply (steps_created_files cfg env), reachable_steps. Qed.

Lemma recorded_files_are_the_created_files_witness :
  export_output_files scenario_A_sink
  = ["hdfs://wh/t/data/dt=2024-01-01/q1_10001_1700000000000.orc";
     "hdfs://wh/t/data/dt=2024-01-02/q1_10001_1700000000003.orc"].
Proof.
  assert (reachable scenario_A_config calm_env scenario_A_sink) as Hreach.
  { apply (reachable_send _ _ initial_sink scenario_A_chunk OK scenario_A_sink
             (bind_slot_ids (slots scenario_A_config) 0
                (reset_slot_id_to_index scenario_A_chunk)));
      [apply reachable_initial|vm_compute; reflexivity]. }
  rewrite (recorded_files_are_the_created_files scenario_A_config calm_env
             scenario_A_sink Hreach).
  vm_compute. reflexivity.
Defined.

(** X9. At any point of the sink's lifetime every writer of the map is
    unfinished, its file is recorded, and the file lies in the directory of
    the writer's partition key: its path is the table location, "/data/",
    the key and a generated file name. *)
Theorem live_writers_are_open_in_their_directory cfg env st key w :
  reachable cfg env st →
  _partition_writer_map st !! key = Some w →
  fb_finished w = false
  ∧ fb_path w ∈ export_output_files st
  ∧ ∃ prefix now,
      file_name_prefix cfg = Some prefix
      ∧ fb_path w
        = location cfg +:+ "/data/" +:+ key +:+ file_name env prefix now.
Proof.
  intros Hreach. by apply (steps_writers cfg env), reachable_steps.
Qed.

Lemma live_writers_are_open_in_their_directory_witness :
  ∃ w, _partition_writer_map one_row_sink !! "dt=2024-01-01/" = Some w
       ∧ fb_finished w = false
       ∧ fb_path w ∈ export_output_files one_row_sink.
Proof.
  eexists. split; [vm_compute; reflexivity|].
  destruct (live_writers_are_open_in_their_directory scenario_A_config calm_env
              one_row_sink "dt=2024-01-01/" _ one_row_sink_reachable
              ltac:(vm_compute; reflexivity)) as (H1 & H2 & _).
  split; [exact H1|exact H2].
Defined.

(** X10. At any point of the sink's lifetime, every chunk was appended to
    a file that the sink had created before: the path of an append is among
    the files created by the calls that precede it, hence among the recorded
    files. *)
Theorem appends_follow_creation cfg env st es1 path size chunk r es2 :
  reachable cfg env st →
  trace st = es1 ++ EvAddChunk path size chunk r :: es2 →
  path ∈ created_files es1 ∧ path ∈ export_output_files st.
Proof.
  intros Hreach Ht. apply reachable_steps in Hreach.
  pose proof (steps_appends cfg env st Hreach _ _ _ _ _ _ Ht) as Hin.
  split; [done|].
  rewrite (steps_created_files cfg env st Hreach), Ht, created_files_app.
  set_solver.
Qed.

Lemma appends_follow_creation_witness :
  "hdfs://wh/t/data/dt=2024-01-01/q1_10001_1700000000000.orc"
  ∈ export_output_files one_row_sink.
Proof.
  refine (proj2 (appends_follow_creation scenario_A_config calm_env one_row_sink
                   [EvUnixMillis 1700000000000;
                    EvNewWritableFile
                      "hdfs://wh/t/data/dt=2024-01-01/q1_10001_1700000000000.orc"
                      OK]
                   _ 0
                   (bind_slot_ids (slots scenario_A_config) 0
                      (reset_slot_id_to_index one_row_chunk))
                   OK [] one_row_sink_reachable _)).
  vm_compute. reflexivity.
Defined.

Lemma steps_only_append cfg env st st' :
  rtc (sink_step cfg env) st st' →
  (∃ es, trace st' = trace st ++ es
         ∧ Forall (λ e, is_commit_call e = false) es
         ∧ export_output_files st'
           = export_output_files st ++ created_files es)
  ∧ erased_writers st `prefix_of` erased_writers st'.
Proof.
  revert st'.
  apply (rtc_ind_r (λ st', (∃ es, trace st' = trace st ++ es
                              ∧ Forall (λ e, is_commit_call e = false) es
                              ∧ export_output_files st'
                                = export_output_files st ++ created_files es)
                           ∧ erased_writers st `prefix_of` erased_writers st')).
  { split; [|done]. exists []. by rewrite !app_nil_r. }
  intros st1 st2 _ Hstep [(es & Ht & Hes & Hf) He].
  destruct (sink_step_effect _ _ _ _ Hstep) as (e & Ht2 & Hc & Hf2 & _ & He2).
  split; [|by etrans].
  exists (es ++ [e]). rewrite Ht2, Ht, Hf2, Hf, created_files_app, <- !app_assoc.
  split; [done|]. split; [|done].
  apply Forall_app. split; [done|]. by constructor.
Qed.

(** X11. Whatever the state of the sink, a call of [send_chunk] that
    returns makes no call of the commit and takes nothing back: the external
    calls it makes are clock readings, file creations, finishes and appends,
    the recorded files grow by exactly the files created during the call, in
    order, and no erased writer is forgotten. *)
Theorem send_chunk_only_appends cfg env chunk st s st' chunk' :
  send_chunk cfg env chunk st = Done (s, st', chunk') →
  trace st' = trace st ++ new_events st st'
  ∧ Forall (λ e, is_commit_call e = false) (new_events st st')
  ∧ export_output_files st'
    = export_output_files st ++ created_files (new_events st st')
  ∧ erased_writers st `prefix_of` erased_writers st'.
Proof.
  intros Hsend. apply send_chunk_steps in Hsend.
  destruct (steps_only_append _ _ _ _ Hsend) as [(es & Ht & Hes & Hf) He].
  by rewrite (new_events_app _ _ _ Ht).
Qed.

Lemma send_chunk_only_appends_witness :
  let st' := sink_after scenario_A_config calm_env scenario_A_chunk one_row_sink in
  export_output_files st'
  = export_output_files one_row_sink
    ++ created_files (new_events one_row_sink st').
Proof.
  intros st'.
  assert (send_chunk scenario_A_config calm_env scenario_A_chunk one_row_sink
          = Done (OK, st',
                  bind_slot_ids (slots scenario_A_config) 0
                    (reset_slot_id_to_index scenario_A_chunk)))
    as Hsend by (vm_compute; reflexivity).
  exact (proj1 (proj2 (proj2 (send_chunk_only_appends _ _ _ _ _ _ _ Hsend)))).
Defined.

(** ** Requests for a writer *)

(** X12. [write_to_partition] always finds the writer it asks the map for:
    when the writer could not be prepared it returns that status and appends
    nothing; otherwise the writer of the key is in the map and the chunk is
    appended to it, once, as the last external call, and the status of the
    append is returned. *)
Theorem write_to_partition_finds_its_writer cfg env chunk key st :
  ∃ r st',
    write_to_partition cfg env chunk key st = Done (r, st')
    ∧ ((prepare_partition_writer cfg env key st).1 ≠ OK →
       (r, st') = prepare_partition_writer cfg env key st)
    ∧ ((prepare_partition_writer cfg env key st).1 = OK →
       ∃ w, _partition_writer_map (prepare_partition_writer cfg env key st).2
              !! key = Some w
            ∧ trace st'
              = trace (prepare_partition_writer cfg env key st).2
                ++ [EvAddChunk (fb_path w) (fb_size w) chunk r]
            ∧ export_output_files st'
              = export_output_files
                  (prepare_partition_writer cfg env key st).2).
Proof.
  unfold write_to_partition.
  destruct (prepare_partition_writer cfg env key st) as [s st1] eqn:Hprep.
  destruct s as [|code msg]; simpl.
  - destruct (prepare_partition_writer_installs _ _ _ _ _ Hprep) as [w Hw].
    rewrite Hw. eexists _, _. split; [reflexivity|]. split; [done|].
    intros _. exists w. by repeat split.
  - eexists _, _. split; [reflexivity|]. by split.
Qed.

(** ** A sink that cannot create files *)

Lemma steps_misconfigured cfg env st :
  misconfigured cfg →
  rtc (sink_step cfg env) initial_sink st →
  _partition_writer_map st = ∅ ∧ export_output_files st = [].
Proof.
  intros Hmis.
  apply (steps_invariant cfg env
           (λ st, _partition_writer_map st = ∅ ∧ export_output_files st = []));
    [|done].
  intros st1 st2 [Hm Hf] Hstep.
  destruct Hstep as [| ??? ?? Hw _ | ??? Hw _ | ?????? Hp Hfmt Hb
                     | ???? _ Hp Hfmt Hb | ???? Hw];
    try (rewrite Hm in Hw; by rewrite lookup_empty in Hw);
    try (destruct Hmis as [?|[?|?]]; congruence).
  done.
Qed.

(** X13. A sink without a file name prefix, with a file format other than
    "orc" or without a broker never creates a file: at any point of its
    lifetime it has no writer and no recorded file, every request to write a
    chunk fails with the error of the first of these three defects, and
    [close] returns OK without calling anything. *)
Theorem misconfigured_sink_never_writes cfg env st :
  misconfigured cfg →
  reachable cfg env st →
  _partition_writer_map st = ∅
  ∧ export_output_files st = []
  ∧ (∀ chunk key, ∃ st',
       write_to_partition cfg env chunk key st
       = Done (misconfiguration_error cfg, st')
       ∧ misconfiguration_error cfg ≠ OK)
  ∧ (∀ exec_status, close cfg env exec_status st = (OK, st)).
Proof.
  intros Hmis Hreach.
  destruct (steps_misconfigured cfg env st Hmis (reachable_steps _ _ _ Hreach))
    as [Hm Hf].
  split; [done|]. split; [done|]. split.
  - intros chunk key.
    unfold write_to_partition, prepare_partition_writer,
      open_partition_writer, gen_file_name, misconfiguration_error.
    rewrite Hm, lookup_empty.
    destruct (file_name_prefix cfg) as [prefix|] eqn:Hp; simpl;
      [|eexists; split; [reflexivity|discriminate]].
    destruct (String.eqb_spec (file_format cfg) "orc") as [Hfmt|Hfmt]; simpl;
      [|eexists; split; [reflexivity|discriminate]].
    destruct (broker_addresses cfg) eqn:Hb; simpl;
      [eexists; split; [reflexivity|discriminate]|].
    destruct Hmis as [?|[?|?]]; congruence.
  - intros exec_status. unfold close.
    rewrite Hm, iteration_empty. simpl. by rewrite Hf.
Qed.

Lemma misconfigured_sink_never_writes_witness :
  ∃ st',
    write_to_partition csv_config calm_env one_row_chunk "dt=2024-01-01/"
      initial_sink
    = Done (Error NotSupported "unsupported file format csv", st').
Proof.
  assert (misconfigured csv_config) as Hmis by (right; left; discriminate).
  destruct (misconfigured_sink_never_writes csv_config calm_env initial_sink
              Hmis (reachable_initial _ _)) as (_ & _ & Hwrite & _).
  destruct (Hwrite one_row_chunk "dt=2024-01-01/") as (st' & H & _).
  exists st'. exact H.
Defined.

(** X14. A request for a writer that fails records no file and leaves the
    writers of the other keys alone.  The writer of the key itself is kept
    as it was, unless it had reached the byte budget and could be finished:
    then it was erased before the creation of the new file failed, and the
    key is left without a writer. *)
Theorem failed_request_records_nothing cfg env key st code msg st' :
  prepare_partition_writer cfg env key st = (Error code msg, st') →
  export_output_files st' = export_output_files st
  ∧ (∀ key', key' ≠ key →
       _partition_writer_map st' !! key' = _partition_writer_map st !! key')
  ∧ (_partition_writer_map st' !! key = _partition_writer_map st !! key
     ∧ erased_writers st' = erased_writers st
     ∨ ∃ w, _partition_writer_map st !! key = Some w
            ∧ budget_reached cfg w = true
            ∧ finish_status env (tick st) = OK
            ∧ _partition_writer_map st' !! key = None
            ∧ erased_writers st' = erased_writers st ++ [mark_finished w]).
Proof.
  unfold prepare_partition_writer.
  destruct (_partition_writer_map st !! key) as [w|] eqn:Hw.
  - destruct (budget_reached cfg w) eqn:Hb; [|done].
    unfold finish_writer.
    destruct (finish_status env (tick st)) as [|c m] eqn:Hfin; simpl.
    + intros Hopen.
      destruct (open_partition_writer_spec _ _ _ _ _ _ Hopen)
        as (He & _ & [[? _]|(_ & Hm & Hf)]); [apply lookup_delete_eq|done|].
      simpl in *. split; [done|]. split.
      * intros key' Hne.
        by rewrite Hm, lookup_delete_ne, lookup_insert_ne.
      * right. exists w. rewrite Hm, lookup_delete_eq. by repeat split.
    + intros [= <- <- <-]. simpl. split; [done|]. split.
      * intros key' Hne. by rewrite lookup_insert_ne.
      * left. by rewrite lookup_insert_eq.
  - intros Hopen.
    destruct (open_partition_writer_spec _ _ _ _ _ _ Hopen Hw)
      as (He & _ & [[? _]|(_ & Hm & Hf)]); [done|].
    split; [done|]. split; [by rewrite Hm|]. left. by rewrite Hm.
Qed.

Lemma failed_request_records_nothing_witness :
  let st := sink_after small_budget_config frozen_clock_env one_row_chunk
              initial_sink in
  let st' := (prepare_partition_writer small_budget_config
                frozen_clock_env "dt=2024-01-01/" st).2 in
  export_output_files st' = export_output_files st.
Proof.
  intros st st'.
  assert (prepare_partition_writer small_budget_config frozen_clock_env
            "dt=2024-01-01/" st
          = (Error AlreadyExist
               "hdfs://wh/t/data/dt=2024-01-01/q1_10001_1700000000000.orc",
             st')) as Hprep
    by (vm_compute; reflexivity).
  exact (proj1 (failed_request_records_nothing _ _ _ _ _ _ _ Hprep)).
Defined.

(** ** The keys of a batch *)

Lemma emplace_back_values env key v h :
  ∃ s, vec_elems (emplace_back env key v h).1 = vec_elems v ++ [s]
       ∧ str_value s = key.
Proof.
  unfold emplace_back, copy_string.
  destruct (_ <? _)%nat.
  - destruct (is_inline env key); [by eexists|].
    destruct (allocate env _ h). by eexists.
  - destruct (allocate env _ h) as [base h1].
    destruct (is_inline env key); [by eexists|].
    destruct (allocate env _ h1). by eexists.
Qed.

Lemma find_key_None key elems :
  find_key key elems = None ↔ key ∉ str_value <$> elems.
Proof.
  unfold find_key. rewrite list_find_None, Forall_forall. split.
  - intros H Hin. apply list_elem_of_fmap in Hin as (s & -> & Hs).
    by apply (H s Hs).
  - intros H s Hs Heq. apply H. rewrite <- Heq. by apply list_elem_of_fmap_2.
Qed.

(** One row: the vector gains the key of the row unless it holds it. *)
Lemma assign_row_values env pcs arr i v h refs key :
  derive_key env pcs arr 0 i "" = Done (inr key) →
  ∃ v' h' p,
    assign_row env pcs arr i v h refs = Done (inr (v', h', <[i := p]> refs))
    ∧ str_value <$> vec_elems v' = add_key (str_value <$> vec_elems v) key.
Proof.
  intros Hkey. unfold assign_row, add_key. rewrite Hkey.
  destruct (find_key key (vec_elems v)) as [[j s]|] eqn:Hfind.
  - rewrite Hfind. eexists _, _, _. split; [reflexivity|].
    rewrite decide_True; [done|].
    unfold find_key in Hfind. apply list_find_Some in Hfind as (Hj & <- & _).
    apply list_elem_of_fmap_2. by eapply list_elem_of_lookup_2.
  - destruct (emplace_back_values env key v h) as (s & Helems & Hs).
    destruct (emplace_back env key v h) as [v1 h1]. simpl in *.
    rewrite Helems, (find_key_app_new key _ s) by done.
    eexists _, _, _. split; [reflexivity|].
    rewrite decide_False by by apply find_key_None.
    by rewrite Helems, fmap_app, <- Hs.
Qed.

Lemma assign_rows_values env pcs arr (key_of : nat → string) : ∀ rows v h refs,
  (∀ i, i ∈ rows → derive_key env pcs arr 0 i "" = Done (inr (key_of i))) →
  ∃ v' refs',
    assign_rows env pcs arr rows v h refs = Done (inr (v', refs'))
    ∧ str_value <$> vec_elems v'
      = foldl add_key (str_value <$> vec_elems v) (key_of <$> rows)
    ∧ length refs' = length refs.
Proof.
  induction rows as [|i rows IH]; intros v h refs Hkeys; simpl.
  - by eexists _, _.
  - destruct (assign_row_values env pcs arr i v h refs (key_of i))
      as (v1 & h1 & p & -> & Hv1); [apply Hkeys; by left|].
    destruct (IH v1 h1 (<[i := p]> refs)) as (v' & refs' & -> & Hv' & Hlen).
    { intros j Hj. apply Hkeys. by right. }
    exists v', refs'. split; [done|]. rewrite Hv', Hv1.
    split; [done|]. by rewrite Hlen, length_insert.
Qed.

Lemma add_keys_spec keys : ∀ seen,
  NoDup seen →
  NoDup (foldl add_key seen keys)
  ∧ ∀ key, key ∈ foldl add_key seen keys ↔ key ∈ seen ∨ key ∈ keys.
Proof.
  induction keys as [|k keys IH]; intros seen Hnd; simpl.
  - split; [done|]. intros key. set_solver.
  - assert (NoDup (add_key seen k)
            ∧ ∀ key, key ∈ add_key seen k ↔ key ∈ seen ∨ key = k)
      as [Hnd' Hin].
    { unfold add_key. case_decide.
      - split; [done|]. set_solver.
      - split; [by apply NoDup_snoc_fresh|]. set_solver. }
    destruct (IH _ Hnd') as [Hnd'' Hin']. split; [done|].
    intros key. rewrite Hin', Hin. set_solver.
Qed.

Lemma add_keys_same key keys :
  Forall (λ k, k = key) keys → foldl add_key [key] keys = [key].
Proof.
  induction 1 as [|k keys -> _ IH]; simpl; [done|].
  unfold add_key at 2. rewrite decide_True by set_solver. done.
Qed.

(** X15. When the key of every row can be derived, the keys of the batch
    are collected by value: the vector of keys ends up holding every key
    that occurs in the batch, once, in the order of first occurrence, however
    the keys are stored. *)
Theorem keys_collected_in_order_of_first_occurrence env pcs arr n
    (key_of : nat → string) :
  (∀ i, (i < n)%nat →
     derive_key env pcs arr 0 i "" = Done (inr (key_of i))) →
  ∃ v refs,
    assign_rows env pcs arr (seq 0 n) (mkKeyVector 0 0 []) (mkHeap [] 0)
      (replicate n 0) = Done (inr (v, refs))
    ∧ str_value <$> vec_elems v = first_occurrences (key_of <$> seq 0 n)
    ∧ NoDup (str_value <$> vec_elems v)
    ∧ (∀ key, key ∈ str_value <$> vec_elems v
              ↔ ∃ i, (i < n)%nat ∧ key_of i = key)
    ∧ length refs = n.
Proof.
  intros Hkeys.
  destruct (assign_rows_values env pcs arr key_of (seq 0 n)
              (mkKeyVector 0 0 []) (mkHeap [] 0) (replicate n 0))
    as (v & refs & Hrun & Hv & Hlen).
  { intros i Hi. apply Hkeys. apply elem_of_seq in Hi. lia. }
  exists v, refs. split; [done|]. split; [done|].
  destruct (add_keys_spec (key_of <$> seq 0 n) [] (NoDup_nil_2)) as [Hnd Hin].
  simpl in Hv. rewrite Hv. split; [done|]. split.
  - intros key. rewrite Hin, list_elem_of_fmap. split.
    + intros [H|(i & -> & Hi)]; [by apply elem_of_nil in H|].
      exists i. apply elem_of_seq in Hi. split; [lia|done].
    + intros (i & Hi & <-). right. exists i. split; [done|].
      apply elem_of_seq. lia.
  - by rewrite Hlen, length_replicate.
Qed.

Lemma keys_collected_in_order_of_first_occurrence_witness :
  ∃ v refs,
    assign_rows calm_env (partitionColumns scenario_A_config)
      scenario_A_columns (seq 0 3) (mkKeyVector 0 0 []) (mkHeap [] 0)
      (replicate 3 0) = Done (inr (v, refs))
    ∧ str_value <$> vec_elems v = ["dt=2024-01-01/"; "dt=2024-01-02/"].
Proof.
  destruct (keys_collected_in_order_of_first_occurrence calm_env
              (partitionColumns scenario_A_config) scenario_A_columns 3
              (λ i, if (i <? 2)%nat then "dt=2024-01-01/" else "dt=2024-01-02/"))
    as (v & refs & Hrun & Hv & _).
  - intros i Hi.
    destruct i as [|[|[|i]]]; [vm_compute; reflexivity..|lia].
  - exists v, refs. split; [exact Hrun|]. rewrite Hv. vm_compute. reflexivity.
Defined.

(** The part of [send_chunk] after the keys were collected, when the
    batch has one key. *)
Lemma partition_and_write_single_key cfg env chunk st arr key :
  resolve_partition_columns cfg chunk = Done arr →
  (0 < num_rows chunk)%nat →
  (∀ i, (i < num_rows chunk)%nat →
     derive_key env (partitionColumns cfg) arr 0 i "" = Done (inr key)) →
  partition_and_write cfg env chunk st
  = write_to_partition cfg env chunk key st.
Proof.
  intros Hres Hrows Hkeys. unfold partition_and_write. rewrite Hres.
  destruct (assign_rows_values env (partitionColumns cfg) arr (λ _, key)
              (seq 0 (num_rows chunk)) (mkKeyVector 0 0 []) (mkHeap [] 0)
              (replicate (num_rows chunk) 0))
    as (v & refs & -> & Hv & _).
  { intros i Hi. apply Hkeys. apply elem_of_seq in Hi. lia. }
  destruct (num_rows chunk) as [|n]; [lia|].
  simpl in Hv. unfold add_key at 2 in Hv. rewrite decide_False in Hv by set_solver.
  simpl in Hv. rewrite add_keys_same in Hv.
  2:{ apply Forall_forall. intros k Hk.
      by apply list_elem_of_fmap in Hk as (? & -> & _). }
  destruct (vec_elems v) as [|s [|s2 elems]]; simpl in Hv; try done.
  by injection Hv as ->.
Qed.

(** X16. A batch whose rows all have the same partition key is written as
    it is: the chunk itself, with every row, is handed to the writer of that
    key, and no pointer is compared. *)
Theorem single_key_batch_is_written_whole cfg env chunk st written caller arr
    key :
  output_chunk cfg chunk = Done (inr (written, caller)) →
  resolve_partition_columns cfg written = Done arr →
  (0 < num_rows written)%nat →
  (∀ i, (i < num_rows written)%nat →
     derive_key env (partitionColumns cfg) arr 0 i "" = Done (inr key)) →
  ∃ s st',
    write_to_partition cfg env written key st = Done (s, st')
    ∧ send_chunk cfg env chunk st = Done (s, st', caller).
Proof.
  intros Hout Hres Hrows Hkeys.
  destruct (write_to_partition_steps cfg env written key st)
    as (s & st' & Hwrite & _).
  exists s, st'. split; [done|]. unfold send_chunk.
  by rewrite Hout, (partition_and_write_single_key _ _ _ _ arr key), Hwrite.
Qed.

Lemma single_key_batch_is_written_whole_witness :
  let written := bind_slot_ids (slots scenario_A_config) 0
                   (reset_slot_id_to_index same_day_chunk) in
  ∃ s st',
    write_to_partition scenario_A_config calm_env written "dt=2024-01-01/"
      initial_sink = Done (s, st')
    ∧ send_chunk scenario_A_config calm_env same_day_chunk initial_sink
      = Done (s, st', written).
Proof.
  intros written.
  apply (single_key_batch_is_written_whole scenario_A_config calm_env
           same_day_chunk initial_sink written written
           [Some [DTimestamp 1704067800; DTimestamp 1704153000]]
           "dt=2024-01-01/").
  - reflexivity.
  - vm_compute. reflexivity.
  - vm_compute. lia.
  - intros i Hi. change (num_rows written) with 2%nat in Hi.
    destruct i as [|[|i]]; [vm_compute; reflexivity..|lia].
Defined.

(** X17. For a table without partition columns every row has the empty
    key: a batch with at least one row is handed as it is to the one writer
    of the empty key, and the status of that request is returned. *)
Theorem unpartitioned_batch_goes_to_one_writer cfg env chunk st written caller :
  partitionColumns cfg = [] →
  output_chunk cfg chunk = Done (inr (written, caller)) →
  (0 < num_rows written)%nat →
  ∃ s st',
    write_to_partition cfg env written "" st = Done (s, st')
    ∧ send_chunk cfg env chunk st = Done (s, st', caller).
Proof.
  intros Hpcs Hout Hrows.
  destruct (write_to_partition_steps cfg env written "" st)
    as (s & st' & Hwrite & _).
  exists s, st'. split; [done|]. unfold send_chunk.
  rewrite Hout, (partition_and_write_single_key _ _ _ _ [] ""), Hwrite;
    try done.
  - unfold resolve_partition_columns. by rewrite Hpcs.
  - intros i _. by rewrite Hpcs.
Qed.

Lemma unpartitioned_batch_goes_to_one_writer_witness :
  ∃ s st',
    write_to_partition (unpartitioned_config 1000) calm_env unpartitioned_chunk
      "" initial_sink = Done (s, st')
    ∧ send_chunk (unpartitioned_config 1000) calm_env unpartitioned_chunk
        initial_sink = Done (s, st', unpartitioned_chunk).
Proof.
  apply (unpartitioned_batch_goes_to_one_writer (unpartitioned_config 1000)
           calm_env unpartitioned_chunk initial_sink unpartitioned_chunk
           unpartitioned_chunk).
  - reflexivity.
  - reflexivity.
  - vm_compute. lia.
Defined.

(** X18. A batch without rows is accepted and changes nothing: when the
    partition columns can be resolved, [send_chunk] returns OK, prepares no
    writer, creates no file and makes no external call, whatever the
    transforms of the partition columns are. *)
Theorem empty_batch_writes_nothing cfg env chunk st written caller arr :
  output_chunk cfg chunk = Done (inr (written, caller)) →
  resolve_partition_columns cfg written = Done arr →
  num_rows written = 0%nat →
  send_chunk cfg env chunk st = Done (OK, st, caller).
Proof.
  intros Hout Hres Hrows. unfold send_chunk, partition_and_write.
  by rewrite Hout, Hres, Hrows.
Qed.

Lemma empty_batch_writes_nothing_witness :
  send_chunk month_config calm_env no_rows_chunk one_row_sink
  = Done (OK, one_row_sink,
          bind_slot_ids (slots month_config) 0
            (reset_slot_id_to_index no_rows_chunk)).
Proof.
  apply (empty_batch_writes_nothing month_config calm_env no_rows_chunk
           one_row_sink
           (bind_slot_ids (slots month_config) 0
              (reset_slot_id_to_index no_rows_chunk))
           _ [Some []; Some []]).
  - reflexivity.
  - vm_compute. reflexivity.
  - reflexivity.
Defined.

(** ** Sub-batches *)

Lemma gather_cons col i idxs d rest :
  col !! i = Some d → gather col idxs = Done rest →
  gather col (i :: idxs) = Done (d :: rest).
Proof. intros H1 H2. cbn [gather]. by rewrite H1, H2. Qed.

Lemma gather_select_idx refs (p : Z) : ∀ pre col,
  length col = length refs →
  gather (pre ++ col) (select_idx refs (length pre) p)
  = Done (rows_where refs p col).
Proof.
  unfold rows_where.
  induction refs as [|r refs IH]; intros pre [|d col] Hlen; simpl in *;
    try done.
  assert (gather ((pre ++ [d]) ++ col)
            (select_idx refs (length (pre ++ [d])) p)
          = Done ((filter (λ td, td.1 = p) (zip refs col)).*2)) as Hrest.
  { apply IH. lia. }
  rewrite <- app_assoc, length_app in Hrest. simpl in Hrest.
  replace (length pre + 1)%nat with (S (length pre)) in Hrest by lia.
  rewrite filter_cons. simpl. case_bool_decide as Hr.
  - rewrite decide_True by done.
    apply gather_cons; [by apply list_lookup_middle|done].
  - by rewrite decide_False.
Qed.

Lemma gather_columns_select_idx refs (p : Z) cols :
  Forall (λ col, length col = length refs) cols →
  gather_columns cols (select_idx refs 0 p)
  = Done (rows_where refs p <$> cols).
Proof.
  induction 1 as [|col cols Hcol _ IH]; simpl; [done|].
  pose proof (gather_select_idx refs p [] col Hcol) as Hg. simpl in Hg.
  by rewrite Hg, IH.
Qed.

(** X19. For a chunk whose columns all have as many rows as there are
    cached pointers, the sub-batch built for a pointer never reads outside a
    column: it has the slots and the number of columns of the chunk and
    holds exactly the rows whose cached pointer is that pointer, each once
    and in the order of the batch. *)
Theorem sub_batch_holds_the_rows_of_its_pointer chunk refs (p : Z) :
  rectangular (length refs) chunk →
  clone_selective chunk (select_idx refs 0 p)
  = Done (mkChunk (rows_where refs p <$> columns chunk)
            (slot_id_to_index chunk)).
Proof.
  intros Hrect. unfold clone_selective.
  by rewrite gather_columns_select_idx.
Qed.

Lemma sub_batch_holds_the_rows_of_its_pointer_witness :
  clone_selective scenario_A_chunk (select_idx [4112; 4112; 4176] 0 4112)
  = Done (mkChunk [[DTimestamp 1704067800; DTimestamp 1704153000];
                   [DOther 1; DOther 2]] ∅).
Proof.
  rewrite (sub_batch_holds_the_rows_of_its_pointer scenario_A_chunk
             [4112; 4112; 4176] 4112).
  - vm_compute. reflexivity.
  - repeat constructor.
Defined.

(** ** Grouping by pointer against grouping by value *)

Lemma rows_where_cons {T : Type} `{EqDecision T} (t x : T) tags d col :
  rows_where (x :: tags) t (d :: col)
  = if decide (x = t) then d :: rows_where tags t col
    else rows_where tags t col.
Proof.
  unfold rows_where. simpl. rewrite filter_cons. simpl.
  by destruct (decide (x = t)).
Qed.

Lemma rows_where_nil {T : Type} `{EqDecision T} (t : T) tags :
  rows_where tags t [] = [].
Proof. unfold rows_where. by destruct tags. Qed.

(** Two lists of tags that select the same rows give the same rows. *)
Lemma rows_where_ext {T1 T2 : Type} `{EqDecision T1, EqDecision T2}
    (t1 : T1) (t2 : T2) : ∀ tags1 tags2 col,
  length tags1 = length tags2 →
  (∀ i, tags1 !! i = Some t1 ↔ tags2 !! i = Some t2) →
  rows_where tags1 t1 col = rows_where tags2 t2 col.
Proof.
  induction tags1 as [|x1 tags1 IH]; intros [|x2 tags2] col Hlen H;
    simpl in Hlen; try done.
  destruct col as [|d col]; [by rewrite !rows_where_nil|].
  rewrite !rows_where_cons.
  assert (x1 = t1 ↔ x2 = t2) as H0.
  { specialize (H 0%nat). simpl in H. naive_solver. }
  specialize (IH tags2 col ltac:(lia) (λ i, H (S i))).
  destruct (decide (x1 = t1)) as [Hx|Hx].
  - rewrite decide_True by by apply H0. by rewrite IH.
  - rewrite decide_False by (by intros ?%H0). done.
Qed.

Lemma rows_where_all {T : Type} `{EqDecision T} (t : T) : ∀ tags col,
  Forall (λ x, x = t) tags → length col = length tags →
  rows_where tags t col = col.
Proof.
  induction tags as [|x tags IH]; intros [|d col] Hall Hlen; simpl in Hlen;
    try done.
  apply Forall_cons in Hall as [-> Hall].
  rewrite rows_where_cons, decide_True by done. rewrite IH; (done || lia).
Qed.

Section ByValue.
Variables (cfg : Config) (env : Env) (chunk : Chunk).
Variables (row_keys : list string) (refs : list Z) (v : KeyVector).
Hypothesis Hrect : rectangular (length refs) chunk.
Hypothesis Hlen : length refs = length row_keys.
Hypothesis Hsel : ∀ j s, vec_elems v !! j = Some s →
  ∀ i, refs !! i = Some (data env (vec_base v) j s)
       ↔ row_keys !! i = Some (str_value s).

(** The loop over the keys of the vector writes, for each key, the rows
    that have this key. *)
Lemma write_partitions_by_value : ∀ elems j status st,
  (∀ k s, elems !! k = Some s → vec_elems v !! (j + k)%nat = Some s) →
  write_partitions cfg env chunk (vec_base v) refs elems j status st
  = write_by_value cfg env chunk row_keys (str_value <$> elems) status st.
Proof.
  induction elems as [|s elems IH]; intros j status st Helems; simpl; [done|].
  rewrite (gather_columns_select_idx refs _ (columns chunk) Hrect)
    || (unfold clone_selective;
        rewrite (gather_columns_select_idx refs _ (columns chunk) Hrect)).
  assert (rows_where refs (data env (vec_base v) j s) <$> columns chunk
          = rows_where row_keys (str_value s) <$> columns chunk) as ->.
  { apply list_fmap_ext. intros _ col _. apply rows_where_ext; [done|].
    apply Hsel. rewrite <- (Nat.add_0_r j). by apply Helems. }
  fold (sub_batch row_keys (str_value s) chunk).
  destruct (write_to_partition cfg env _ (str_value s) st) as [[s' st']|];
    [|done].
  destruct (ok s'); [|done]. apply IH.
  intros k s0 Hk. replace (S j + k)%nat with (j + S k)%nat by lia.
  by apply Helems.
Qed.
End ByValue.

(** X20. When every key of the batch is longer than the inline capacity
    of a string, the allocator never hands out overlapping blocks and all
    columns of the chunk to write have the same number of rows, [send_chunk]
    groups the rows by the value of their key: it behaves as the reference
    that writes, for each distinct key in the order of first occurrence, the
    rows that have this key to the writer of the key, and stops at the first
    request that fails. *)
Theorem long_keys_are_grouped_by_value cfg env chunk st written caller arr
    (key_of : nat → string) :
  valid_malloc env →
  0 < string_size env →
  output_chunk cfg chunk = Done (inr (written, caller)) →
  resolve_partition_columns cfg written = Done arr →
  rectangular (num_rows written) written →
  (∀ i, (i < num_rows written)%nat →
     derive_key env (partitionColumns cfg) arr 0 i "" = Done (inr (key_of i))
     ∧ is_inline env (key_of i) = false) →
  send_chunk cfg env chunk st
  = send_by_value cfg env written caller
      (key_of <$> seq 0 (num_rows written)) st.
Proof.
  intros Hmalloc Hsize Hout Hres Hrect Hkeys.
  unfold send_chunk, send_by_value, partition_and_write.
  rewrite Hout, Hres.
  set (n := num_rows written) in *.
  set (row_keys := key_of <$> seq 0 n).
  destruct (grouping_by_value_for_long_keys env Hmalloc Hsize
              (partitionColumns cfg) arr n key_of Hkeys)
    as (v & refs & Hrun & _ & Hmem & Hsel).
  destruct (assign_rows_values env (partitionColumns cfg) arr key_of (seq 0 n)
              (mkKeyVector 0 0 []) (mkHeap [] 0) (replicate n 0))
    as (v' & refs' & Hrun' & Hv & Hlen).
  { intros i Hi. apply Hkeys. apply elem_of_seq in Hi. lia. }
  rewrite Hrun in Hrun'. injection Hrun' as <- <-. rewrite Hrun.
  rewrite length_replicate in Hlen. simpl in Hv. fold row_keys in Hv.
  unfold first_occurrences. rewrite <- Hv.
  assert (length row_keys = n) as Hlen'
    by (unfold row_keys; by rewrite length_fmap, length_seq).
  assert (∀ j s, vec_elems v !! j = Some s →
            ∀ i, refs !! i = Some (data env (vec_base v) j s)
                 ↔ row_keys !! i = Some (str_value s)) as Hsel'.
  { intros j s Hj i. specialize (Hsel j s Hj i).
    rewrite select_idx_spec in Hsel. unfold row_keys.
    rewrite list_lookup_fmap. split.
    - intros Hi. destruct (proj1 Hsel) as [Hlt Hk]; [by exists i|].
      rewrite (proj2 (lookup_seq 0 n i i)) by done. simpl. by rewrite Hk.
    - intros Hi. destruct (seq 0 n !! i) as [i'|] eqn:Hseq; [|done].
      apply lookup_seq in Hseq as [-> Hlt]. simpl in Hi. injection Hi as Hi.
      destruct (proj2 Hsel) as (i' & -> & H); [done|]. done. }
  destruct (vec_elems v) as [|s [|s2 elems]] eqn:Helems.
  - done.
  - simpl.
    assert (sub_batch row_keys (str_value s) written = written) as ->.
    { unfold sub_batch. destruct written as [cols m]. simpl. f_equal.
      rewrite <- (list_fmap_id cols) at 2. apply list_fmap_ext.
      intros c col Hcol. apply rows_where_all.
      - apply Forall_forall. intros k Hk. unfold row_keys in Hk.
        apply list_elem_of_fmap in Hk as (i & -> & Hi).
        apply elem_of_seq in Hi.
        assert (key_of i ∈ str_value <$> [s]) as Hin.
        { apply Hmem. exists i. split; [lia|done]. }
        simpl in Hin. by apply list_elem_of_singleton in Hin.
      - rewrite Hlen'. unfold rectangular in Hrect. simpl in Hrect.
        rewrite Forall_forall in Hrect. apply Hrect.
        by eapply list_elem_of_lookup_2. }
    destruct (write_to_partition cfg env written (str_value s) st)
      as [[s' st']|]; [|done].
    by destruct (ok s').
  - rewrite <- Helems in Hsel' |- *.
    apply (f_equal (λ o, match o with
                         | Crash f => Crash f
                         | Done (s, st') => Done (s, st', caller)
                         end)).
    apply (write_partitions_by_value cfg env written row_keys refs v);
      [by rewrite Hlen|congruence|exact Hsel'|done].
Qed.

Lemma long_keys_are_grouped_by_value_witness :
  let written := bind_slot_ids (slots long_name_config) 0
                   (reset_slot_id_to_index scenario_A_chunk) in
  send_chunk long_name_config calm_env scenario_A_chunk initial_sink
  = send_by_value long_name_config calm_env written written
      ["event_date=2024-01-01/"; "event_date=2024-01-01/";
       "event_date=2024-01-02/"] initial_sink.
Proof.
  intros written.
  apply (long_keys_are_grouped_by_value long_name_config calm_env
           scenario_A_chunk initial_sink written written scenario_A_columns
           (λ i, if (i <? 2)%nat then "event_date=2024-01-01/"
                 else "event_date=2024-01-02/")).
  - apply calm_env_valid_malloc.
  - reflexivity.
  - reflexivity.
  - vm_compute. reflexivity.
  - repeat constructor.
  - intros i Hi. change (num_rows written) with 3%nat in Hi.
    destruct i as [|[|[|i]]]; [split; vm_compute; reflexivity..|lia].
Defined.

(** ** More on close *)

Lemma finish_map_all_finished env (m : gmap string FileBuilder) key w :
  finish_map (iteration env m) m !! key = Some w →
  ∃ w0, m !! key = Some w0 ∧ w = mark_finished w0.
Proof.
  destruct (m !! key) as [w0|] eqn:Hm.
  - rewrite (finish_map_finished _ m key w0).
    + intros [= <-]. by eauto.
    + apply NoDup_fst_iteration.
    + by apply elem_of_iteration.
  - rewrite finish_map_other, Hm; [done|].
    intros Hin. apply list_elem_of_fmap in Hin as ([k w0] & -> & Hin).
    apply elem_of_iteration in Hin. simpl in Hm. congruence.
Qed.

(** The only way for [send_request] to return OK is a response with the
    status OK, which is then the last call made. *)
Lemma send_request_ok env request st st' :
  send_request env request st = (OK, st') →
  ∃ es, trace st'
        = trace st ++ es ++ [EvAddIcebergFiles request (RpcReturns OK)].
Proof.
  unfold send_request, rpc_failed.
  destruct (addIcebergFiles env (tick st)) as [s| |]; [| |done].
  - intros [= -> <-]. by exists [].
  - destruct (reopen_status env _) as [|code msg]; simpl; [|done].
    destruct (addIcebergFiles env _) as [s| |]; [|done..].
    intros [= -> <-]. eexists [_; _]. simpl. by rewrite <- !app_assoc.
Qed.

(** X21. [close] returns OK only if every writer of the map was finished
    and, when files are recorded, the master answered OK to a request that
    carries the recorded files, the ids of the database and of the table and
    three quarters of the configured timeout; this answer is the last call
    [close] made.  The writers stay in the map and the recorded files are
    kept. *)
Theorem close_ok_means_committed cfg env exec_status st st' :
  close cfg env exec_status st = (OK, st') →
  (∀ key w, _partition_writer_map st' !! key = Some w →
     fb_finished w = true
     ∧ ∃ w0, _partition_writer_map st !! key = Some w0
             ∧ w = mark_finished w0)
  ∧ export_output_files st' = export_output_files st
  ∧ (export_output_files st = [] ∧ Forall (λ e, is_finish e = true)
                                      (new_events st st')
     ∨ ∃ es,
         new_events st st'
         = es ++ [EvAddIcebergFiles
                    (mkRequest (export_output_files st) (db_id cfg)
                       (table_id cfg)
                       (Z.quot (iceberg_add_files_rpc_timeout_ms cfg * 3) 4))
                    (RpcReturns OK)]).
Proof.
  unfold close.
  destruct (finish_all env (iteration env (_partition_writer_map st)) st)
    as [r st1] eqn:Hfin.
  destruct r as [|code msg]; simpl; [|done].
  pose proof (finish_all_ok_map _ _ _ _ Hfin) as Hm1.
  destruct (finish_all_frame _ _ _ _ _ Hfin) as (Hf1 & _ & fin & Ht & Hfin').
  assert (∀ st2, _partition_writer_map st2 = _partition_writer_map st1 →
            ∀ key w, _partition_writer_map st2 !! key = Some w →
              fb_finished w = true
              ∧ ∃ w0, _partition_writer_map st !! key = Some w0
                      ∧ w = mark_finished w0) as Hfinished.
  { intros st2 Hm2 key w. rewrite Hm2, Hm1. intros Hw.
    destruct (finish_map_all_finished _ _ _ _ Hw) as (w0 & Hw0 & ->).
    split; [done|]. by eauto. }
  destruct (export_output_files st1) as [|f fs] eqn:Hfs.
  { intros [= <-]. split; [by apply Hfinished|]. split; [congruence|].
    left. split; [congruence|]. by rewrite (new_events_app _ _ _ Ht). }
  destruct (connect_status env (tick st1)) as [|code msg] eqn:Hc; simpl;
    [|done].
  intros Hsend.
  destruct (send_request_frame _ _ _ _ _ Hsend) as (Hm2 & Hf2 & _).
  destruct (send_request_ok _ _ _ _ Hsend) as [es Ht2].
  split; [by apply Hfinished|]. simpl in *. split; [congruence|].
  right. exists (fin ++ EvConnect OK :: es).
  apply new_events_app. rewrite Ht2, Ht, <- !app_assoc. simpl.
  unfold make_request. by rewrite Hfs, <- Hf1.
Qed.

Lemma close_ok_means_committed_witness :
  ∃ es,
    new_events one_row_sink (close scenario_A_config calm_env OK one_row_sink).2
    = es ++ [EvAddIcebergFiles
               (mkRequest
                  ["hdfs://wh/t/data/dt=2024-01-01/q1_10001_1700000000000.orc"]
                  1 2 750)
               (RpcReturns OK)].
Proof.
  destruct (close_ok_means_committed scenario_A_config calm_env OK one_row_sink
              (close scenario_A_config calm_env OK one_row_sink).2)
    as (_ & _ & [[Hnone _]|Hsent]).
  - vm_compute. reflexivity.
  - vm_compute in Hnone. discriminate.
  - exact Hsent.
Defined.

(** X22. A failure of the remote call that is not a transport exception
    on the first attempt is not retried: the connection is reopened, whatever
    the reopening gives, and [close] returns an internal error that names the
    master and the reason.  The same happens when the second attempt, made
    after a transport exception and a successful reopening, fails with any
    exception: two sends, two reopenings, an internal error. *)
Theorem close_reports_rpc_failure cfg env exec_status st st1 :
  finish_all env (iteration env (_partition_writer_map st)) st = (OK, st1) →
  export_output_files st1 ≠ [] →
  connect_status env (tick st1) = OK →
  let request := make_request cfg st1 in
  let t := S (tick st1) in
  let r := (close cfg env exec_status st).1 in
  let es := new_events st1 (close cfg env exec_status st).2 in
  let failure what :=
    Error InternalError
      ("Fail to add export files to iceberg table("
       +:+ hostname (master_address env) +:+ ":"
       +:+ pretty (port (master_address env)) +:+ "). reason: " +:+ what) in
  (∀ what, addIcebergFiles env t = RpcOtherException what →
     r = failure what ∧ sends es = [request] ∧ reopens es = 1%nat)
  ∧ (∀ what1 what,
       addIcebergFiles env t = RpcTransportException what1 →
       reopen_status env (S t) = OK →
       addIcebergFiles env (S (S t)) = RpcTransportException what
       ∨ addIcebergFiles env (S (S t)) = RpcOtherException what →
       r = failure what ∧ sends es = [request; request]
       ∧ reopens es = 2%nat).
Proof.
  intros Hfin Hfiles Hconn request t r es failure. subst r es.
  rewrite (close_after_finish _ _ _ _ _ Hfin).
  destruct (export_output_files st1) as [|f fs] eqn:Hf; [done|]. clear Hfiles.
  rewrite Hconn. simpl ok. cbv iota.
  set (st2 := log (EvConnect OK) st1).
  assert (tick st2 = t) as Ht by apply tick_log.
  fold request. unfold send_request, rpc_failed. rewrite Ht.
  split.
  - intros what ->. simpl. split; [done|].
    erewrite new_events_app; [|simpl; rewrite <- !app_assoc; reflexivity].
    done.
  - intros what1 what ->. rewrite tick_log, Ht. intros ->. simpl.
    rewrite !tick_log, Ht.
    intros [-> | ->]; simpl; (split; [done|]);
      (erewrite new_events_app; [|simpl; rewrite <- !app_assoc; reflexivity]);
      done.
Qed.

Lemma close_reports_rpc_failure_witness :
  (close scenario_A_config rejecting_master_env OK one_row_sink).1
  = Error InternalError
      (rpc_failure_message rejecting_master_env "table not found").
Proof.
  assert (finish_all rejecting_master_env
            (iteration rejecting_master_env (_partition_writer_map one_row_sink))
            one_row_sink
          = (OK, one_row_finished_sink)) as Hfin by (vm_compute; reflexivity).
  assert (export_output_files one_row_finished_sink ≠ []) as Hfiles
    by (vm_compute; discriminate).
  assert (connect_status rejecting_master_env (tick one_row_finished_sink) = OK)
    as Hconn by reflexivity.
  destruct (close_reports_rpc_failure scenario_A_config rejecting_master_env OK
              one_row_sink one_row_finished_sink Hfin Hfiles Hconn)
    as [Hfirst _].
  destruct (Hfirst "table not found" eq_refl) as [Hr _].
  exact Hr.
Defined.

(** X23. When the master cannot be connected, [close] returns the status
    of the connection attempt and sends nothing: every writer has been
    finished by then and stays in the map, the recorded files are kept, and
    none of them is reported to the master. *)
Theorem close_stops_when_master_unreachable cfg env exec_status st st1
    code msg :
  finish_all env (iteration env (_partition_writer_map st)) st = (OK, st1) →
  export_output_files st1 ≠ [] →
  connect_status env (tick st1) = Error code msg →
  close cfg env exec_status st
  = (Error code msg, log (EvConnect (Error code msg)) st1)
  ∧ sends (new_events st (log (EvConnect (Error code msg)) st1)) = []
  ∧ export_output_files st1 = export_output_files st
  ∧ ∀ key w, _partition_writer_map st1 !! key = Some w →
      fb_finished w = true
      ∧ ∃ w0, _partition_writer_map st !! key = Some w0
              ∧ w = mark_finished w0.
Proof.
  intros Hfin Hfiles Hconn.
  rewrite (close_after_finish _ _ _ _ _ Hfin).
  destruct (export_output_files st1) as [|f fs] eqn:Hfs; [done|].
  rewrite Hconn. simpl. split; [done|].
  destruct (finish_all_frame _ _ _ _ _ Hfin) as (Hf1 & _ & fin & Ht & Hfin').
  split.
  - erewrite new_events_app; [|simpl; rewrite Ht, <- app_assoc; reflexivity].
    rewrite sends_app. simpl. rewrite app_nil_r.
    clear -Hfin'. induction Hfin' as [|e fin He _ IH]; [done|].
    by destruct e.
  - split; [congruence|]. intros key w.
    rewrite (finish_all_ok_map _ _ _ _ Hfin). intros Hw.
    destruct (finish_map_all_finished _ _ _ _ Hw) as (w0 & Hw0 & ->).
    split; [done|]. by eauto.
Qed.

Lemma close_stops_when_master_unreachable_witness :
  close scenario_A_config unreachable_master_env OK one_row_sink
  = (Error ThriftRpcError "connection refused",
     log (EvConnect (Error ThriftRpcError "connection refused"))
       one_row_finished_sink).
Proof.
  apply (close_stops_when_master_unreachable scenario_A_config
           unreachable_master_env OK one_row_sink one_row_finished_sink).
  - vm_compute. reflexivity.
  - vm_compute. discriminate.
  - reflexivity.
Defined.

(** ** Generated file names *)

Lemma pretty_N_char_no_underscore x : pretty_N_char x ≠ "_"%char.
Proof. unfold pretty_N_char. by repeat case_match. Qed.

Lemma pretty_N_go_no_underscore x : ∀ s,
  "_"%char ∉ String.list_ascii_of_string s →
  "_"%char ∉ String.list_ascii_of_string (pretty_N_go x s).
Proof.
  induction (N.lt_wf_0 x) as [x _ IH]; intros s Hs.
  destruct (decide (x = 0)%N) as [->|Hx].
  - by rewrite pretty_N_go_0.
  - rewrite pretty_N_go_step by lia. apply IH.
    + apply N.div_lt; lia.
    + simpl. rewrite elem_of_cons. intros [H|H]; [|done].
      by apply (pretty_N_char_no_underscore (x `mod` 10)%N).
Qed.

Lemma pretty_Z_no_underscore (z : Z) :
  "_"%char ∉ String.list_ascii_of_string (pretty z).
Proof.
  assert (∀ n : N, "_"%char ∉ String.list_ascii_of_string (pretty n)) as HN.
  { intros n. unfold pretty, pretty_N. case_decide.
    - simpl. set_solver.
    - apply pretty_N_go_no_underscore. simpl. set_solver. }
  destruct z as [|p|p]; unfold pretty, pretty_Z.
  - simpl. set_solver.
  - apply HN.
  - rewrite list_ascii_of_string_app. simpl. rewrite elem_of_cons.
    intros [H|H]; [done|]. by apply (HN (N.pos p)).
Qed.

(** A list is cut at its first underscore in one way only. *)
Lemma split_at_underscore (a1 a2 b1 b2 : list ascii) :
  "_"%char ∉ a1 → "_"%char ∉ a2 →
  a1 ++ "_"%char :: b1 = a2 ++ "_"%char :: b2 → a1 = a2 ∧ b1 = b2.
Proof.
  revert a2. induction a1 as [|c a1 IH]; intros [|c2 a2] H1 H2 H; simpl in *.
  - by injection H as ->.
  - injection H as <- _. set_solver.
  - injection H as -> _. set_solver.
  - injection H as -> H. destruct (IH a2) as [-> ->]; (done || set_solver).
Qed.

Lemma string_of_list_inj s1 s2 :
  String.list_ascii_of_string s1 = String.list_ascii_of_string s2 → s1 = s2.
Proof.
  intros H. apply (f_equal String.string_of_list_ascii) in H.
  by rewrite !String.string_of_list_ascii_of_string in H.
Qed.

Lemma file_name_inj env1 env2 prefix t1 t2 :
  file_name env1 prefix t1 = file_name env2 prefix t2 →
  backend_id env1 = backend_id env2 ∧ t1 = t2.
Proof.
  unfold file_name. intros H. apply String.app_inj in H.
  apply (f_equal String.list_ascii_of_string) in H.
  simpl in H. injection H as H.
  rewrite !list_ascii_of_string_app in H. simpl in H.
  apply split_at_underscore in H as [Hb Ht];
    try apply pretty_Z_no_underscore.
  split.
  - apply string_of_list_inj in Hb. by apply pretty_Z_inj in Hb.
  - apply app_inv_tail, string_of_list_inj in Ht.
    by apply pretty_Z_inj in Ht.
Qed.

(** X24. The name [gen_file_name] generates for a sink determines the
    backend and the clock reading it was generated from: two sinks with the
    same configuration that run on different backends never generate the
    same name, and neither does one backend at two different clock
    readings. *)
Theorem generated_names_identify_backend_and_time cfg env1 env2 st1 st2 name
    st1' st2' :
  gen_file_name cfg env1 st1 = (OK, name, st1') →
  gen_file_name cfg env2 st2 = (OK, name, st2') →
  backend_id env1 = backend_id env2
  ∧ UnixMillis env1 (tick st1) = UnixMillis env2 (tick st2).
Proof.
  unfold gen_file_name.
  destruct (file_name_prefix cfg) as [prefix|]; [|done].
  destruct (String.eqb (file_format cfg) "orc"); [|done].
  intros [= <- _] [= H _]. symmetry in H. by apply file_name_inj in H.
Qed.

Lemma generated_names_identify_backend_and_time_witness :
  UnixMillis calm_env (tick initial_sink)
  = UnixMillis frozen_clock_env (tick one_row_sink).
Proof.
  refine (proj2 (generated_names_identify_backend_and_time scenario_A_config
                   calm_env frozen_clock_env initial_sink one_row_sink
                   "q1_10001_1700000000000.orc" _ _ _ _)).
  - vm_compute. reflexivity.
  - vm_compute. reflexivity.
Defined.

(** ** Errors are not swallowed *)

Lemma open_partition_writer_ok cfg env key st st' :
  open_partition_writer cfg env key st = (OK, st') →
  ∃ es, trace st' = trace st ++ es ∧ Forall (λ e, event_status e = OK) es.
Proof.
  unfold open_partition_writer, gen_file_name.
  destruct (file_name_prefix cfg); simpl; [|done].
  destruct (String.eqb (file_format cfg) "orc"); simpl; [|done].
  destruct (broker_addresses cfg); [done|].
  destruct (fs_broker_new_writable_file env _ _) eqn:Hnew; simpl; [|done].
  intros [= <-]. unfold insert_writer. simpl.
  eexists [_; _].
  destruct (_partition_writer_map st !! key); simpl; rewrite <- app_assoc;
    (split; [reflexivity|by repeat constructor]).
Qed.

Lemma prepare_partition_writer_ok cfg env key st st' :
  prepare_partition_writer cfg env key st = (OK, st') →
  ∃ es, trace st' = trace st ++ es ∧ Forall (λ e, event_status e = OK) es.
Proof.
  unfold prepare_partition_writer.
  destruct (_partition_writer_map st !! key) as [w|].
  - destruct (budget_reached cfg w).
    2:{ intros [= <-]. exists []. by rewrite app_nil_r. }
    unfold finish_writer.
    destruct (finish_status env (tick st)) as [|code msg]; simpl; [|done].
    intros Hopen. apply open_partition_writer_ok in Hopen as (es & Ht & Hes).
    simpl in Ht. exists (EvFinish (fb_path w) OK :: es).
    rewrite Ht, <- app_assoc. split; [done|]. by constructor.
  - apply open_partition_writer_ok.
Qed.

Lemma write_to_partition_ok cfg env chunk key st st' :
  write_to_partition cfg env chunk key st = Done (OK, st') →
  ∃ es, trace st' = trace st ++ es ∧ Forall (λ e, event_status e = OK) es.
Proof.
  unfold write_to_partition.
  destruct (prepare_partition_writer cfg env key st) as [s st1] eqn:Hprep.
  destruct s as [|code msg]; simpl; [|done].
  apply prepare_partition_writer_ok in Hprep as (es & Ht & Hes).
  destruct (_partition_writer_map st1 !! key) as [w|]; [|done].
  unfold add_chunk. intros [= Hr <-]. simpl.
  exists (es ++ [EvAddChunk (fb_path w) (fb_size w) chunk OK]).
  rewrite Ht, <- app_assoc, Hr. split; [done|].
  apply Forall_app. split; [done|]. by repeat constructor.
Qed.

Lemma write_partitions_ok cfg env chunk base refs keys : ∀ j status st st',
  write_partitions cfg env chunk base refs keys j status st = Done (OK, st') →
  ∃ es, trace st' = trace st ++ es ∧ Forall (λ e, event_status e = OK) es.
Proof.
  induction keys as [|key keys IH]; intros j status st st' H; simpl in H.
  - injection H as _ <-. exists []. by rewrite app_nil_r.
  - destruct (clone_selective chunk _) as [cur|]; [|done].
    destruct (write_to_partition cfg env cur (str_value key) st)
      as [[r1 st1]|] eqn:Hw; [|done].
    destruct r1 as [|code msg]; simpl in H; [|done].
    apply write_to_partition_ok in Hw as (es1 & Ht1 & Hes1).
    apply IH in H as (es2 & Ht2 & Hes2).
    exists (es1 ++ es2). rewrite Ht2, Ht1, <- app_assoc. split; [done|].
    by apply Forall_app.
Qed.

(** X25. [send_chunk] swallows no error: when it returns OK, every
    external call it made (creating a file, finishing a writer, appending a
    chunk) returned OK. *)
Theorem send_chunk_ok_means_every_call_succeeded cfg env chunk st st' chunk' :
  send_chunk cfg env chunk st = Done (OK, st', chunk') →
  Forall (λ e, event_status e = OK) (new_events st st').
Proof.
  unfold send_chunk, partition_and_write.
  destruct (output_chunk cfg chunk) as [[s|[written caller]]|]; [| |done].
  { intros [= -> <- <-]. unfold new_events. by rewrite drop_all. }
  assert (∀ o : Outcome (Status * Sink),
            match o with
            | Done (s, st1) => Done (s, st1, caller)
            | Crash f => Crash f
            end = Done (OK, st', chunk') →
            o = Done (OK, st')) as Hshape.
  { intros [[s st1]|f] H; [|done]. by injection H as -> -> _. }
  intros H. apply Hshape in H. clear Hshape.
  assert (∃ es, trace st' = trace st ++ es
                ∧ Forall (λ e, event_status e = OK) es) as (es & Ht & Hes).
  { destruct (resolve_partition_columns cfg written) as [arr|]; [|done].
    destruct (assign_rows _ _ _ _ _ _ _) as [[s|[v refs]]|]; [| |done].
    - injection H as _ <-. exists []. by rewrite app_nil_r.
    - destruct (vec_elems v) as [|key [|key2 keys]].
      + injection H as <-. exists []. by rewrite app_nil_r.
      + by apply write_to_partition_ok in H.
      + by apply write_partitions_ok in H. }
  by rewrite (new_events_app _ _ _ Ht).
Qed.

Lemma send_chunk_ok_means_every_call_succeeded_witness :
  Forall (λ e, event_status e = OK) (new_events initial_sink one_row_sink).
Proof.
  apply (send_chunk_ok_means_every_call_succeeded scenario_A_config calm_env
           one_row_chunk initial_sink one_row_sink
           (bind_slot_ids (slots scenario_A_config) 0
              (reset_slot_id_to_index one_row_chunk))).
  vm_compute. reflexivity.
Defined.

(** ** The format of a partition key *)

Lemma length_zeros n : String.length (zeros n) = n.
Proof. induction n as [|n IH]; simpl; [done|by rewrite IH]. Qed.

Lemma string_length_app (s1 s2 : string) :
  String.length (s1 +:+ s2) = (String.length s1 + String.length s2)%nat.
Proof. induction s1 as [|c s1 IH]; simpl; [done|by rewrite IH]. Qed.

(** Padding gives the width asked for, and leaves a string that is long
    enough as it is. *)
Lemma length_zero_pad width s :
  String.length (zero_pad width s) = (width `max` String.length s)%nat
  ∧ ((width ≤ String.length s)%nat → zero_pad width s = s).
Proof.
  unfold zero_pad. split.
  - rewrite string_length_app, length_zeros. lia.
  - intros Hle. by replace (width - String.length s)%nat with 0%nat by lia.
Qed.

(** The days of some instants: the epoch, the last second before it, the
    first second of the years 0 and 1, a leap day and the last second of the
    year 9999. *)
Lemma day_string_examples :
  day_string 0 = "1970-01-01"
  ∧ day_string (-1) = "1969-12-31"
  ∧ day_string (-62167219200) = "0000-01-01"
  ∧ day_string (-62135596800) = "0001-01-01"
  ∧ day_string 1709164800 = "2024-02-29"
  ∧ day_string 253402300799 = "9999-12-31".
Proof. repeat split; vm_compute; reflexivity. Qed.

Lemma string_app_nil_r (s : string) : s +:+ "" = s.
Proof.
  induction s as [|c s IH]; [done|].
  change (String c s +:+ "") with (String c (s +:+ "")). by rewrite IH.
Qed.

Lemma string_app_assoc (s1 s2 s3 : string) :
  (s1 +:+ s2) +:+ s3 = s1 +:+ (s2 +:+ s3).
Proof.
  induction s1 as [|c s1 IH]; [done|].
  change (String c ((s1 +:+ s2) +:+ s3) = String c (s1 +:+ (s2 +:+ s3))).
  by rewrite IH.
Qed.

Lemma derive_key_pieces env arr i pcs : ∀ k acc timestamps,
  Forall (λ pc, transform pc = "day") pcs →
  length timestamps = length pcs →
  (∀ j ts, timestamps !! j = Some ts →
     ∃ col, arr !! (k + j)%nat = Some (Some col)
            ∧ col !! i = Some (DTimestamp ts)) →
  derive_key env pcs arr k i acc
  = Done (inr (acc +:+ key_of_pieces env pcs timestamps)).
Proof.
  induction pcs as [|pc pcs IH]; intros k acc [|ts timestamps] Hday Hlen Hread;
    simpl in *; try done.
  - by rewrite string_app_nil_r.
  - apply Forall_cons in Hday as [-> Hday]. simpl.
    destruct (Hread 0%nat ts eq_refl) as (col & Hcol & Hts).
    rewrite Nat.add_0_r in Hcol. rewrite Hcol, Hts.
    rewrite (IH (S k) _ timestamps); [|done|lia|].
    + do 2 f_equal. unfold key_piece.
      by rewrite !string_app_assoc.
    + intros j ts' Hj. destruct (Hread (S j) ts' Hj) as (col' & H1 & H2).
      exists col'. by rewrite <- H1, Nat.add_succ_r.
Qed.

Lemma key_of_pieces_same_days env pcs : ∀ timestamps timestamps',
  Forall2 (λ ts ts', (ts - utc_offset env) / 86400
                     = (ts' - utc_offset env) / 86400)
          timestamps timestamps' →
  key_of_pieces env pcs timestamps = key_of_pieces env pcs timestamps'.
Proof.
  induction pcs as [|pc pcs IH]; intros timestamps timestamps' Hdays;
    [by destruct Hdays|].
  destruct Hdays as [|ts ts' timestamps timestamps' Hday Hdays]; [done|].
  simpl. rewrite (IH _ _ Hdays). unfold key_piece, day_string.
  by rewrite Hday.
Qed.

(** X26. When every partition column is a day column whose column holds a
    timestamp in the row and the timestamps, moved by the offset of the
    default time zone, lie in the years 0000 to 9999, the key of the row is
    the concatenation, in the order of the partition columns, of one piece
    per column: the name of the partition field, "=", the day of the moved
    timestamp, and "/".  Without partition columns the key is empty.  Two
    rows whose moved timestamps fall on the same days have the same key. *)
Theorem partition_key_is_made_of_day_pieces env pcs arr i timestamps :
  Forall (λ pc, transform pc = "day") pcs →
  Forall (λ ts, -62167219200 ≤ ts - utc_offset env ≤ 253402300799)
         timestamps →
  length timestamps = length pcs →
  (∀ j ts, timestamps !! j = Some ts →
     ∃ col, arr !! j = Some (Some col) ∧ col !! i = Some (DTimestamp ts)) →
  derive_key env pcs arr 0 i "" = Done (inr (key_of_pieces env pcs timestamps))
  ∧ (pcs = [] → key_of_pieces env pcs timestamps = "")
  ∧ (∀ i' timestamps',
       (∀ j ts, timestamps' !! j = Some ts →
          ∃ col, arr !! j = Some (Some col)
                 ∧ col !! i' = Some (DTimestamp ts)) →
       Forall2 (λ ts ts', (ts - utc_offset env) / 86400
                          = (ts' - utc_offset env) / 86400)
               timestamps timestamps' →
       derive_key env pcs arr 0 i' "" = derive_key env pcs arr 0 i "").
Proof.
  intros Hday _ Hlen Hread.
  assert (derive_key env pcs arr 0 i ""
          = Done (inr (key_of_pieces env pcs timestamps))) as Hkey
    by by rewrite (derive_key_pieces env arr i pcs 0 "" timestamps).
  split; [done|]. split; [by intros ->|].
  intros i' timestamps' Hread' Hdays.
  rewrite Hkey, (derive_key_pieces env arr i' pcs 0 "" timestamps'); try done.
  - by rewrite (key_of_pieces_same_days env pcs _ _ Hdays).
  - rewrite <- Hlen. symmetry. by eapply Forall2_length.
Qed.

Lemma partition_key_is_made_of_day_pieces_witness :
  derive_key calm_env (partitionColumns scenario_A_config) scenario_A_columns
    0 0 ""
  = Done (inr "dt=2024-01-01/")
  ∧ derive_key calm_env (partitionColumns scenario_A_config) scenario_A_columns
      0 1 ""
    = derive_key calm_env (partitionColumns scenario_A_config)
        scenario_A_columns 0 0 "".
Proof.
  assert (Forall (λ pc, transform pc = "day")
            (partitionColumns scenario_A_config)) as Hday
    by (by repeat constructor).
  assert (∀ j ts, [1704067800] !! j = Some ts →
            ∃ col, scenario_A_columns !! j = Some (Some col)
                   ∧ col !! 0%nat = Some (DTimestamp ts)) as Hread.
  { intros [|j] ts Hj; [|done]. injection Hj as <-.
    eexists. split; reflexivity. }
  assert (Forall (λ ts, -62167219200 ≤ ts - utc_offset calm_env
                        ≤ 253402300799) [1704067800]) as Hrange.
  { repeat constructor; vm_compute; discriminate. }
  destruct (partition_key_is_made_of_day_pieces calm_env
              (partitionColumns scenario_A_config) scenario_A_columns 0
              [1704067800] Hday Hrange eq_refl Hread) as (Hkey & _ & Hsame).
  split; [exact Hkey|].
  apply (Hsame 1%nat [1704153000]).
  - intros [|j] ts Hj; [|done]. injection Hj as <-.
    eexists. split; reflexivity.
  - by repeat constructor.
Defined.

(** ** More matching slots than partition columns *)

Lemma bind_column_overflow name chunk ss : ∀ cols d,
  Forall (slot_bound chunk) ss →
  (d < length (matching_slots name ss))%nat →
  bind_column name ss chunk (packed cols d) (length cols) = Crash OutOfRange.
Proof.
  induction ss as [|s ss IH]; intros cols d Hbound Hd; simpl in *; [lia|].
  apply Forall_cons in Hbound as [[col Hcol] Hbound].
  rewrite matching_slots_cons in Hd.
  destruct (String.eqb (col_name s) name); [|by apply IH].
  rewrite Hcol. destruct d as [|d].
  - assert ((length cols <? length (packed cols 0))%nat = false) as ->; [|done].
    apply Nat.ltb_ge. unfold packed.
    rewrite length_app, length_fmap. simpl. lia.
  - assert ((length cols <? length (packed cols (S d)))%nat = true) as ->.
    { apply Nat.ltb_lt. unfold packed.
      rewrite length_app, length_fmap, length_replicate. lia. }
    rewrite packed_insert.
    replace (S (length cols)) with (length (cols ++ [col]))
      by (rewrite length_app; simpl; lia).
    apply IH; [done|]. simpl in Hd. lia.
Qed.

Lemma bind_columns_overflow ss chunk pcs : ∀ cols d,
  Forall (slot_bound chunk) ss →
  (d < length (bound_columns ss chunk pcs))%nat →
  bind_columns pcs ss chunk (packed cols d) (length cols) = Crash OutOfRange.
Proof.
  induction pcs as [|pc pcs IH]; intros cols d Hbound Hd; simpl in *; [lia|].
  rewrite length_app, length_fmap in Hd.
  destruct (decide (length (matching_slots (columnName pc) ss) ≤ d)%nat)
    as [Hfit|Hover].
  - rewrite bind_column_packed by done. apply IH; [done|]. lia.
  - rewrite bind_column_overflow; (done || lia).
Qed.

(** X27. Every output slot having its column in the chunk: when the output
    slots that carry the name of some partition column outnumber the
    partition columns (one name on two slots, say), resolving the partition
    columns stores a column past the end of the array, and [send_chunk] has
    no defined result. *)
Theorem surplus_matches_overflow_the_array cfg env chunk st written caller :
  output_chunk cfg chunk = Done (inr (written, caller)) →
  Forall (slot_bound written) (slots cfg) →
  (length (partitionColumns cfg)
   < length (bound_columns (slots cfg) written (partitionColumns cfg)))%nat →
  resolve_partition_columns cfg written = Crash OutOfRange
  ∧ send_chunk cfg env chunk st = Crash OutOfRange.
Proof.
  intros Hout Hbound Hlen.
  assert (resolve_partition_columns cfg written = Crash OutOfRange) as Hres.
  { exact (bind_columns_overflow _ _ _ [] _ Hbound Hlen). }
  split; [done|]. unfold send_chunk, partition_and_write.
  by rewrite Hout, Hres.
Qed.

Lemma surplus_matches_overflow_the_array_witness :
  send_chunk twice_named_config calm_env scenario_A_chunk initial_sink
  = Crash OutOfRange.
Proof.
  refine (proj2 (surplus_matches_overflow_the_array twice_named_config calm_env
                   scenario_A_chunk initial_sink
                   (bind_slot_ids (slots twice_named_config) 0
                      (reset_slot_id_to_index scenario_A_chunk))
                   _ eq_refl _ _)).
  - repeat constructor; eexists; vm_compute; reflexivity.
  - vm_compute. lia.
Defined.

(** ** Two short keys *)

(** Rows whose keys are all in the vector leave the vector and the heap as
    they are and cache the pointer of the key they find. *)
Lemma assign_rows_found_range env pcs arr (key_of : nat → string) v h :
  ∀ a k refs rest,
  (k + a ≤ length refs)%nat →
  (∀ i, (k ≤ i < k + a)%nat →
     derive_key env pcs arr 0 i "" = Done (inr (key_of i))
     ∧ is_Some (find_key (key_of i) (vec_elems v))) →
  ∃ refs',
    assign_rows env pcs arr (seq k a ++ rest) v h refs
    = assign_rows env pcs arr rest v h refs'
    ∧ length refs' = length refs
    ∧ (∀ i, ¬ (k ≤ i < k + a)%nat → refs' !! i = refs !! i)
    ∧ (∀ i, (k ≤ i < k + a)%nat →
         ∃ j s, find_key (key_of i) (vec_elems v) = Some (j, s)
                ∧ refs' !! i = Some (data env (vec_base v) j s)).
Proof.
  induction a as [|a IH]; intros k refs rest Hlen Hfound.
  - exists refs. split; [done|]. split; [done|]. split; [done|].
    intros i Hi. lia.
  - destruct (Hfound k) as [Hkey [[j s] Hfind]]; [lia|].
    destruct (IH (S k) (<[k := data env (vec_base v) j s]> refs) rest)
      as (refs' & Hrun & Hlen' & Hother & Hrange).
    { rewrite length_insert. lia. }
    { intros i Hi. apply Hfound. lia. }
    exists refs'. split; [|split; [|split]].
    + cbn [seq app assign_rows].
      by rewrite (assign_row_found env pcs arr k v h refs (key_of k) j s).
    + by rewrite Hlen', length_insert.
    + intros i Hi. rewrite Hother by lia. apply list_lookup_insert_ne. lia.
    + intros i Hi. destruct (decide (i = k)) as [->|Hne].
      * exists j, s. split; [done|]. rewrite Hother by lia.
        apply list_lookup_insert_eq. lia.
      * apply Hrange. lia.
Qed.

Lemma seq_split_at n m :
  (0 < m < n)%nat →
  seq 0 n = 0%nat :: (seq 1 (m - 1) ++ m :: seq (S m) (n - S m) ++ []).
Proof.
  intros Hm. rewrite app_nil_r.
  replace n with (1 + ((m - 1) + (1 + (n - S m))))%nat at 1 by lia.
  rewrite !seq_app. simpl. do 4 f_equal; lia.
Qed.

Section TwoShortKeys.
Variable env : Env.
Hypothesis Hmalloc : valid_malloc env.
Hypothesis Hsize : 0 < string_size env.

(** X28. A batch with two distinct keys, both short enough to be stored
    inside the string object: the first [m] rows have the first key and row
    [m] is the first row with the second key.  The vector of keys moves when
    the second key is appended, so the pointers cached for the first [m] rows
    point into storage that no key of the final vector has: the rows selected
    for the first key are only the rows after row [m] that have it, the rows
    selected for the second key are all the rows that have it, and the first
    [m] rows are selected for no key. *)
Theorem two_short_keys_lose_the_leading_rows pcs arr n m
    (key_of : nat → string) key1 key2 :
  key1 ≠ key2 →
  is_inline env key1 = true →
  is_inline env key2 = true →
  (0 < m < n)%nat →
  (∀ i, (i < n)%nat → derive_key env pcs arr 0 i "" = Done (inr (key_of i))) →
  (∀ i, (i < m)%nat → key_of i = key1) →
  key_of m = key2 →
  (∀ i, (m < i < n)%nat → key_of i = key1 ∨ key_of i = key2) →
  ∃ v refs,
    assign_rows env pcs arr (seq 0 n) (mkKeyVector 0 0 []) (mkHeap [] 0)
      (replicate n 0) = Done (inr (v, refs))
    ∧ vec_elems v = [mkStdString key1 0; mkStdString key2 0]
    ∧ (∀ i, i ∈ select_idx refs 0
                  (data env (vec_base v) 0 (mkStdString key1 0))
            ↔ (m < i < n)%nat ∧ key_of i = key1)
    ∧ (∀ i, i ∈ select_idx refs 0
                  (data env (vec_base v) 1 (mkStdString key2 0))
            ↔ (i < n)%nat ∧ key_of i = key2).
Proof.
  intros Hne Hin1 Hin2 Hm Hkeys Hfirst Hsecond Hrest.
  set (s1 := mkStdString key1 0). set (s2 := mkStdString key2 0).
  set (S1 := string_size env * Z.of_nat 1).
  set (S2 := string_size env * Z.of_nat 2).
  set (b1 := malloc env 0 [] S1).
  set (b2 := malloc env 1 [mkBlock b1 S1] S2).
  set (p1 := b1 + string_size env * Z.of_nat 0 + inline_offset env).
  set (q1 := b2 + string_size env * Z.of_nat 0 + inline_offset env).
  set (q2 := b2 + string_size env * Z.of_nat 1 + inline_offset env).
  assert (p1 ≠ q1 ∧ p1 ≠ q2 ∧ q1 ≠ q2) as (Hp1 & Hp2 & Hq).
  { assert (0 < S1 ∧ S2 = S1 + S1) as [HS1 HS2] by (unfold S1, S2; lia).
    destruct (Hmalloc 1%nat [mkBlock b1 S1] S2 (mkBlock b1 S1))
      as [Hd|Hd]; [lia|by left|done|..]; fold b2 in Hd; simpl in Hd;
      unfold p1, q1, q2, S1 in *; lia. }
  assert (find_key key1 [s1] = Some (0%nat, s1)) as Hf1.
  { unfold find_key. simpl. by rewrite decide_True. }
  assert (find_key key1 [s1; s2] = Some (0%nat, s1)) as Hf1'.
  { unfold find_key. simpl. by rewrite decide_True. }
  assert (find_key key2 [s1; s2] = Some (1%nat, s2)) as Hf2.
  { unfold find_key. simpl. rewrite decide_False by done.
    by rewrite decide_True. }
  assert (find_key key2 [s1] = None) as Hf2'.
  { unfold find_key. simpl. by rewrite decide_False. }
  rewrite (seq_split_at n m Hm). cbn [assign_rows].
  (* row 0: the first key enters the empty vector *)
  rewrite (assign_row_new_inline env pcs arr 0 _ _ _ key1);
    [|rewrite <- (Hfirst 0%nat) by lia; apply Hkeys; lia|done|done].
  rewrite emplace_back_full_inline by done. vector_step.
  fold S1. fold b1. fold p1. fold s1.
  (* rows 1 .. m-1 find the first key *)
  destruct (assign_rows_found_range env pcs arr key_of
              (mkKeyVector b1 1 [s1]) (mkHeap [mkBlock b1 S1] 1)
              (m - 1) 1 (<[0%nat := p1]> (replicate n 0))
              (m :: seq (S m) (n - S m) ++ []))
    as (refs2 & -> & Hlen2 & Hother2 & Hrange2).
  { rewrite length_insert, length_replicate. lia. }
  { intros i Hi. split; [apply Hkeys; lia|].
    rewrite Hfirst by lia. cbn [vec_elems]. by rewrite Hf1. }
  (* row m: the second key moves the vector *)
  cbn [assign_rows].
  rewrite (assign_row_new_inline env pcs arr m _ _ _ key2);
    [|rewrite <- Hsecond; apply Hkeys; lia|done|done].
  rewrite emplace_back_full_inline by done. vector_step.
  fold S1. fold S2. fold b2. fold s1. fold s2.
  change (b2 + S1 + inline_offset env) with q2.
  (* the rows after row m find their key in the final vector *)
  lazymatch goal with
  | |- context [assign_rows _ _ _ _ (mkKeyVector b2 2 [s1; s2]) ?h _] =>
      destruct (assign_rows_found_range env pcs arr key_of
                  (mkKeyVector b2 2 [s1; s2]) h
                  (n - S m) (S m) (<[m := q2]> refs2) [])
        as (refs4 & -> & Hlen4 & Hother4 & Hrange4)
  end.
  { rewrite length_insert, Hlen2, length_insert, length_replicate. lia. }
  { intros i Hi. split; [apply Hkeys; lia|]. cbn [vec_elems].
    destruct (Hrest i) as [-> | ->]; [lia|by rewrite Hf1'|by rewrite Hf2]. }
  cbn [assign_rows]. eexists _, _. split; [reflexivity|]. split; [done|].
  cbn [vec_base]. unfold data, s1, s2. cbn [str_value].
  rewrite Hin1, Hin2. fold q1 q2 s1 s2.
  assert (length refs4 = n) as Hn.
  { rewrite Hlen4, length_insert, Hlen2, length_insert, length_replicate.
    done. }
  assert (∀ i, (i < m)%nat → refs4 !! i = Some p1) as Hlead.
  { intros i Hi. rewrite Hother4 by lia.
    rewrite list_lookup_insert_ne by lia.
    destruct (decide (i = 0%nat)) as [->|Hi0].
    - rewrite Hother2 by lia. apply list_lookup_insert_eq.
      rewrite length_replicate. lia.
    - destruct (Hrange2 i) as (j & s & Hfind & ->); [lia|].
      rewrite Hfirst in Hfind by lia. cbn [vec_elems] in Hfind.
      rewrite Hf1 in Hfind. injection Hfind as <- <-.
      unfold data, s1. cbn [str_value vec_base]. by rewrite Hin1. }
  assert (refs4 !! m = Some q2) as Hat.
  { rewrite Hother4 by lia. apply list_lookup_insert_eq.
    rewrite Hlen2, length_insert, length_replicate. lia. }
  assert (∀ i, (m < i < n)%nat →
            (key_of i = key1 ∧ refs4 !! i = Some q1)
            ∨ (key_of i = key2 ∧ refs4 !! i = Some q2)) as Htail.
  { intros i Hi. destruct (Hrange4 i) as (j & s & Hfind & Hr); [lia|].
    cbn [vec_elems vec_base] in Hfind, Hr.
    destruct (Hrest i Hi) as [Hk|Hk]; rewrite Hk in Hfind.
    - rewrite Hf1' in Hfind. injection Hfind as <- <-. left.
      split; [done|]. rewrite Hr. unfold data, s1. cbn [str_value].
      by rewrite Hin1.
    - rewrite Hf2 in Hfind. injection Hfind as <- <-. right.
      split; [done|]. rewrite Hr. unfold data, s2. cbn [str_value].
      by rewrite Hin2. }
  assert (∀ i p, i ∈ select_idx refs4 0 p ↔ refs4 !! i = Some p) as Hsel.
  { intros i p. rewrite select_idx_spec. split.
    - by intros (j & -> & Hj).
    - intros Hi. by exists i. }
  split; intros i; rewrite Hsel.
  - split.
    + intros Hi. assert (i < n)%nat as Hlt.
      { apply lookup_lt_Some in Hi. lia. }
      destruct (decide (i < m)%nat) as [Hi1|Hi1].
      { rewrite Hlead in Hi by done. congruence. }
      destruct (decide (i = m)) as [->|Hi2]; [congruence|].
      destruct (Htail i) as [[Hk _]|[_ Hr]]; [lia| |congruence].
      split; [lia|done].
    + intros [Hi Hk]. destruct (Htail i Hi) as [[_ Hr]|[Hk2 _]]; [done|].
      congruence.
  - split.
    + intros Hi. assert (i < n)%nat as Hlt.
      { apply lookup_lt_Some in Hi. lia. }
      split; [done|].
      destruct (decide (i < m)%nat) as [Hi1|Hi1].
      { rewrite Hlead in Hi by done. congruence. }
      destruct (decide (i = m)) as [->|Hi2]; [done|].
      destruct (Htail i) as [[_ Hr]|[Hk _]]; [lia|congruence|done].
    + intros [Hi Hk].
      destruct (decide (i < m)%nat) as [Hi1|Hi1].
      { rewrite Hfirst in Hk by done. congruence. }
      destruct (decide (i = m)) as [->|Hi2]; [done|].
      destruct (Htail i) as [[Hk1 _]|[_ Hr]]; [lia|congruence|done].
Qed.
End TwoShortKeys.

Lemma two_short_keys_lose_the_leading_rows_witness :
  ∃ v refs,
    assign_rows calm_env (partitionColumns scenario_A_config)
      scenario_A_columns (seq 0 3) (mkKeyVector 0 0 []) (mkHeap [] 0)
      (replicate 3 0) = Done (inr (v, refs))
    ∧ vec_elems v
      = [mkStdString "dt=2024-01-01/" 0; mkStdString "dt=2024-01-02/" 0]
    ∧ 0%nat ∉ select_idx refs 0
               (data calm_env (vec_base v) 0 (mkStdString "dt=2024-01-01/" 0)).
Proof.
  destruct (two_short_keys_lose_the_leading_rows calm_env
              calm_env_valid_malloc ltac:(reflexivity)
              (partitionColumns scenario_A_config) scenario_A_columns 3 2
              (λ i, if (i <? 2)%nat then "dt=2024-01-01/" else "dt=2024-01-02/")
              "dt=2024-01-01/" "dt=2024-01-02/")
    as (v & refs & Hrun & Hv & Hfirst & _).
  - discriminate.
  - reflexivity.
  - reflexivity.
  - lia.
  - intros i Hi. destruct i as [|[|[|i]]]; [vm_compute; reflexivity..|lia].
  - intros i Hi. destruct i as [|[|i]]; [reflexivity..|lia].
  - reflexivity.
  - intros i Hi. lia.
  - exists v, refs. split; [exact Hrun|]. split; [exact Hv|].
    intros H0. apply Hfirst in H0 as [H0 _]. lia.
Defined.

(** ** From an append to the commit *)

(** X29. When [close] returns OK at some point of the sink's lifetime,
    every file to which a chunk was appended has been reported to the
    master: the last call of [close] is a remote call that the master
    answered with OK, and its request carries the recorded files, among them
    the file of every append. *)
Theorem written_files_are_committed cfg env st exec_status st' path size
    chunk r :
  reachable cfg env st →
  close cfg env exec_status st = (OK, st') →
  EvAddChunk path size chunk r ∈ trace st →
  ∃ es request,
    new_events st st' = es ++ [EvAddIcebergFiles request (RpcReturns OK)]
    ∧ req_files request = export_output_files st
    ∧ path ∈ req_files request.
Proof.
  intros Hreach Hclose Happend. apply reachable_steps in Hreach.
  assert (path ∈ export_output_files st) as Hpath.
  { apply list_elem_of_split in Happend as (es1 & es2 & Ht).
    pose proof (steps_appends cfg env st Hreach _ _ _ _ _ _ Ht) as Hin.
    rewrite (steps_created_files cfg env st Hreach), Ht, created_files_app.
    set_solver. }
  unfold close in Hclose.
  destruct (finish_all env (iteration env (_partition_writer_map st)) st)
    as [s st1] eqn:Hfin.
  destruct s as [|code msg]; simpl in Hclose; [|done].
  destruct (finish_all_frame _ _ _ _ _ Hfin) as (Hf1 & _ & fin & Ht & _).
  destruct (export_output_files st1) as [|f fs] eqn:Hfs.
  { rewrite <- Hf1 in Hpath. by apply elem_of_nil in Hpath. }
  destruct (connect_status env (tick st1)) as [|code msg]; simpl in Hclose;
    [|done].
  destruct (send_request_ok _ _ _ _ Hclose) as [es Ht2].
  exists (fin ++ EvConnect OK :: es), (make_request cfg st1).
  split; [|split].
  - apply new_events_app. rewrite Ht2. simpl. by rewrite Ht, <- !app_assoc.
  - simpl. congruence.
  - simpl. congruence.
Qed.

Lemma written_files_are_committed_witness :
  ∃ es request,
    new_events one_row_sink (close scenario_A_config calm_env OK one_row_sink).2
    = es ++ [EvAddIcebergFiles request (RpcReturns OK)]
    ∧ req_files request = export_output_files one_row_sink.
Proof.
  destruct (written_files_are_committed scenario_A_config calm_env one_row_sink
              OK (close scenario_A_config calm_env OK one_row_sink).2
              "hdfs://wh/t/data/dt=2024-01-01/q1_10001_1700000000000.orc" 0
              (bind_slot_ids (slots scenario_A_config) 0
                 (reset_slot_id_to_index one_row_chunk))
              OK one_row_sink_reachable)
    as (es & request & Hev & Hfiles & _).
  - vm_compute. reflexivity.
  - apply (list_elem_of_lookup_2 _ 2%nat). vm_compute. reflexivity.
  - exists es, request. split; [exact Hev | exact Hfiles].
Defined.

(** ** Files finished before close *)

Lemma steps_erased cfg env st :
  rtc (sink_step cfg env) initial_sink st →
  ∀ w, w ∈ erased_writers st →
    fb_finished w = true
    ∧ budget_reached cfg w = true
    ∧ fb_path w ∈ export_output_files st.
Proof.
  intros Hsteps. revert st Hsteps.
  apply (rtc_ind_r (λ st, ∀ w, w ∈ erased_writers st →
                      fb_finished w = true
                      ∧ budget_reached cfg w = true
                      ∧ fb_path w ∈ export_output_files st)).
  { intros w H. by apply elem_of_nil in H. }
  intros st1 st2 Hsteps Hstep IH w.
  pose proof (steps_writers cfg env st1 Hsteps) as Hlive.
  destruct Hstep as [| | st key w0 Hw0 Hb | | |]; simpl; try apply IH.
  - rewrite elem_of_app, list_elem_of_singleton. intros [Hw| ->].
    + by apply IH.
    + split; [done|]. split; [done|]. by apply (Hlive key w0).
  - intros Hw. destruct (IH w Hw) as (? & ? & ?). repeat split; try done.
    set_solver.
Qed.

(** X30. Before [close], a file is finished only when it has reached the
    byte budget: at any point of the sink's lifetime every writer that was
    erased from the map is finished, its size had reached the budget (for a
    budget that is not negative: the size is at least the budget), and its
    file stays among the recorded output files. *)
Theorem files_are_finished_early_only_at_the_budget cfg env st w :
  reachable cfg env st →
  w ∈ erased_writers st →
  fb_finished w = true
  ∧ budget_reached cfg w = true
  ∧ (0 ≤ bytes_per_file cfg < 2 ^ 63 → bytes_per_file cfg ≤ fb_size w)
  ∧ fb_path w ∈ export_output_files st.
Proof.
  intros Hreach Hw. apply reachable_steps in Hreach.
  destruct (steps_erased cfg env st Hreach w Hw) as (Hfin & Hb & Hpath).
  repeat split; try done. intros HB. by apply budget_reached_spec.
Qed.

Lemma files_are_finished_early_only_at_the_budget_witness :
  let path := "hdfs://wh/t/data/dt=2024-01-01/q1_10001_1700000000000.orc" in
  let written := bind_slot_ids (slots small_budget_config) 0
                   (reset_slot_id_to_index one_row_chunk) in
  let st1 := sink_after small_budget_config calm_env one_row_chunk
               initial_sink in
  let st2 := sink_after small_budget_config calm_env one_row_chunk st1 in
  bytes_per_file small_budget_config
  ≤ fb_size (mkFileBuilder path 100 [written] true).
Proof.
  intros path written st1 st2.
  assert (reachable small_budget_config calm_env st2) as Hreach.
  { apply (reachable_send _ _ st1 one_row_chunk OK st2 written).
    - apply (reachable_send _ _ initial_sink one_row_chunk OK st1 written);
        [apply reachable_initial|vm_compute; reflexivity].
    - vm_compute. reflexivity. }
  assert (mkFileBuilder path 100 [written] true ∈ erased_writers st2) as Hw.
  { apply (list_elem_of_lookup_2 _ 0%nat). vm_compute. reflexivity. }
  destruct (files_are_finished_early_only_at_the_budget small_budget_config
              calm_env st2 _ Hreach Hw) as (_ & _ & Hsize & _).
  apply Hsize. vm_compute. split; [discriminate|reflexivity].
Defined.

(** ** Rolling a writer *)

(** C3 (as amended). For a byte budget that is not negative: when the size
    of the writer of a key is below the budget, a request for the key returns
    OK and leaves the sink as it is; when the size has reached the budget,
    the request first calls [finish] on the writer.  If [finish] fails, its
    status is returned and the writer is kept.  If it succeeds the writer is
    erased; then, if the request returns OK, a fresh writer is installed and
    recorded under a path that is none of the files the file system created
    for the sink before (in a run of the sink: none of the recorded files,
    neither the path of the erased writer nor that of any writer erased
    earlier); otherwise the key is left without a writer and nothing is
    recorded.  The request returns OK whenever the sink is configured to
    create files, the file system answers OK and the path built from the
    clock reading is new. *)
Theorem writer_rolled_at_budget cfg env key st w :
  _partition_writer_map st !! key = Some w →
  0 ≤ bytes_per_file cfg < 2 ^ 63 →
  let r := finish_status env (tick st) in
  let res := prepare_partition_writer cfg env key st in
  (fb_size w < bytes_per_file cfg → res = (OK, st))
  ∧ (bytes_per_file cfg ≤ fb_size w →
     (∃ es, new_events st res.2 = EvFinish (fb_path w) r :: es)
     ∧ (r ≠ OK →
        res.1 = r
        ∧ _partition_writer_map res.2 = _partition_writer_map st
        ∧ export_output_files res.2 = export_output_files st
        ∧ erased_writers res.2 = erased_writers st
        ∧ new_events st res.2 = [EvFinish (fb_path w) r])
     ∧ (r = OK →
        erased_writers res.2 = erased_writers st ++ [mark_finished w]
        ∧ (res.1 = OK →
           ∃ path,
             _partition_writer_map res.2
             = <[key := new_builder path]> (_partition_writer_map st)
             ∧ export_output_files res.2 = export_output_files st ++ [path]
             ∧ new_events st res.2
               = [EvFinish (fb_path w) OK;
                  EvUnixMillis (UnixMillis env (S (tick st)));
                  EvNewWritableFile path OK]
             ∧ (path ∉ created_files (trace st))
             ∧ (rtc (sink_step cfg env) initial_sink st →
                path ≠ fb_path w
                ∧ (∀ w', w' ∈ erased_writers st → path ≠ fb_path w')
                ∧ path ∉ export_output_files st))
        ∧ (res.1 ≠ OK →
           _partition_writer_map res.2 = delete key (_partition_writer_map st)
           ∧ export_output_files res.2 = export_output_files st)
        ∧ (∀ prefix,
             file_name_prefix cfg = Some prefix →
             file_format cfg = "orc" →
             broker_addresses cfg ≠ [] →
             new_writable_file env (S (S (tick st))) = OK →
             file_path cfg env key prefix (UnixMillis env (S (tick st)))
               ∉ created_files (trace st) →
             res.1 = OK))).
Proof.
  intros Hw HB r res. subst r res.
  unfold prepare_partition_writer. rewrite Hw.
  pose proof (budget_reached_spec cfg w HB) as Hb.
  split.
  - intros Hlt. destruct (budget_reached cfg w); [|done].
    assert (bytes_per_file cfg ≤ fb_size w) by by apply Hb. lia.
  - intros Hle. apply Hb in Hle as ->. unfold finish_writer.
    destruct (finish_status env (tick st)) as [|code msg] eqn:Hfin; simpl.
    2:{ split; [by eexists []; apply new_events_app|].
        split; [|done]. intros _. split; [done|].
        split; [by apply insert_id|]. split; [done|]. split; [done|].
        by apply new_events_app. }
    set (st1 := erase_writer key (mark_finished w)
                  (log (EvFinish (fb_path w) OK)
                     (set_writer key (mark_finished w) st))).
    assert (_partition_writer_map st1 !! key = None) as Hnone
      by apply lookup_delete_eq.
    assert (tick st1 = S (tick st)) as Htick.
    { unfold st1, tick. simpl. rewrite length_app. simpl. lia. }
    assert (created_files (trace st1) = created_files (trace st)) as Hcreated.
    { simpl. rewrite created_files_app. simpl. by rewrite app_nil_r. }
    destruct (open_partition_writer cfg env key st1) as [s st'] eqn:Hopen.
    destruct (open_partition_writer_spec _ _ _ _ _ _ Hopen Hnone)
      as (He & (es & Ht & _) & Hcase).
    simpl. split.
    { exists es. apply new_events_app. rewrite Ht. simpl.
      by rewrite <- app_assoc. }
    split; [done|]. intros _. split; [by rewrite He|]. split; [|split].
    + intros ->.
      destruct (open_partition_writer_fresh _ _ _ _ _ Hopen)
        as (prefix & Hprefix & Hf & Ht' & Hfresh).
      rewrite Htick in Hf, Ht', Hfresh. rewrite Hcreated in Hfresh.
      destruct Hcase as [(_ & path & Hm & Hf')|[? _]]; [|done].
      rewrite Hf in Hf'. apply app_inj_tail in Hf' as [_ <-].
      eexists. split; [|split; [exact Hf|split; [|split; [exact Hfresh|]]]].
      * rewrite Hm. simpl. by rewrite insert_delete_eq, insert_insert_eq.
      * apply new_events_app. rewrite Ht'. simpl. by rewrite <- app_assoc.
      * intros Hsteps.
        rewrite <- (steps_created_files cfg env st Hsteps) in Hfresh.
        split; [|split; [|done]].
        -- intros Heq. apply Hfresh. rewrite Heq.
           by apply (steps_writers cfg env st Hsteps key w).
        -- intros w' Hw' Heq. apply Hfresh. rewrite Heq.
           by apply (steps_erased cfg env st Hsteps w').
    + intros Hs. destruct Hcase as [[? _]|(_ & Hm & Hf)]; [done|].
      rewrite Hm, Hf. simpl. split; [|done].
      by rewrite delete_insert_eq.
    + intros prefix Hprefix Hformat Hbrokers Hnew Hfresh.
      revert Hopen. unfold open_partition_writer, gen_file_name.
      rewrite Hprefix, Hformat. simpl.
      destruct (broker_addresses cfg) as [|b bs]; [done|].
      unfold fs_broker_new_writable_file.
      rewrite tick_log, Htick, Hnew.
      change (location cfg +:+ "/data/" +:+ key
              +:+ file_name env prefix (UnixMillis env (S (tick st))))
        with (file_path cfg env key prefix (UnixMillis env (S (tick st)))).
      rewrite bool_decide_eq_false_2.
      * simpl. by intros [= <- _].
      * simpl. rewrite !created_files_app. simpl. by rewrite !app_nil_r.
Qed.

Lemma writer_rolled_at_budget_witness :
  let st := sink_after small_budget_config calm_env one_row_chunk initial_sink in
  let res := prepare_partition_writer small_budget_config calm_env
               "dt=2024-01-01/" st in
  ∃ path,
    export_output_files res.2 = export_output_files st ++ [path]
    ∧ path ∉ created_files (trace st).
Proof.
  intros st res.
  assert (_partition_writer_map st !! "dt=2024-01-01/"
          = Some (mkFileBuilder
                    "hdfs://wh/t/data/dt=2024-01-01/q1_10001_1700000000000.orc"
                    100 [bind_slot_ids (slots small_budget_config) 0
                           (reset_slot_id_to_index one_row_chunk)] false))
    as Hw by (vm_compute; reflexivity).
  assert (0 ≤ bytes_per_file small_budget_config < 2 ^ 63) as HB
    by (vm_compute; split; [discriminate|reflexivity]).
  destruct (writer_rolled_at_budget small_budget_config calm_env _ _ _ Hw HB)
    as [_ Hroll].
  destruct Hroll as (_ & _ & Hfinished); [vm_compute; discriminate|].
  destruct (Hfinished eq_refl) as (_ & Hok & _).
  destruct Hok as (path & _ & Hf & _ & Hnew & _); [vm_compute; reflexivity|].
  exists path. split; [exact Hf|exact Hnew].
Defined.

(** A writer whose size is above the budget and that is not replaced by a
    fresh one.  With a budget of -1 the comparison, made on unsigned 64-bit
    integers, never holds: the writer of size 100 is kept, the next batch is
    appended to its file and nothing is finished.  With a budget of 100 and a
    second request in the millisecond of the first, the writer is finished
    and erased, the name built from the clock is that of the file just
    finished, the file system refuses to create it again, and the key is left
    without a writer. *)
Lemma writer_at_budget_not_replaced :
  let path := "hdfs://wh/t/data/dt=2024-01-01/q1_10001_1700000000000.orc" in
  let written := bind_slot_ids (slots small_budget_config) 0
                   (reset_slot_id_to_index one_row_chunk) in
  let st1 := sink_after negative_budget_config calm_env one_row_chunk
               initial_sink in
  let st2 := sink_after negative_budget_config calm_env one_row_chunk st1 in
  let st1' := sink_after small_budget_config frozen_clock_env one_row_chunk
                initial_sink in
  let st2' := sink_after small_budget_config frozen_clock_env one_row_chunk
                st1' in
  (bytes_per_file negative_budget_config = -1
   ∧ _partition_writer_map st1 !! "dt=2024-01-01/"
     = Some (mkFileBuilder path 100 [written] false)
   ∧ prepare_partition_writer negative_budget_config calm_env "dt=2024-01-01/"
       st1 = (OK, st1)
   ∧ new_events st1 st2 = [EvAddChunk path 100 written OK]
   ∧ _partition_writer_map st2 !! "dt=2024-01-01/"
     = Some (mkFileBuilder path 200 [written; written] false)
   ∧ erased_writers st2 = [])
  ∧ (bytes_per_file small_budget_config = 100
     ∧ _partition_writer_map st1' !! "dt=2024-01-01/"
       = Some (mkFileBuilder path 100 [written] false)
     ∧ (∃ code msg,
          send_chunk small_budget_config frozen_clock_env one_row_chunk st1'
          = Done (Error code msg, st2', written)
          ∧ new_events st1' st2'
            = [EvFinish path OK; EvUnixMillis 1700000000000;
               EvNewWritableFile path (Error code msg)])
     ∧ erased_writers st2' = [mkFileBuilder path 100 [written] true]
     ∧ _partition_writer_map st2' !! "dt=2024-01-01/" = None
     ∧ export_output_files st2' = [path]).
Proof.
  repeat split; try (vm_compute; reflexivity).
  eexists _, _. split; vm_compute; reflexivity.
Qed.
